(** * Text generation (GPT-2 notebook) and CTC greedy decoding (handwritten
      OCR notebook): a shallow embedding of the two algorithms and the
      properties their specification states about them.

    Numbers.  The notebooks compute on numpy float arrays.  A score is
    modelled as an extended rational: every finite float is a rational, and
    the code itself writes [-float("inf")] into arrays and negates arrays, so
    both infinities and NaN are values.  Comparison, negation, subtraction,
    sorting, min, max and arg-max are exact on this type and computable.
    [np.exp] leaves the rationals, so what softmax computes after
    exponentiating lives in the extended reals ([xreal]).  Arithmetic is
    ideal: rounding, overflow and underflow of IEEE floats are not
    modelled. *)

From Stdlib Require Import List ZArith QArith Qreals Reals Lra Lqa Lia Bool.
From Stdlib Require Import Permutation Sorted Ascii.
Import ListNotations.

Set Implicit Arguments.

(** Numeric literals and operators are read in [nat] unless a scope is
    written. *)
Open Scope nat_scope.

(* ------------------------------------------------------------------ *)
(** ** Exceptions *)

(** The exceptions the two notebooks can run into. *)
Inductive exn : Type :=
| ValueError
| IndexError
| AxisError
| EngineFailure.

(** A value, or the exception raised instead. *)
Inductive result (A : Type) : Type :=
| Ok (a : A)
| Raise (e : exn).

Arguments Ok {A} a.
Arguments Raise {A} e.

(** Sequencing: an exception ends the computation. *)
Definition bind {A B : Type} (r : result A) (k : A -> result B) : result B :=
  match r with
  | Ok a => k a
  | Raise e => Raise e
  end.

Notation "x <- r ;; k" := (bind r (fun x => k))
  (at level 61, r at next level, right associativity).

(** [[f(x) for x in l]] where [f] may raise: the first exception wins. *)
Fixpoint map_result {A B : Type} (f : A -> result B) (l : list A)
  : result (list B) :=
  match l with
  | [] => Ok []
  | x :: t => y <- f x ;; ys <- map_result f t ;; Ok (y :: ys)
  end.

(* ------------------------------------------------------------------ *)
(** ** Python sequences *)

(** [l[i]] for a Python int [i]: a negative index counts from the end. *)
Definition py_getitem {A : Type} (l : list A) (i : Z) : result A :=
  let n := Z.of_nat (length l) in
  let j := (if i <? 0 then i + n else i)%Z in
  if ((j <? 0) || (n <=? j))%Z then Raise IndexError
  else match nth_error l (Z.to_nat j) with
       | Some a => Ok a
       | None => Raise IndexError
       end.

(** [l[:stop]]: a negative [stop] counts from the end, and the bounds are
    clipped. *)
Definition py_slice_to {A : Type} (l : list A) (stop : Z) : list A :=
  let n := Z.of_nat (length l) in
  firstn (Z.to_nat (if stop <? 0 then stop + n else stop)%Z) l.

(** [[x] * n]: an empty list when [n] is not positive. *)
Definition py_repeat {A : Type} (x : A) (n : Z) : list A :=
  repeat x (Z.to_nat n).

(* ------------------------------------------------------------------ *)
(** ** numpy scores *)

(** A float of a score array, as an extended rational. *)
Inductive score : Type :=
| NaN
| NegInf
| Fin (q : Q)
| PosInf.

(** [x < y] on rationals. *)
Definition Qlt_bool (x y : Q) : bool := negb (Qle_bool y x).

(** IEEE [a < b]: false as soon as one side is NaN. *)
Definition slt (a b : score) : bool :=
  match a, b with
  | NaN, _ => false
  | _, NaN => false
  | NegInf, NegInf => false
  | NegInf, _ => true
  | Fin _, NegInf => false
  | Fin x, Fin y => Qlt_bool x y
  | Fin _, PosInf => true
  | PosInf, _ => false
  end.

(** IEEE [a <= b]. *)
Definition sle (a b : score) : bool :=
  match a, b with
  | NaN, _ => false
  | _, NaN => false
  | NegInf, _ => true
  | Fin _, NegInf => false
  | Fin x, Fin y => Qle_bool x y
  | Fin _, PosInf => true
  | PosInf, PosInf => true
  | PosInf, _ => false
  end.

(** Unary minus. *)
Definition sneg (a : score) : score :=
  match a with
  | NaN => NaN
  | NegInf => PosInf
  | Fin q => Fin (- q)%Q
  | PosInf => NegInf
  end.

(** [a - b]. *)
Definition ssub (a b : score) : score :=
  match a, b with
  | NaN, _ => NaN
  | _, NaN => NaN
  | Fin x, Fin y => Fin (x - y)%Q
  | PosInf, PosInf => NaN
  | NegInf, NegInf => NaN
  | PosInf, _ => PosInf
  | NegInf, _ => NegInf
  | Fin _, PosInf => NegInf
  | Fin _, NegInf => PosInf
  end.

(** The order [np.sort] sorts by: the IEEE order with NaN placed last. *)
Definition sort_leb (a b : score) : bool :=
  match a, b with
  | _, NaN => true
  | NaN, _ => false
  | _, _ => sle a b
  end.

(** Insertion into a sorted list. *)
Fixpoint sort_insert (x : score) (l : list score) : list score :=
  match l with
  | [] => [x]
  | y :: t => if sort_leb x y then x :: y :: t else y :: sort_insert x t
  end.

(** [np.sort(a)]: a sorted copy, ascending. *)
Fixpoint np_sort (l : list score) : list score :=
  match l with
  | [] => []
  | x :: t => sort_insert x (np_sort t)
  end.

(** [np.minimum] of two values: NaN propagates. *)
Definition smin (a b : score) : score :=
  match a, b with
  | NaN, _ => NaN
  | _, NaN => NaN
  | _, _ => if slt b a then b else a
  end.

(** [np.maximum]. *)
Definition smax (a b : score) : score :=
  match a, b with
  | NaN, _ => NaN
  | _, NaN => NaN
  | _, _ => if slt a b then b else a
  end.

(** [np.min(a)]: a zero-size array has no minimum and the reduction raises
    ValueError. *)
Definition np_min (l : list score) : result score :=
  match l with
  | [] => Raise ValueError
  | x :: t => Ok (fold_left smin t x)
  end.

(** [np.max(a)]. *)
Definition np_max (l : list score) : result score :=
  match l with
  | [] => Raise ValueError
  | x :: t => Ok (fold_left smax t x)
  end.

(** [np.argmax(a)]: the index of the first occurrence of the maximum, where
    a NaN counts as the maximum; ValueError on an empty sequence. *)
Definition better (x best : score) : bool :=
  match best, x with
  | NaN, _ => false
  | _, NaN => true
  | _, _ => slt best x
  end.

(** The scan of [np.argmax]: [best] at [best_i] is the candidate so far,
    [i] the index of the head of [l]. *)
Fixpoint argmax_from (best_i : nat) (best : score) (i : nat) (l : list score)
  : nat :=
  match l with
  | [] => best_i
  | x :: t =>
      if better x best then argmax_from i x (S i) t
      else argmax_from best_i best (S i) t
  end.

(** [np.argmax(a)] on one row. *)
Definition np_argmax (l : list score) : result nat :=
  match l with
  | [] => Raise ValueError
  | x :: t => Ok (argmax_from 0 x 1 t)
  end.

(** [np.ma.array(a, mask=m, fill_value=v).filled()]: [v] where the mask is
    set, the entry of [a] elsewhere. *)
Fixpoint np_filled (a : list score) (mask : list bool) (fill_value : score)
  : list score :=
  match a, mask with
  | x :: a', b :: mask' =>
      (if b then fill_value else x) :: np_filled a' mask' fill_value
  | _, _ => a
  end.

(** The list with position [i] overwritten. *)
Fixpoint list_set {A : Type} (l : list A) (i : nat) (v : A) : list A :=
  match l, i with
  | [], _ => []
  | _ :: t, O => v :: t
  | x :: t, S i' => x :: list_set t i' v
  end.

(** [l[i] = v]: IndexError outside the list. *)
Definition py_setitem {A : Type} (l : list A) (i : Z) (v : A)
  : result (list A) :=
  let n := Z.of_nat (length l) in
  let j := (if i <? 0 then i + n else i)%Z in
  if ((j <? 0) || (n <=? j))%Z then Raise IndexError
  else Ok (list_set l (Z.to_nat j) v).

(* ------------------------------------------------------------------ *)
(** ** Extended reals: what [np.exp] returns and softmax divides *)

(** An extended real. *)
Inductive xreal : Type :=
| XNaN
| XNegInf
| XFin (r : R)
| XPosInf.

(** [np.exp], as the exact exponential: the float code rounds, and
    underflows to 0.0 on a very negative score, which this model does
    not. *)
Definition np_exp (a : score) : xreal :=
  match a with
  | NaN => XNaN
  | NegInf => XFin 0%R
  | Fin q => XFin (exp (Q2R q))
  | PosInf => XPosInf
  end.

(** [a + b]. *)
Definition xadd (a b : xreal) : xreal :=
  match a, b with
  | XNaN, _ => XNaN
  | _, XNaN => XNaN
  | XFin x, XFin y => XFin (x + y)%R
  | XPosInf, XNegInf => XNaN
  | XNegInf, XPosInf => XNaN
  | XPosInf, _ => XPosInf
  | _, XPosInf => XPosInf
  | XNegInf, _ => XNegInf
  | _, XNegInf => XNegInf
  end.

(** [a / b]; a zero divisor counts as positive zero. *)
Definition xdiv (a b : xreal) : xreal :=
  match a, b with
  | XNaN, _ => XNaN
  | _, XNaN => XNaN
  | XFin x, XFin y =>
      if Req_dec_T y 0%R then
        if Req_dec_T x 0%R then XNaN
        else if Rlt_dec 0%R x then XPosInf else XNegInf
      else XFin (x / y)%R
  | XFin _, _ => XFin 0%R
  | XPosInf, XFin y => if Rlt_dec y 0%R then XNegInf else XPosInf
  | XNegInf, XFin y => if Rlt_dec y 0%R then XPosInf else XNegInf
  | _, _ => XNaN
  end.

(** [a.sum()]. *)
Definition np_sum (a : list xreal) : xreal := fold_left xadd a (XFin 0%R).

(** The entries of an array when all of them are finite. *)
Fixpoint finite_values (a : list xreal) : option (list R) :=
  match a with
  | [] => Some []
  | XFin r :: t =>
      match finite_values t with
      | Some rs => Some (r :: rs)
      | None => None
      end
  | _ :: _ => None
  end.

(** The sum of a list of reals. *)
Fixpoint Rsum (l : list R) : R :=
  match l with
  | [] => 0%R
  | x :: t => (x + Rsum t)%R
  end.

(** [p.cumsum()], started from an accumulator. *)
Fixpoint cumsum_from (acc : R) (p : list R) : list R :=
  match p with
  | [] => []
  | x :: t => (acc + x)%R :: cumsum_from (acc + x)%R t
  end.

(** The running sums of [p]. *)
Definition cumsum (p : list R) : list R := cumsum_from 0%R p.

(** [cdf.searchsorted(v, side='right')] on an ascending [cdf]: the number of
    entries that are at most [v]. *)
Fixpoint searchsorted_right (cdf : list R) (v : R) : nat :=
  match cdf with
  | [] => O
  | x :: t => if Rlt_dec v x then O else S (searchsorted_right t v)
  end.

(** [np.logical_or.reduce(p < 0)]. *)
Definition Rany_negative (p : list R) : bool :=
  existsb (fun x => if Rlt_dec x 0%R then true else false) p.

(** The tolerance of the sum check of [np.random.choice] for float32
    probabilities: the square root of the machine epsilon. *)
Definition choice_atol : R := sqrt (/ 2 ^ 23)%R.

(** [np.random.choice(a, 1, p=p, replace=True)] for an int [a], with the
    uniform draw [u] of [random_sample()] made explicit.  The probabilities
    are validated (size, no NaN, none negative, sum 1 within tolerance;
    an infinite entry fails one of the last two), then the draw is inverted
    through the normalised cumulative distribution.  The cumulative sums
    are exact here; the float code rounds them, which can move a draw that
    falls on a boundary to the neighbouring index. *)
Definition np_random_choice (a : nat) (p : list xreal) (u : R) : result nat :=
  if a =? 0 then Raise ValueError
  else if negb (length p =? a) then Raise ValueError
  else match finite_values p with
       | None => Raise ValueError
       | Some ps =>
           if Rany_negative ps then Raise ValueError
           else if Rlt_dec choice_atol (Rabs (Rsum ps - 1)%R)
           then Raise ValueError
           else
             let cdf := cumsum ps in
             let cdf := map (fun c => (c / last cdf 0)%R) cdf in
             Ok (searchsorted_right cdf u)
       end.

(* ------------------------------------------------------------------ *)
(** ** Notions about scores that the statements use *)

(** Any score but NaN. *)
Definition not_nan (s : score) : Prop :=
  match s with NaN => False | _ => True end.

(** A score the softmax can work with: a real number or minus infinity. *)
Definition below_inf (s : score) : Prop :=
  match s with Fin _ | NegInf => True | _ => False end.

(** A real-valued score. *)
Definition is_real (s : score) : Prop :=
  match s with Fin _ => True | _ => False end.

(** Index [i] is the arg-max of [row] with ties broken by lowest index: no
    entry is above the entry at [i], and every entry before [i] is strictly
    below it. *)
Definition is_argmax (row : list score) (i : nat) : Prop :=
  exists v,
    nth_error row i = Some v /\
    (forall j w, nth_error row j = Some w -> sle w v = true) /\
    (forall j w, j < i -> nth_error row j = Some w -> slt w v = true).

(** The number of entries that satisfy a test. *)
Definition count (f : score -> bool) (l : list score) : nat :=
  length (filter f l).

(** [v] is the [k]-th highest score of [l], counted with multiplicity:
    an entry of [l] with fewer than [k] entries strictly above it and at
    least [k] entries at or above it. *)
Definition kth_highest (l : list score) (k : nat) (v : score) : Prop :=
  In v l /\ count (slt v) l < k /\ k <= count (sle v) l.

(** [-np.sort(-scores)]: the scores in descending order. *)
Definition descending (scores : list score) : list score :=
  map sneg (np_sort (map sneg scores)).

(** What softmax exponentiates at an entry once the row maximum [m] is
    subtracted: [exp(s - m)], and 0 at minus infinity. *)
Definition weight (m : Q) (s : score) : R :=
  match s with
  | Fin q => exp (Q2R (q - m))
  | _ => 0%R
  end.

(* ------------------------------------------------------------------ *)
(** ** GPT-2 notebook: logit processing *)

(** [softmax(x)] on one row. *)
Definition softmax (x : list score) : result (list xreal) :=
  m <- np_max x ;;
  let e_x := map (fun v => np_exp (ssub v m)) x in
  let summation := np_sum e_x in
  Ok (map (fun e => xdiv e summation) e_x).

(** [process_logits(cur_length, scores, eos_token_id, min_length)]. *)
Definition process_logits (cur_length : Z) (scores : list score)
    (eos_token_id : Z) (min_length : Z) : result (list score) :=
  if (cur_length <? min_length)%Z
  then py_setitem scores eos_token_id (sneg PosInf)
  else Ok scores.

(** [get_top_k_logits(scores, top_k)] on the one row the generator passes
    (the arrays have shape [(1, vocab)]). *)
Definition get_top_k_logits (scores : list score) (top_k : Z)
  : result (list score) :=
  let filter_value := sneg PosInf in
  let top_k := Z.min (Z.max top_k 1) (Z.of_nat (length scores)) in
  let top_k_scores :=
    py_slice_to (map sneg (np_sort (map sneg scores))) top_k in
  m <- np_min top_k_scores ;;
  let indices_to_remove := map (fun s => slt s m) scores in
  Ok (np_filled scores indices_to_remove filter_value).

(** The sampling statements of the loop body of [generate_sequence]
    (top-k filter, softmax, [np.random.choice]) with [top_k] and the uniform
    draw as arguments. *)
Definition sample_token (next_token_scores : list score) (top_k : Z) (u : R)
  : result nat :=
  next_token_scores <- get_top_k_logits next_token_scores top_k ;;
  probs <- softmax next_token_scores ;;
  np_random_choice (length probs) probs u.

(* ------------------------------------------------------------------ *)
(** ** GPT-2 notebook: the generation loop *)

(** What one pass through the body of [while True] decides. *)
Inductive loop_ctl : Type :=
| Break
| Continue (input_ids attention_mask : list Z).

(** The record of one call of the inference engine: the loop state in
    which the call is made and the two arrays the call passes. *)
Record iteration : Type := mk_iteration {
  at_input_ids : list Z;
  at_attention_mask : list Z;
  model_input_ids : list Z;
  model_input_attention_mask : list Z
}.

(** How a run of the loop ends: [return input_ids], an exception, or the
    iteration budget of the model used up. *)
Inductive outcome : Type :=
| Returned (input_ids : list Z)
| Raised (e : exn)
| OutOfFuel.

Section Generator.

(** The compiled model: for the single batch element, one row of
    vocabulary scores per input position (or a failure of the engine). *)
Variable compiled_model : list Z -> list Z -> result (list (list score)).

(** The global numpy generator: the uniform draw in [[0, 1)] that the
    [n]-th call of [np.random.choice] consumes. *)
Variable random_sample : nat -> R.

Variable max_sequence_length : Z.
Variable eos_token_id : Z.
Variable dynamic_shapes : bool.

(** The input of the model at a loop state: padded with [eos_token_id] (and
    a zero mask) up to [max_sequence_length] unless shapes are dynamic. *)
Definition model_input (input_ids attention_mask : list Z)
  : list Z * list Z :=
  let cur_input_len := Z.of_nat (length input_ids) in
  if negb dynamic_shapes then
    let pad_len := (max_sequence_length - cur_input_len)%Z in
    (input_ids ++ py_repeat eos_token_id pad_len,
     attention_mask ++ py_repeat 0%Z pad_len)
  else (input_ids, attention_mask).

(** [compiled_model({"input_ids": model_input_ids, "attention_mask":
    model_input_attention_mask})[output_key]]: the only place where the
    engine is called.  Next to the answer of the engine stands the record
    of the call, which holds the very arrays the engine was given. *)
Definition infer (input_ids attention_mask : list Z)
    (model_input_ids model_input_attention_mask : list Z)
  : result (list (list score)) * list iteration :=
  (compiled_model model_input_ids model_input_attention_mask,
   [mk_iteration input_ids attention_mask
                 model_input_ids model_input_attention_mask]).

(** The body of [while True] at the [n]-th iteration, from its head to
    [np.random.choice]: the sampled token (or the exception raised on the
    way) and the calls of the engine made. *)
Definition next_token (n : nat) (input_ids attention_mask : list Z)
  : result nat * list iteration :=
  let cur_input_len := Z.of_nat (length input_ids) in
  let '(model_ids, model_mask) := model_input input_ids attention_mask in
  let '(outputs, calls) :=
    infer input_ids attention_mask model_ids model_mask in
  (outputs <- outputs ;;
   next_token_logits <- py_getitem outputs (cur_input_len - 1)%Z ;;
   next_token_scores <-
     process_logits cur_input_len next_token_logits eos_token_id 0%Z ;;
   let top_k := 20%Z in
   sample_token next_token_scores top_k (random_sample n),
   calls).

(** The whole body of [while True] at the [n]-th iteration: the sampling
    above, then the termination test and the two appends.  The calls of
    the engine are those of the sampling; the rest of the body makes
    none. *)
Definition loop_body (n : nat) (input_ids attention_mask : list Z)
  : result loop_ctl * list iteration :=
  let cur_input_len := Z.of_nat (length input_ids) in
  let '(next_tokens, calls) := next_token n input_ids attention_mask in
  (next_tokens <- next_tokens ;;
   if ((cur_input_len =? max_sequence_length)
       || (Z.of_nat next_tokens =? eos_token_id))%Z
   then Ok Break
   else Ok (Continue (input_ids ++ [Z.of_nat next_tokens])
                     (attention_mask ++ py_repeat 1%Z 1%Z)),
   calls).

(** [while True: ...] run for at most [fuel] iterations, from iteration
    number [n]; the second component lists, in order, the calls of the
    engine that the bodies run have made.  A pass through the body makes
    one call, so the list also counts the iterations started. *)
Fixpoint while_true (fuel n : nat) (input_ids attention_mask : list Z)
  : outcome * list iteration :=
  match fuel with
  | O => (OutOfFuel, [])
  | S fuel' =>
      let '(ctl, calls) := loop_body n input_ids attention_mask in
      match ctl with
      | Raise e => (Raised e, calls)
      | Ok Break => (Returned input_ids, calls)
      | Ok (Continue input_ids' attention_mask') =>
          let '(o, its) :=
            while_true fuel' (S n) input_ids' attention_mask' in
          (o, calls ++ its)
      end
  end.

(** [generate_sequence(input_ids, attention_mask, max_sequence_length,
    eos_token_id, dynamic_shapes)]. *)
Definition generate_sequence (fuel : nat)
    (input_ids attention_mask : list Z) : outcome * list iteration :=
  while_true fuel 0 input_ids attention_mask.

End Generator.

(* ------------------------------------------------------------------ *)
(** ** Handwritten OCR notebook: CTC greedy decoding *)

(** What [np.squeeze] leaves of the model output.  [predictions] has shape
    [(W, 1, L)] and is held as its [W] rows of [L] scores; with no row the
    label axis is taken to have length 0.  Squeezing drops every axis of
    length one, so a single row or a single label leaves fewer than two
    axes. *)
Inductive squeezed : Type :=
| Rank2 (rows : list (list score))
| RankBelow2.

(** [np.squeeze(predictions)]. *)
Definition np_squeeze (predictions : list (list score)) : squeezed :=
  let W := length predictions in
  let L := match predictions with [] => 0 | row :: _ => length row end in
  if (W =? 1) || (L =? 1) then RankBelow2 else Rank2 predictions.

(** [np.argmax(a, axis=1)]: axis 1 does not exist below rank two. *)
Definition np_argmax_axis1 (a : squeezed) : result (list nat) :=
  match a with
  | RankBelow2 => Raise AxisError
  | Rank2 rows => map_result np_argmax rows
  end.

(** [itertools.groupby(l)]: one pair of a key and its group for every
    maximal run of equal consecutive elements. *)
Fixpoint groupby_run (key : nat) (group : list nat) (l : list nat)
  : list (nat * list nat) :=
  match l with
  | [] => [(key, group)]
  | x :: t =>
      if x =? key then groupby_run key (group ++ [x]) t
      else (key, group) :: groupby_run x [x] t
  end.

(** [list(groupby(l))]. *)
Definition groupby (l : list nat) : list (nat * list nat) :=
  match l with
  | [] => []
  | x :: t => groupby_run x [x] t
  end.

(** [np.transpose(pairs, (1, 0))] unpacked into two rows.  An empty list is
    a one-dimensional array, which has no axis 1: ValueError. *)
Definition np_transpose_pairs {A B : Type} (pairs : list (A * B))
  : result (list A * list B) :=
  match pairs with
  | [] => Raise ValueError
  | _ :: _ => Ok (map fst pairs, map snd pairs)
  end.

Section Decoder.

(** The symbols of the charlist (Python characters). *)
Variable char : Type.
Variable char_eq_dec : forall a b : char, {a = b} + {a <> b}.

(** The cells from [np.squeeze] to the list comprehension that builds
    [output_text]. *)
Definition output_text (predictions : list (list score))
    (letters : list char) : result (list char) :=
  let predictions := np_squeeze predictions in
  predictions_indexes <- np_argmax_axis1 predictions ;;
  let output_text_indexes := groupby predictions_indexes in
  transposed <- np_transpose_pairs output_text_indexes ;;
  let output_text_indexes := fst transposed in
  let output_text_indexes :=
    filter (fun i => negb (i =? 0)) output_text_indexes in
  map_result (fun letter_index => py_getitem letters (Z.of_nat letter_index))
             output_text_indexes.

(** [letters = blank_char + "".join(...)]: the blank symbol followed by
    the symbols of the charlist. *)
Definition letters_of (blank_char : char) (charlist : list char)
  : list char :=
  blank_char :: charlist.

(** [decode(prob_matrix, charlist)] of the specification. *)
Definition decode (blank_char : char) (prob_matrix : list (list score))
    (charlist : list char) : result (list char) :=
  output_text prob_matrix (letters_of blank_char charlist).

(** *** The words of the specification, to compare the code with *)

(** Consecutive equal label indices collapse into one occurrence. *)
Fixpoint collapse (l : list nat) : list nat :=
  match l with
  | [] => []
  | x :: t =>
      match t with
      | [] => [x]
      | y :: _ => if x =? y then collapse t else x :: collapse t
      end
  end.

(** All blank labels (index 0) are removed. *)
Fixpoint strip_blank (l : list nat) : list nat :=
  match l with
  | [] => []
  | O :: t => strip_blank t
  | S i :: t => S i :: strip_blank t
  end.

(** Label [i > 0] stands for [charlist[i-1]]. *)
Definition symbol_of (charlist : list char) (i : nat) : option char :=
  match i with
  | O => None
  | S j => nth_error charlist j
  end.

(** A valid probability matrix for a charlist: every row, one per time
    step, holds one real score for the blank and one for each symbol. *)
Definition valid_matrix (prob_matrix : list (list score))
    (charlist : list char) : Prop :=
  Forall (fun row => length row = S (length charlist) /\ Forall is_real row)
         prob_matrix.

(** Modelled from the spec: the first position of a symbol in the charlist.
    The notebook never maps a symbol back to its label; [expand] needs it. *)
Fixpoint position (c : char) (l : list char) : option nat :=
  match l with
  | [] => None
  | x :: t =>
      if char_eq_dec c x then Some 0
      else match position c t with
           | Some i => Some (S i)
           | None => None
           end
  end.

(** Modelled from the spec: the label of a symbol, one more than its first
    position in the charlist (label 0 is the blank, which also stands in
    for a symbol the charlist does not hold). *)
Definition label_of (charlist : list char) (c : char) : nat :=
  match position c charlist with
  | Some i => S i
  | None => 0
  end.

(** Modelled from the spec: the frame of a label, one time step that scores
    1 at the label and 0 at every other label. *)
Definition one_hot (width label : nat) : list score :=
  map (fun j => if j =? label then Fin 1%Q else Fin 0%Q) (seq 0 width).

(** Modelled from the spec: [expand] maps a symbol sequence to one frame
    per symbol (one label per time step).  No cell of the notebook does
    this. *)
Definition expand (charlist : list char) (symbols : list char)
  : list (list score) :=
  map (fun c => one_hot (S (length charlist)) (label_of charlist c)) symbols.

(** No two neighbours of the sequence are equal. *)
Fixpoint no_adjacent_repeat (l : list char) : Prop :=
  match l with
  | [] => True
  | x :: t =>
      match t with
      | [] => True
      | y :: _ => x <> y /\ no_adjacent_repeat t
      end
  end.

End Decoder.

(* ------------------------------------------------------------------ *)
(** ** Words of the specification about the generation loop *)

(** The attention mask is parallel to the token sequence: as long, with
    entries in {0, 1}. *)
Definition parallel (input_ids attention_mask : list Z) : Prop :=
  length attention_mask = length input_ids /\
  Forall (fun b => b = 0%Z \/ b = 1%Z) attention_mask.

(** The inference engine honours its contract: it answers every request
    with one row of real-valued logits per input position, over a
    non-empty vocabulary. *)
Definition engine_ok
    (compiled_model : list Z -> list Z -> result (list (list score))) : Prop :=
  forall ids mask,
    exists outputs,
      compiled_model ids mask = Ok outputs /\
      length outputs = length ids /\
      Forall (fun row => row <> [] /\ Forall is_real row) outputs.

(** Every uniform draw lies in [[0, 1)]. *)
Definition draws_ok (random_sample : nat -> R) : Prop :=
  forall n, (0 <= random_sample n < 1)%R.

(** The call a loop state is expected to make: the engine is given the
    model input of that state. *)
Definition started (max_sequence_length eos_token_id : Z)
    (dynamic_shapes : bool) (input_ids attention_mask : list Z) : iteration :=
  let '(model_ids, model_mask) :=
    model_input max_sequence_length eos_token_id dynamic_shapes
                input_ids attention_mask in
  mk_iteration input_ids attention_mask model_ids model_mask.

(** An engine that answers every position with the same logits: a concrete
    collaborator to run the loop on. *)
Definition constant_model (logits : list score)
  : list Z -> list Z -> result (list (list score)) :=
  fun ids _ => Ok (map (fun _ => logits) ids).

(** The generator whose every draw is one half. *)
Definition half_draws : nat -> R := fun _ => (1 / 2)%R.

(** A generator whose first two draws are one quarter and whose later
    draws are three quarters. *)
Definition late_draws : nat -> R :=
  fun n => if n <? 2 then (1 / 4)%R else (3 / 4)%R.

(** The matrix of the example of the specification: its rows arg-max to
    [[0, 0, 2, 2, 3, 0, 3]] (the second and the fourth row hold a tie, which
    the lowest index wins). *)
Definition bcc_matrix : list (list score) :=
  [ [Fin (5 # 10); Fin (1 # 10); Fin (3 # 10); Fin (1 # 10)];
    [Fin (4 # 10); Fin (4 # 10); Fin (1 # 10); Fin (1 # 10)];
    [Fin (1 # 10); Fin (2 # 10); Fin (6 # 10); Fin (1 # 10)];
    [Fin 0; Fin (1 # 10); Fin (45 # 100); Fin (45 # 100)];
    [Fin 0; Fin 0; Fin (1 # 10); Fin (9 # 10)];
    [Fin 1; Fin 0; Fin 0; Fin 0];
    [Fin (1 # 10); Fin (1 # 10); Fin (1 # 10); Fin (7 # 10)] ].

(** A matrix whose rows arg-max to [[1, 1, 0, 2, 3]]: it decodes to "ABC". *)
Definition abc_matrix : list (list score) :=
  [ [Fin (1 # 10); Fin (7 # 10); Fin (1 # 10); Fin (1 # 10)];
    [Fin (2 # 10); Fin (6 # 10); Fin (1 # 10); Fin (1 # 10)];
    [Fin (8 # 10); Fin (1 # 10); Fin (1 # 10); Fin 0];
    [Fin (1 # 10); Fin (1 # 10); Fin (7 # 10); Fin (1 # 10)];
    [Fin 0; Fin (1 # 10); Fin (1 # 10); Fin (8 # 10)] ].

(** The charlist of the example. *)
Definition abc_charlist : list ascii := ["A"; "B"; "C"]%char.


(** The exponential of a score: [exp(s)], and 0 at minus infinity. *)
Definition exp_score (s : score) : R :=
  match s with
  | Fin q => exp (Q2R q)
  | _ => 0%R
  end.

(* ------------------------------------------------------------------ *)
(** ** Handwritten OCR notebook: padding the image and reading the charlist *)

(** [a.shape[1]] of an image held as its rows; without a row the width is
    taken to be 0. *)
Definition shape1 {A : Type} (image : list (list A)) : nat :=
  match image with
  | [] => 0
  | row :: _ => length row
  end.

(** One row extended to the right by [after] copies of its last entry; a
    row without entries has no edge to repeat. *)
Definition pad_row_edge {A : Type} (row : list A) (after : nat)
  : result (list A) :=
  match rev row with
  | [] => if after =? 0 then Ok row else Raise ValueError
  | edge :: _ => Ok (row ++ repeat edge after)
  end.

(** [np.pad(image, ((0, 0), (0, after)), mode="edge")]: a negative pad
    width is refused, and so is extending an empty axis. *)
Definition np_pad_edge_right {A : Type} (image : list (list A)) (after : Z)
  : result (list (list A)) :=
  if (after <? 0)%Z then Raise ValueError
  else map_result (fun row => pad_row_edge row (Z.to_nat after)) image.

(** The padding statement of the image cell:
    [np.pad(resized_image, ((0, 0), (0, W - resized_image.shape[1])),
    mode="edge")]. *)
Definition pad_to_input_width {A : Type} (resized_image : list (list A))
    (W : Z) : result (list (list A)) :=
  np_pad_edge_right resized_image (W - Z.of_nat (shape1 resized_image))%Z.

Section Charlist.

(** Python characters and the test [str.isspace] makes on them. *)
Variable char : Type.
Variable is_space : char -> bool.

(** The characters from the first one that is not white space on. *)
Fixpoint lstrip (line : list char) : list char :=
  match line with
  | [] => []
  | c :: t => if is_space c then lstrip t else line
  end.

(** [line.strip()]: white space removed at both ends. *)
Definition py_strip (line : list char) : list char :=
  rev (lstrip (rev (lstrip line))).

(** [blank_char + "".join(line.strip() for line in charlist)]: the letters
    the decoder indexes, built from the lines of the charlist file. *)
Definition letters_from_lines (blank_char : char) (lines : list (list char))
  : list char :=
  blank_char :: concat (map py_strip lines).

End Charlist.

(* ------------------------------------------------------------------ *)
(** ** Segmentation notebook: normalising the image and reading the mask *)

(** Two lists combined entry by entry. *)
Fixpoint zip_with {A : Type} (op : A -> A -> A) (a b : list A) : list A :=
  match a, b with
  | x :: a', y :: b' => op x y :: zip_with op a' b'
  | _, _ => []
  end.

(** [image op= t] along the channel axis for a tuple [t]: the tuple
    broadcasts only against a channel axis of its own length (the result
    is written back into [image]). *)
Definition broadcast_channels (op : Q -> Q -> Q) (pixel t : list Q)
  : result (list Q) :=
  if length pixel =? length t then Ok (zip_with op pixel t)
  else Raise ValueError.

(** [mean = (0.485, 0.456, 0.406)]. *)
Definition mean : list Q := [485 # 1000; 456 # 1000; 406 # 1000]%Q.

(** [std = (0.229, 0.224, 0.225)]. *)
Definition std : list Q := [229 # 1000; 224 # 1000; 225 # 1000]%Q.

(** [normalize(image)] at one pixel of byte values, in exact arithmetic:
    [image /= 255.0], [image -= mean], [image /= std]. *)
Definition normalize_pixel (pixel : list Z) : result (list Q) :=
  let image := map inject_Z pixel in
  let image := map (fun v => v / 255)%Q image in
  image <- broadcast_channels Qminus image mean ;;
  broadcast_channels Qdiv image std.

(** [normalize(image)] on an image of shape [(H, W, C)]. *)
Definition normalize (image : list (list (list Z)))
  : result (list (list (list Q))) :=
  map_result (map_result normalize_pixel) image.

(** The scores of the classes at pixel [(h, w)] of [res[0]], an array of
    shape [(C, H, W)] held as its [C] planes. *)
Definition class_scores (planes : list (list (list score))) (h w : nat)
  : list score :=
  map (fun plane => nth w (nth h plane []) NaN) planes.

(** [np.argmax(res, axis=1)[0]]: for every pixel the class of the highest
    score; the height and the width are those of the first plane.  Without
    a class there is nothing to take the arg-max of. *)
Definition argmax_classes (planes : list (list (list score)))
  : result (list (list nat)) :=
  match planes with
  | [] => Raise ValueError
  | plane :: _ =>
      let H := length plane in
      let W := length (hd [] plane) in
      map_result
        (fun h => map_result (fun w => np_argmax (class_scores planes h w))
                             (seq 0 W))
        (seq 0 H)
  end.

(** What [np.squeeze] leaves of an array of shape [(1, H, W)], held as its
    [H] rows: every axis of length one is dropped. *)
Inductive squeezed_mask (A : Type) : Type :=
| Mask2 (rows : list (list A))
| Mask1 (entries : list A)
| Mask0 (entry : A).

Arguments Mask2 {A} rows.
Arguments Mask1 {A} entries.
Arguments Mask0 {A} entry.

(** [np.squeeze] on such an array. *)
Definition squeeze_mask {A : Type} (rows : list (list A)) : squeezed_mask A :=
  match rows with
  | [row] =>
      match row with
      | [entry] => Mask0 entry
      | _ => Mask1 row
      end
  | _ =>
      if length (hd [] rows) =? 1 then Mask1 (concat rows)
      else Mask2 rows
  end.

(** [.astype(np.uint8)] on a class index, and on a squeezed array. *)
Definition astype_uint8 (i : nat) : Z := (Z.of_nat i mod 256)%Z.

Definition mask_astype_uint8 (a : squeezed_mask nat) : squeezed_mask Z :=
  match a with
  | Mask2 rows => Mask2 (map (map astype_uint8) rows)
  | Mask1 entries => Mask1 (map astype_uint8 entries)
  | Mask0 entry => Mask0 (astype_uint8 entry)
  end.

(** [np.squeeze(np.argmax(res, axis=1)).astype(np.uint8)]. *)
Definition result_mask (planes : list (list (list score)))
  : result (squeezed_mask Z) :=
  classes <- argmax_classes planes ;;
  Ok (mask_astype_uint8 (squeeze_mask classes)).

(** The value [normalize] gives channel [c] of a pixel for the byte [v]:
    [(v / 255 - mean[c]) / std[c]]. *)
Definition normalized (c : nat) (v : Z) : Q :=
  ((inject_Z v / 255 - nth c mean 0) / nth c std 1)%Q.

(* ================================================================== *)
(** * Proofs *)

Ltac qlra := Lqa.lra.
Ltac rlra := Lra.lra.

(** ** The model on small inputs *)

Example top_k_of_four :
  get_top_k_logits [Fin 3; Fin 1; Fin 4; Fin 2] 2
  = Ok [Fin 3; NegInf; Fin 4; NegInf].
Proof. reflexivity. Qed.

Example top_k_clamped_from_below :
  get_top_k_logits [Fin 3; Fin 1; Fin 4; Fin 2] (-5)
  = Ok [NegInf; NegInf; Fin 4; NegInf].
Proof. reflexivity. Qed.

(** An empty row has no minimum: [np.min] raises. *)
Example top_k_of_empty_row : get_top_k_logits [] 3 = Raise ValueError.
Proof. reflexivity. Qed.

(** A NaN among the [k] highest makes the threshold NaN, and nothing is
    below NaN. *)
Example top_k_with_nan :
  get_top_k_logits [Fin 3; NaN; Fin 1] 3 = Ok [Fin 3; NaN; Fin 1].
Proof. reflexivity. Qed.

(** The empty row has no maximum, and minus infinity minus itself is NaN. *)
Example softmax_of_empty_row : softmax [] = Raise ValueError.
Proof. reflexivity. Qed.

Example softmax_of_minus_infinity : softmax [NegInf] = Ok [XNaN].
Proof. reflexivity. Qed.

Example argmax_tie_goes_to_lowest_index :
  np_argmax [Fin 1; Fin 7; Fin 7; Fin 2] = Ok 1.
Proof. reflexivity. Qed.

Example groupby_runs :
  groupby [0; 0; 2; 2; 3; 0; 3]
  = [(0, [0; 0]); (2, [2; 2]); (3, [3]); (0, [0]); (3, [3])].
Proof. reflexivity. Qed.

Example decode_bcc :
  decode "~"%char bcc_matrix abc_charlist = Ok ["B"; "C"; "C"]%char.
Proof. reflexivity. Qed.

(** One frame does not survive [np.squeeze] as a matrix, and no frame at
    all leaves [np.transpose] without an axis to swap. *)
Example decode_single_frame :
  decode "~"%char [[Fin 0; Fin 1; Fin 0; Fin 0]] abc_charlist
  = Raise AxisError.
Proof. reflexivity. Qed.

Example decode_no_frame : decode "~"%char [] abc_charlist = Raise ValueError.
Proof. reflexivity. Qed.

(** A label beyond the letters: IndexError. *)
Example decode_short_charlist :
  decode "~"%char [[Fin 0; Fin 0; Fin 1]; [Fin 1; Fin 0; Fin 0]] ["A"%char]
  = Raise IndexError.
Proof. reflexivity. Qed.

(** An empty prompt under dynamic shapes: the engine answers with no row
    and [outputs[:, -1, :]] raises. *)
Example generate_from_empty_prompt :
  fst (generate_sequence (constant_model [Fin 0; Fin 1]) half_draws
                         0 50256 true 1 [] [])
  = Raised IndexError.
Proof. reflexivity. Qed.

(** ** The order on scores *)

Lemma Qlt_bool_iff (x y : Q) : Qlt_bool x y = true <-> (x < y)%Q.
Proof.
  unfold Qlt_bool.
  rewrite negb_true_iff, <- not_true_iff_false, Qle_bool_iff.
  split; intro; qlra.
Qed.

Ltac qbool :=
  repeat match goal with
  | H : Qlt_bool _ _ = true |- _ => apply Qlt_bool_iff in H
  | H : Qle_bool _ _ = true |- _ => apply Qle_bool_iff in H
  | H : Qlt_bool _ _ = false |- _ =>
      apply not_true_iff_false in H; rewrite Qlt_bool_iff in H
  | H : Qle_bool _ _ = false |- _ =>
      apply not_true_iff_false in H; rewrite Qle_bool_iff in H
  | |- Qlt_bool _ _ = true => apply Qlt_bool_iff
  | |- Qle_bool _ _ = true => apply Qle_bool_iff
  | |- Qlt_bool _ _ = false =>
      apply not_true_iff_false; rewrite Qlt_bool_iff
  | |- Qle_bool _ _ = false =>
      apply not_true_iff_false; rewrite Qle_bool_iff
  end.

(** Case analysis on scores followed by linear arithmetic on the
    rationals. *)
Ltac score_order :=
  intros;
  cbn [slt sle sneg ssub smin smax sort_leb better not_nan below_inf] in *;
  try tauto; try discriminate; try reflexivity;
  qbool; try tauto; try qlra.

Lemma sneg_involutive (a : score) : sneg (sneg a) = a.
Proof.
  destruct a as [| |[n d]|]; simpl; try reflexivity.
  unfold Qopp; simpl. now rewrite Z.opp_involutive.
Qed.

Lemma sneg_not_nan (a : score) : not_nan a -> not_nan (sneg a).
Proof. destruct a; simpl; auto. Qed.

Lemma sle_refl (a : score) : not_nan a -> sle a a = true.
Proof. destruct a; score_order. Qed.

Lemma sle_trans (a b c : score) :
  sle a b = true -> sle b c = true -> sle a c = true.
Proof. destruct a, b, c; score_order. Qed.

Lemma sle_slt_trans (a b c : score) :
  sle a b = true -> slt b c = true -> slt a c = true.
Proof. destruct a, b, c; score_order. Qed.

Lemma slt_sle (a b : score) : slt a b = true -> sle a b = true.
Proof. destruct a, b; score_order. Qed.

Lemma slt_false_sle (a b : score) :
  not_nan a -> not_nan b -> slt a b = false -> sle b a = true.
Proof. destruct a, b; score_order. Qed.

Lemma sle_slt_false (a b : score) : sle a b = true -> slt b a = false.
Proof. destruct a, b; score_order. Qed.

Lemma slt_sle_false (a b : score) : slt a b = true -> sle b a = false.
Proof. destruct a, b; score_order. Qed.

Lemma slt_irrefl (a : score) : slt a a = false.
Proof. destruct a; score_order. Qed.

Lemma sle_sneg (a b : score) : sle (sneg a) (sneg b) = sle b a.
Proof.
  destruct a, b; cbn [sle sneg]; try reflexivity.
  destruct (Qle_bool q0 q) eqn:E; score_order.
Qed.

(** ** Sorting *)

Lemma sort_leb_total (a b : score) :
  sort_leb a b = false -> sort_leb b a = true.
Proof. destruct a, b; score_order. Qed.

Lemma sort_leb_trans (a b c : score) :
  sort_leb a b = true -> sort_leb b c = true -> sort_leb a c = true.
Proof. destruct a, b, c; score_order. Qed.

Lemma sort_leb_sle (a b : score) :
  not_nan a -> not_nan b -> sort_leb a b = sle a b.
Proof. destruct a, b; score_order. Qed.

Lemma sort_insert_perm (x : score) (l : list score) :
  Permutation (x :: l) (sort_insert x l).
Proof.
  induction l as [|y t IH]; simpl.
  - apply Permutation_refl.
  - destruct (sort_leb x y).
    + apply Permutation_refl.
    + eapply perm_trans; [apply perm_swap|].
      now apply perm_skip.
Qed.

Lemma np_sort_perm (l : list score) : Permutation l (np_sort l).
Proof.
  induction l as [|x t IH]; simpl.
  - constructor.
  - eapply perm_trans; [|apply sort_insert_perm].
    now apply perm_skip.
Qed.

Lemma sort_insert_sorted (x : score) (l : list score) :
  StronglySorted (fun a b => sort_leb a b = true) l ->
  StronglySorted (fun a b => sort_leb a b = true) (sort_insert x l).
Proof.
  induction l as [|y t IH]; simpl; intros Hs.
  - repeat constructor.
  - inversion Hs as [|? ? Ht Hy]; subst.
    destruct (sort_leb x y) eqn:E.
    + constructor; [assumption|].
      constructor; [assumption|].
      eapply Forall_impl; [|exact Hy].
      intros z Hz. eapply sort_leb_trans; eassumption.
    + constructor; [now apply IH|].
      apply Forall_forall. intros z Hz.
      apply (Permutation_in _ (Permutation_sym (sort_insert_perm x t))) in Hz.
      destruct Hz as [<-|Hz].
      * now apply sort_leb_total.
      * rewrite Forall_forall in Hy. now apply Hy.
Qed.

Lemma np_sort_sorted (l : list score) :
  StronglySorted (fun a b => sort_leb a b = true) (np_sort l).
Proof.
  induction l as [|x t IH]; simpl.
  - constructor.
  - now apply sort_insert_sorted.
Qed.

Lemma descending_perm (scores : list score) :
  Permutation scores (descending scores).
Proof.
  unfold descending.
  rewrite <- (map_id scores) at 1.
  rewrite (map_ext (fun s : score => s) (fun s => sneg (sneg s)))
    by (intro; symmetry; apply sneg_involutive).
  rewrite <- map_map.
  apply Permutation_map, np_sort_perm.
Qed.

Lemma StronglySorted_map {A B : Type} (f : A -> B) (R : B -> B -> Prop)
    (l : list A) :
  StronglySorted (fun a b => R (f a) (f b)) l -> StronglySorted R (map f l).
Proof.
  induction 1 as [|x t Ht IH Hx]; simpl; constructor; auto.
  apply Forall_map. exact Hx.
Qed.

Lemma StronglySorted_weaken {A : Type} (R R' : A -> A -> Prop) (P : A -> Prop)
    (l : list A) :
  (forall a b, P a -> P b -> R a b -> R' a b) ->
  Forall P l -> StronglySorted R l -> StronglySorted R' l.
Proof.
  intros HR HP Hs. induction Hs as [|x t Ht IH Hx]; constructor.
  - apply IH. now inversion HP.
  - inversion HP as [|? ? Px Pt]; subst.
    rewrite Forall_forall in *. intros y Hy. apply HR; auto.
Qed.

Lemma Forall_perm {A : Type} (P : A -> Prop) (l l' : list A) :
  Permutation l l' -> Forall P l -> Forall P l'.
Proof.
  intros Hp Hl. rewrite Forall_forall in *.
  intros x Hx. apply Hl. eapply Permutation_in; [|exact Hx].
  now apply Permutation_sym.
Qed.

Lemma descending_sorted (scores : list score) :
  Forall not_nan scores ->
  StronglySorted (fun a b => sle b a = true) (descending scores).
Proof.
  intros Hn. unfold descending.
  apply StronglySorted_map.
  eapply StronglySorted_weaken with (P := not_nan);
    [| |apply np_sort_sorted].
  - intros a b Ha Hb H. cbv beta in *.
    rewrite sort_leb_sle in H by assumption.
    now rewrite sle_sneg.
  - eapply Forall_perm; [apply np_sort_perm|].
    apply Forall_map. eapply Forall_impl; [|exact Hn].
    intros a. apply sneg_not_nan.
Qed.

Lemma StronglySorted_app_inv {A : Type} (R : A -> A -> Prop) (l1 l2 : list A) :
  StronglySorted R (l1 ++ l2) ->
  forall x y, In x l1 -> In y l2 -> R x y.
Proof.
  induction l1 as [|a t IH]; simpl; intros Hs x y Hx Hy; [contradiction|].
  inversion Hs as [|? ? Ht Ha]; subst.
  destruct Hx as [<-|Hx].
  - rewrite Forall_forall in Ha. apply Ha, in_or_app. now right.
  - now apply IH.
Qed.

(** ** Minimum, counting and masking *)

Ltac split_if :=
  repeat match goal with
  | |- context [if ?c then _ else _] => destruct c eqn:?
  end.

Lemma slt_smin_l (y z a : score) :
  slt y z = false -> slt y (smin z a) = false.
Proof.
  destruct y, z, a; cbn [smin slt]; try reflexivity; try discriminate;
    intros H; split_if; score_order.
Qed.

Lemma slt_smin_r (y z a : score) :
  slt y a = false -> slt y (smin z a) = false.
Proof.
  destruct y, z, a; cbn [smin slt]; try reflexivity; try discriminate;
    intros H; split_if; score_order.
Qed.

Lemma fold_smin_below (t : list score) (z y : score) :
  slt y z = false -> slt y (fold_left smin t z) = false.
Proof.
  revert z. induction t as [|a t IH]; simpl; intros z H; [assumption|].
  apply IH. now apply slt_smin_l.
Qed.

(** No entry is strictly below the minimum (also when the minimum is NaN). *)
Lemma np_min_not_above (l : list score) (m : score) :
  np_min l = Ok m -> forall y, In y l -> slt y m = false.
Proof.
  destruct l as [|x t]; simpl; [discriminate|].
  intros [= <-]. revert x.
  induction t as [|a t IH]; simpl; intros x y Hy.
  - destruct Hy as [<-|[]]. apply slt_irrefl.
  - destruct Hy as [<-|[<-|Hy]].
    + apply fold_smin_below, slt_smin_l, slt_irrefl.
    + apply fold_smin_below, slt_smin_r, slt_irrefl.
    + apply IH. now right.
Qed.

Lemma smin_cases (x a : score) :
  not_nan x -> not_nan a -> smin x a = x \/ smin x a = a.
Proof.
  destruct x, a; cbn [smin slt]; try tauto;
    try (destruct (Qlt_bool _ _)); tauto.
Qed.

Lemma np_min_in (l : list score) (m : score) :
  Forall not_nan l -> np_min l = Ok m -> In m l.
Proof.
  destruct l as [|x t]; simpl; [discriminate|].
  intros Hn [= <-]. revert x Hn.
  induction t as [|a t IH]; simpl; intros x Hn; [now left|].
  inversion Hn as [|? ? Hx Ht]; subst.
  inversion Ht as [|? ? Ha Ht']; subst.
  destruct (smin_cases x a Hx Ha) as [E|E]; rewrite E.
  - destruct (IH x) as [H|H]; auto.
  - destruct (IH a) as [H|H]; auto.
Qed.

Lemma count_app (f : score -> bool) (l1 l2 : list score) :
  count f (l1 ++ l2) = count f l1 + count f l2.
Proof. unfold count. now rewrite filter_app, length_app. Qed.

Lemma count_perm (f : score -> bool) (l l' : list score) :
  Permutation l l' -> count f l = count f l'.
Proof.
  unfold count. induction 1; simpl;
    repeat match goal with |- context [if f ?x then _ else _] =>
      destruct (f x) end; simpl; congruence.
Qed.

Lemma count_none (f : score -> bool) (l : list score) :
  (forall x, In x l -> f x = false) -> count f l = 0.
Proof.
  unfold count. induction l as [|x t IH]; simpl; intros H; [reflexivity|].
  rewrite (H x) by now left. apply IH. intros; apply H; now right.
Qed.

Lemma count_all (f : score -> bool) (l : list score) :
  (forall x, In x l -> f x = true) -> count f l = length l.
Proof.
  unfold count. induction l as [|x t IH]; simpl; intros H; [reflexivity|].
  rewrite (H x) by now left. simpl. f_equal. apply IH.
  intros; apply H; now right.
Qed.

Lemma count_lt_length (f : score -> bool) (l : list score) (m : score) :
  In m l -> f m = false -> count f l < length l.
Proof.
  unfold count.
  induction l as [|x t IH]; simpl; intros Hin Hm; [contradiction|].
  destruct Hin as [->|Hin].
  - rewrite Hm. pose proof (filter_length_le f t). lia.
  - specialize (IH Hin Hm). destruct (f x); simpl; lia.
Qed.

Lemma np_filled_map (f : score -> bool) (v : score) (l : list score) :
  np_filled l (map f l) v = map (fun s => if f s then v else s) l.
Proof. induction l as [|x t IH]; simpl; [reflexivity|]. now rewrite IH. Qed.

Lemma py_slice_to_firstn {A : Type} (l : list A) (k : Z) :
  (0 <= k)%Z -> py_slice_to l k = firstn (Z.to_nat k) l.
Proof.
  intros Hk. unfold py_slice_to.
  destruct (k <? 0)%Z eqn:E; [apply Z.ltb_lt in E; lia|reflexivity].
Qed.

(** ** Top-k filtering *)

(** The threshold of the filter: the minimum of the [k] first scores in
    descending order is the [k]-th highest score. *)
Lemma top_k_threshold (scores : list score) (k : nat) (m : score) :
  Forall not_nan scores ->
  1 <= k <= length scores ->
  np_min (firstn k (descending scores)) = Ok m ->
  kth_highest scores k m.
Proof.
  intros Hn Hk Hm.
  pose proof (descending_perm scores) as Hp.
  pose proof (descending_sorted Hn) as Hs.
  assert (Hnd : Forall not_nan (descending scores))
    by (eapply Forall_perm; eassumption).
  rewrite <- (firstn_skipn k (descending scores)) in Hs, Hnd.
  apply Forall_app in Hnd. destruct Hnd as [HnP HnR].
  set (P := firstn k (descending scores)) in *.
  set (Rest := skipn k (descending scores)) in *.
  assert (HlenP : length P = k).
  { unfold P. rewrite length_firstn.
    rewrite <- (Permutation_length Hp). lia. }
  assert (HmP : In m P) by now apply np_min_in.
  assert (Hmn : not_nan m) by (rewrite Forall_forall in HnP; auto).
  assert (HleP : forall y, In y P -> sle m y = true).
  { intros y Hy. apply slt_false_sle; auto.
    - rewrite Forall_forall in HnP; auto.
    - eapply np_min_not_above; eassumption. }
  assert (HleR : forall y, In y Rest -> sle y m = true).
  { intros y Hy. exact (StronglySorted_app_inv _ _ Hs m y HmP Hy). }
  unfold kth_highest.
  rewrite !(count_perm _ Hp).
  rewrite <- (firstn_skipn k (descending scores)).
  fold P Rest. rewrite !count_app.
  split; [|split].
  - apply (Permutation_in _ (Permutation_sym Hp)).
    rewrite <- (firstn_skipn k (descending scores)).
    apply in_or_app. now left.
  - rewrite (count_none (slt m) Rest)
      by (intros; apply sle_slt_false; auto).
    pose proof (count_lt_length (slt m) P m HmP (slt_irrefl m)). lia.
  - rewrite (count_all (sle m) P) by assumption. lia.
Qed.

Lemma get_top_k_logits_unfold (scores : list score) (top_k : Z) :
  get_top_k_logits scores top_k =
  (m <- np_min (firstn (Z.to_nat (Z.min (Z.max top_k 1)
                                        (Z.of_nat (length scores))))
                       (descending scores)) ;;
   Ok (map (fun s => if slt s m then NegInf else s) scores)).
Proof.
  unfold get_top_k_logits, descending.
  rewrite py_slice_to_firstn by lia.
  destruct (np_min _) as [m|e]; simpl; [|reflexivity].
  now rewrite np_filled_map.
Qed.

Lemma np_min_nonempty (l : list score) :
  l <> [] -> exists m, np_min l = Ok m.
Proof. destruct l; [congruence|]. simpl. eauto. Qed.

Lemma firstn_nonempty {A : Type} (k : nat) (l : list A) :
  1 <= k -> l <> [] -> firstn k l <> [].
Proof. destruct k, l; simpl; try lia; congruence. Qed.

Lemma descending_nonempty (scores : list score) :
  scores <> [] -> descending scores <> [].
Proof.
  intros H E. apply H.
  apply Permutation_nil. rewrite <- E.
  apply Permutation_sym, descending_perm.
Qed.

(** The filter on a non-empty row without NaN: with [k] the clamped [top_k],
    the threshold is the [k]-th highest score and exactly the entries at or
    above it are kept. *)
Lemma get_top_k_logits_threshold (scores : list score) (top_k : Z) :
  scores <> [] ->
  Forall not_nan scores ->
  exists kth : score,
    kth_highest scores
      (Z.to_nat (Z.min (Z.max top_k 1) (Z.of_nat (length scores)))) kth /\
    get_top_k_logits scores top_k =
      Ok (map (fun s => if sle kth s then s else NegInf) scores).
Proof.
  intros Hne Hn.
  assert (Hlen : 1 <= length scores)
    by (destruct scores; [congruence|simpl; lia]).
  set (k := Z.to_nat (Z.min (Z.max top_k 1) (Z.of_nat (length scores)))).
  assert (Hk : 1 <= k <= length scores) by (unfold k; lia).
  destruct (@np_min_nonempty (firstn k (descending scores))) as [m Hm].
  { apply firstn_nonempty; [lia|now apply descending_nonempty]. }
  pose proof (top_k_threshold Hn Hk Hm) as Hkth.
  exists m. split; [assumption|].
  rewrite get_top_k_logits_unfold. fold k. rewrite Hm. simpl. f_equal.
  apply map_ext_in. intros s Hs.
  assert (Hsn : not_nan s) by (rewrite Forall_forall in Hn; auto).
  assert (Hmn : not_nan m).
  { destruct Hkth as [Hin _]. rewrite Forall_forall in Hn; auto. }
  destruct (slt s m) eqn:E.
  - now rewrite (slt_sle_false _ _ E).
  - now rewrite (slt_false_sle _ _ Hsn Hmn E).
Qed.

(** C3.  Top-k filtering clamps [top_k] to [[1, vocab_size]] and keeps
    exactly the entries that are at least the k-th highest score, writing
    minus infinity over all others.  Entries tied with the k-th highest
    score all stay, so at least [k] entries survive and more than [k] may:
    with [top_k = 1] the two entries 3 of [[3, 1, 3, 2]] both stay. *)
Theorem top_k_keeps_all_at_threshold :
  (forall (scores : list score) (top_k : Z),
      scores <> [] ->
      Forall not_nan scores ->
      exists k : nat,
        1 <= k <= length scores /\
        ((1 <= top_k <= Z.of_nat (length scores))%Z -> Z.of_nat k = top_k) /\
        ((top_k < 1)%Z -> k = 1) /\
        ((Z.of_nat (length scores) < top_k)%Z -> k = length scores) /\
        exists kth : score,
          kth_highest scores k kth /\
          get_top_k_logits scores top_k =
            Ok (map (fun s => if sle kth s then s else NegInf) scores) /\
          k <= count (sle kth) scores) /\
  get_top_k_logits [Fin 3; Fin 1; Fin 3; Fin 2] 1 =
    Ok [Fin 3; NegInf; Fin 3; NegInf].
Proof.
  split; [|reflexivity].
  intros scores top_k Hne Hn.
  assert (Hlen : 1 <= length scores)
    by (destruct scores; [congruence|simpl; lia]).
  destruct (get_top_k_logits_threshold top_k Hne Hn) as (kth & Hkth & Heq).
  exists (Z.to_nat (Z.min (Z.max top_k 1) (Z.of_nat (length scores)))).
  repeat split; try lia.
  exists kth. split; [assumption|]. split; [assumption|apply Hkth].
Qed.

Lemma top_k_keeps_all_at_threshold_witness :
  exists k : nat,
    1 <= k <= 4 /\
    exists kth : score,
      kth_highest [Fin 3; Fin 1; Fin 3; Fin 2] k kth /\
      get_top_k_logits [Fin 3; Fin 1; Fin 3; Fin 2] 1 =
        Ok (map (fun s => if sle kth s then s else NegInf)
                [Fin 3; Fin 1; Fin 3; Fin 2]).
Proof.
  destruct (proj1 top_k_keeps_all_at_threshold
              [Fin 3; Fin 1; Fin 3; Fin 2] 1%Z) as (k & Hk & _ & _ & _ & H).
  - discriminate.
  - repeat constructor.
  - exists k. split; [exact Hk|].
    destruct H as (kth & H1 & H2 & _). exists kth. now split.
Defined.

(** C7.  With [top_k] at least the vocabulary size the filter changes
    nothing: the scores come back entry by entry (whatever they are, NaN
    included), as long as there is at least one. *)
Theorem top_k_at_least_vocab_is_identity (scores : list score) (top_k : Z) :
  scores <> [] ->
  (Z.of_nat (length scores) <= top_k)%Z ->
  get_top_k_logits scores top_k = Ok scores.
Proof.
  intros Hne Hk.
  assert (Hlen : 1 <= length scores)
    by (destruct scores; [congruence|simpl; lia]).
  rewrite get_top_k_logits_unfold.
  replace (Z.to_nat _) with (length (descending scores)).
  2:{ rewrite <- (Permutation_length (descending_perm scores)). lia. }
  rewrite firstn_all.
  destruct (np_min_nonempty (descending_nonempty Hne)) as [m Hm].
  rewrite Hm. simpl. f_equal.
  rewrite <- (map_id scores) at 2.
  apply map_ext_in. intros s Hs.
  rewrite (np_min_not_above _ Hm); [reflexivity|].
  eapply Permutation_in; [apply descending_perm|exact Hs].
Qed.

Lemma top_k_at_least_vocab_is_identity_witness :
  get_top_k_logits [Fin 3; Fin 1; Fin 3; Fin 2] 7 =
    Ok [Fin 3; Fin 1; Fin 3; Fin 2].
Proof.
  apply (@top_k_at_least_vocab_is_identity [Fin 3; Fin 1; Fin 3; Fin 2] 7%Z).
  - discriminate.
  - simpl. lia.
Defined.

(** ** Softmax *)

Lemma smax_below_inf (x a : score) :
  below_inf x -> below_inf a ->
  below_inf (smax x a) /\
  ((exists q, x = Fin q) \/ (exists q, a = Fin q) ->
   exists q, smax x a = Fin q).
Proof.
  destruct x, a; cbn [smax slt below_inf]; try tauto; intros _ _;
    split_if; (split; [exact I|]); eauto;
    intros [[q' H]|[q' H]]; discriminate.
Qed.

Lemma fold_smax_fin (t : list score) (x : score) :
  Forall below_inf (x :: t) ->
  (exists q, In (Fin q) (x :: t)) ->
  exists m, fold_left smax t x = Fin m.
Proof.
  revert x. induction t as [|a t IH]; intros x Hb [q Hq].
  - destruct Hq as [->|[]]. simpl. eauto.
  - inversion Hb as [|? ? Hx Ht]; subst.
    inversion Ht as [|? ? Ha Ht']; subst.
    destruct (smax_below_inf x a Hx Ha) as [Hs Hfin].
    simpl. apply IH; [now constructor|].
    destruct Hq as [->|[->|Hq]].
    + destruct Hfin as [q' E]; [left; eauto|]. exists q'. left. auto.
    + destruct Hfin as [q' E]; [right; eauto|]. exists q'. left. auto.
    + exists q. now right.
Qed.

Lemma np_exp_weight (m : Q) (s : score) :
  below_inf s -> np_exp (ssub s (Fin m)) = XFin (weight m s).
Proof. destruct s; simpl; tauto. Qed.

Lemma np_sum_finite (rs : list R) :
  np_sum (map XFin rs) = XFin (Rsum rs).
Proof.
  unfold np_sum.
  assert (H : forall a, fold_left xadd (map XFin rs) (XFin a)
                        = XFin (a + Rsum rs)).
  { induction rs as [|r t IH]; simpl; intros a.
    - f_equal. rlra.
    - rewrite IH. f_equal. rlra. }
  rewrite H. f_equal. rlra.
Qed.

Lemma weight_nonneg (m : Q) (s : score) : (0 <= weight m s)%R.
Proof.
  destruct s; simpl; try rlra.
  left. apply exp_pos.
Qed.

Lemma Rsum_nonneg (l : list R) :
  Forall (fun r => 0 <= r)%R l -> (0 <= Rsum l)%R.
Proof.
  induction 1 as [|r t Hr Ht IH]; simpl; rlra.
Qed.

Lemma Rsum_weights_pos (m : Q) (x : list score) :
  (exists q, In (Fin q) x) -> (0 < Rsum (map (weight m) x))%R.
Proof.
  intros [q Hq]. induction x as [|s t IH]; [contradiction|].
  simpl.
  assert (Ht : (0 <= Rsum (map (weight m) t))%R).
  { apply Rsum_nonneg, Forall_map, Forall_forall.
    intros; apply weight_nonneg. }
  destruct Hq as [->|Hq].
  - simpl. pose proof (exp_pos (Q2R (q - m))). rlra.
  - specialize (IH Hq). pose proof (weight_nonneg m s). rlra.
Qed.

Lemma Rsum_scale (c : R) (l : list R) :
  Rsum (map (fun w => w / c)%R l) = (Rsum l / c)%R.
Proof.
  induction l as [|r t IH]; simpl.
  - unfold Rdiv. now rewrite Rmult_0_l.
  - rewrite IH. unfold Rdiv. now rewrite Rmult_plus_distr_r.
Qed.

(** Softmax on a row of real scores and minus infinities with at least one
    real score: the weights divided by their (positive) sum. *)
Lemma softmax_weights (x : list score) :
  Forall below_inf x ->
  (exists q, In (Fin q) x) ->
  exists m : Q,
    np_max x = Ok (Fin m) /\
    (0 < Rsum (map (weight m) x))%R /\
    softmax x =
      Ok (map XFin (map (fun w => w / Rsum (map (weight m) x))%R
                        (map (weight m) x))).
Proof.
  intros Hb Hq.
  assert (Hm : exists m, np_max x = Ok (Fin m)).
  { destruct x as [|s t]; [destruct Hq as [? []]|].
    destruct (fold_smax_fin Hb Hq) as [m E]. exists m. simpl. now rewrite E. }
  destruct Hm as [m Hm]. exists m.
  pose proof (@Rsum_weights_pos m x Hq) as Hpos.
  repeat split; try assumption.
  unfold softmax. rewrite Hm. simpl. f_equal.
  rewrite (map_ext_in _ (fun s => XFin (weight m s))).
  2:{ intros s Hs. apply np_exp_weight. rewrite Forall_forall in Hb; auto. }
  rewrite <- (map_map (weight m) XFin).
  rewrite np_sum_finite. rewrite !map_map.
  apply map_ext. intros s. simpl.
  destruct (Req_dec_T _ _) as [E|_]; [rlra|reflexivity].
Qed.

(** The probabilities softmax returns on such a row. *)
Lemma softmax_probabilities (x : list score) :
  Forall below_inf x ->
  (exists q, In (Fin q) x) ->
  exists m ps,
    np_max x = Ok (Fin m) /\
    ps = map (fun s => weight m s / Rsum (map (weight m) x))%R x /\
    (0 < Rsum (map (weight m) x))%R /\
    softmax x = Ok (map XFin ps) /\
    Forall (fun p => 0 <= p)%R ps /\
    Rsum ps = 1%R.
Proof.
  intros Hb Hq.
  destruct (softmax_weights Hb Hq) as (m & Hm & Hpos & Hs).
  exists m, (map (fun s => weight m s / Rsum (map (weight m) x))%R x).
  split; [assumption|]. split; [reflexivity|]. split; [assumption|].
  split; [|split].
  - rewrite Hs. now rewrite (map_map (weight m)).
  - apply Forall_map, Forall_forall. intros s _.
    pose proof (weight_nonneg m s).
    apply Rmult_le_pos; [assumption|].
    left. now apply Rinv_0_lt_compat.
  - rewrite <- (map_map (weight m) (fun w => w / _)%R).
    rewrite Rsum_scale. unfold Rdiv. apply Rinv_r. rlra.
Qed.

(** C8.  On a row that holds at least one real score and otherwise real
    scores or minus infinity, softmax (with the row maximum subtracted
    before exponentiating) returns real numbers that are all non-negative
    and sum to 1. *)
Theorem softmax_is_distribution (x : list score) :
  Forall below_inf x ->
  (exists q, In (Fin q) x) ->
  exists m ps,
    np_max x = Ok (Fin m) /\
    ps = map (fun s => weight m s / Rsum (map (weight m) x))%R x /\
    softmax x = Ok (map XFin ps) /\
    Forall (fun p => 0 <= p)%R ps /\
    Rsum ps = 1%R.
Proof.
  intros Hb Hq.
  destruct (softmax_probabilities Hb Hq) as (m & ps & H1 & H2 & _ & H3).
  exists m, ps. auto.
Qed.

Lemma softmax_is_distribution_witness :
  exists ps,
    softmax [Fin 1; NegInf; Fin 2] = Ok (map XFin ps) /\
    Forall (fun p => 0 <= p)%R ps /\
    Rsum ps = 1%R.
Proof.
  destruct (@softmax_is_distribution [Fin 1; NegInf; Fin 2])
    as (m & ps & _ & _ & H).
  - repeat constructor.
  - exists 1%Q. now left.
  - exists ps. exact H.
Defined.

(** ** Drawing from a distribution *)

Lemma finite_values_map (ps : list R) : finite_values (map XFin ps) = Some ps.
Proof. induction ps as [|p t IH]; simpl; [reflexivity|]. now rewrite IH. Qed.

Lemma Rany_negative_false (ps : list R) :
  Forall (fun p => 0 <= p)%R ps -> Rany_negative ps = false.
Proof.
  unfold Rany_negative. induction 1 as [|p t Hp Ht IH]; simpl; [reflexivity|].
  rewrite IH. destruct (Rlt_dec p 0); [rlra|reflexivity].
Qed.

Lemma last_cumsum_from (ps : list R) (acc d : R) :
  ps <> [] -> last (cumsum_from acc ps) d = (acc + Rsum ps)%R.
Proof.
  revert acc. induction ps as [|p t IH]; intros acc Hne; [congruence|].
  destruct t as [|p' t'].
  - simpl. rlra.
  - change (cumsum_from acc (p :: p' :: t'))
      with ((acc + p)%R :: cumsum_from (acc + p) (p' :: t')).
    change (last ((acc + p)%R :: cumsum_from (acc + p) (p' :: t')) d)
      with (last (cumsum_from (acc + p) (p' :: t')) d).
    rewrite IH by discriminate. simpl. rlra.
Qed.

(** The inverted draw lands on an entry of positive probability. *)
Lemma searchsorted_cumsum (ps : list R) (acc u : R) :
  Forall (fun p => 0 <= p)%R ps ->
  (acc <= u < acc + Rsum ps)%R ->
  searchsorted_right (cumsum_from acc ps) u < length ps /\
  (0 < nth (searchsorted_right (cumsum_from acc ps) u) ps 0)%R.
Proof.
  intros Hp. revert acc.
  induction Hp as [|p t Hp0 Ht IH]; simpl; intros acc Hu; [rlra|].
  destruct (Rlt_dec u (acc + p)) as [Hlt|Hge].
  - split; [lia|rlra].
  - destruct (IH (acc + p)%R) as [H1 H2]; [rlra|].
    split; [lia|assumption].
Qed.

Lemma choice_atol_nonneg : (0 <= choice_atol)%R.
Proof. apply sqrt_pos. Qed.

(** On a probability vector [np.random.choice] inverts the draw through the
    cumulative sums. *)
Lemma np_random_choice_valid (ps : list R) (u : R) :
  ps <> [] ->
  Forall (fun p => 0 <= p)%R ps ->
  Rsum ps = 1%R ->
  np_random_choice (length (map XFin ps)) (map XFin ps) u =
    Ok (searchsorted_right (cumsum ps) u).
Proof.
  intros Hne Hp Hsum.
  unfold np_random_choice.
  rewrite length_map.
  destruct (length ps =? 0) eqn:E0.
  { apply Nat.eqb_eq in E0. destruct ps; [congruence|discriminate]. }
  rewrite Nat.eqb_refl. simpl.
  rewrite finite_values_map, (Rany_negative_false Hp).
  destruct (Rlt_dec _ _) as [Hbad|_].
  { exfalso. rewrite Hsum in Hbad.
    replace (1 - 1)%R with 0%R in Hbad by rlra.
    rewrite Rabs_R0 in Hbad. pose proof choice_atol_nonneg. rlra. }
  unfold cumsum. rewrite (last_cumsum_from 0 0 Hne), Hsum.
  rewrite (map_ext _ (fun c : R => c)) by (intros c; rlra).
  now rewrite map_id.
Qed.

(** It returns an index, and one whose probability is positive. *)
Lemma np_random_choice_support (ps : list R) (u : R) :
  ps <> [] ->
  Forall (fun p => 0 <= p)%R ps ->
  Rsum ps = 1%R ->
  (0 <= u < 1)%R ->
  exists i,
    np_random_choice (length (map XFin ps)) (map XFin ps) u = Ok i /\
    i < length ps /\ (0 < nth i ps 0)%R.
Proof.
  intros Hne Hp Hsum Hu.
  rewrite (np_random_choice_valid u Hne Hp Hsum).
  destruct (@searchsorted_cumsum ps 0%R u Hp) as [H1 H2]; [rlra|].
  eauto.
Qed.

(** ** Arg-max *)

Lemma better_slt (x best : score) :
  not_nan x -> not_nan best -> better x best = slt best x.
Proof. destruct x, best; simpl; tauto. Qed.

Lemma nth_error_snoc {A : Type} (pre : list A) (x w : A) (j : nat) :
  nth_error (pre ++ [x]) j = Some w ->
  (j < length pre /\ nth_error pre j = Some w) \/ (j = length pre /\ w = x).
Proof.
  intros H. destruct (Nat.lt_ge_cases j (length pre)) as [Hlt|Hge].
  - left. split; [assumption|]. now rewrite nth_error_app1 in H.
  - right. rewrite nth_error_app2 in H by assumption.
    destruct (j - length pre) as [|d] eqn:E; simpl in H.
    + split; [lia|congruence].
    + destruct d; discriminate.
Qed.

Lemma argmax_from_spec (l pre : list score) (b : score) (bi : nat) :
  Forall not_nan (pre ++ l) ->
  nth_error pre bi = Some b ->
  (forall j w, nth_error pre j = Some w -> sle w b = true) ->
  (forall j w, j < bi -> nth_error pre j = Some w -> slt w b = true) ->
  is_argmax (pre ++ l) (argmax_from bi b (length pre) l).
Proof.
  revert pre b bi.
  induction l as [|x t IH]; intros pre b bi Hn Hb Hle Hlt.
  - rewrite app_nil_r. simpl. exists b. auto.
  - assert (Hbi : bi < length pre) by (apply nth_error_Some; congruence).
    assert (Hnb : not_nan b).
    { rewrite Forall_forall in Hn. apply Hn, in_or_app. left.
      eapply nth_error_In; eassumption. }
    assert (Hnx : not_nan x).
    { rewrite Forall_forall in Hn. apply Hn, in_or_app. right. now left. }
    replace (pre ++ x :: t) with ((pre ++ [x]) ++ t) in *
      by (rewrite <- app_assoc; reflexivity).
    simpl. rewrite better_slt by assumption.
    replace (S (length pre)) with (length (pre ++ [x]))
      by (rewrite length_app; simpl; lia).
    destruct (slt b x) eqn:E; apply IH; try assumption.
    + rewrite nth_error_app2, Nat.sub_diag by lia. reflexivity.
    + intros j w Hj. apply nth_error_snoc in Hj.
      destruct Hj as [[_ Hj]|[_ ->]].
      * apply slt_sle. eapply sle_slt_trans; [|exact E]. eauto.
      * now apply sle_refl.
    + intros j w Hjl Hj. apply nth_error_snoc in Hj.
      destruct Hj as [[_ Hj]|[-> _]]; [|lia].
      eapply sle_slt_trans; [|exact E]. eauto.
    + rewrite nth_error_app1 by assumption. assumption.
    + intros j w Hj. apply nth_error_snoc in Hj.
      destruct Hj as [[_ Hj]|[_ ->]]; [eauto|].
      now apply slt_false_sle.
    + intros j w Hjl Hj. apply nth_error_snoc in Hj.
      destruct Hj as [[_ Hj]|[-> _]]; [eauto|lia].
Qed.

(** [np.argmax] returns the lowest index that holds the maximum. *)
Lemma np_argmax_spec (row : list score) :
  row <> [] ->
  Forall not_nan row ->
  exists i, np_argmax row = Ok i /\ is_argmax row i.
Proof.
  destruct row as [|x t]; [congruence|]. intros _ Hn.
  exists (argmax_from 0 x 1 t). split; [reflexivity|].
  apply (@argmax_from_spec t [x] x 0); try assumption; try reflexivity.
  - intros [|[|j]] w Hj; simpl in Hj; try discriminate.
    injection Hj as <-. apply sle_refl. now inversion Hn.
  - intros j w Hj. lia.
Qed.

Lemma is_argmax_unique (row : list score) (i i' : nat) :
  is_argmax row i -> is_argmax row i' -> i = i'.
Proof.
  intros (v & Hv & Hle & Hlt) (v' & Hv' & Hle' & Hlt').
  destruct (Nat.lt_trichotomy i i') as [H|[H|H]]; [|assumption|].
  - pose proof (Hlt' _ _ H Hv) as H1. pose proof (Hle _ _ Hv') as H2.
    rewrite (sle_slt_false _ _ H2) in H1. discriminate.
  - pose proof (Hlt _ _ H Hv') as H1. pose proof (Hle' _ _ Hv) as H2.
    rewrite (sle_slt_false _ _ H2) in H1. discriminate.
Qed.

Lemma is_argmax_lt (row : list score) (i : nat) :
  is_argmax row i -> i < length row.
Proof. intros (v & Hv & _). apply nth_error_Some. congruence. Qed.

Lemma is_real_not_nan (s : score) : is_real s -> not_nan s.
Proof. destruct s; simpl; tauto. Qed.

Lemma is_real_below_inf (s : score) : is_real s -> below_inf s.
Proof. destruct s; simpl; tauto. Qed.

(** ** One sampling step *)

(** On a non-empty row of real scores a sampling step returns a token, and
    one whose score is at or above the k-th highest. *)
Lemma sample_token_support (scores : list score) (top_k : Z) (u : R) :
  scores <> [] ->
  Forall is_real scores ->
  (0 <= u < 1)%R ->
  exists kth i s,
    kth_highest scores
      (Z.to_nat (Z.min (Z.max top_k 1) (Z.of_nat (length scores)))) kth /\
    sample_token scores top_k u = Ok i /\
    nth_error scores i = Some s /\
    sle kth s = true.
Proof.
  intros Hne Hreal Hu.
  assert (Hn : Forall not_nan scores)
    by (eapply Forall_impl; [apply is_real_not_nan|exact Hreal]).
  destruct (get_top_k_logits_threshold top_k Hne Hn) as (kth & Hkth & Hf).
  set (keep := fun s => if sle kth s then s else NegInf) in *.
  assert (Hb : Forall below_inf (map keep scores)).
  { apply Forall_map. eapply Forall_impl; [|exact Hreal].
    intros s Hs. unfold keep. destruct (sle kth s); [|exact I].
    now apply is_real_below_inf. }
  assert (Hq : exists q, In (Fin q) (map keep scores)).
  { destruct Hkth as (Hin & _).
    assert (Hr : is_real kth) by (rewrite Forall_forall in Hreal; auto).
    destruct kth as [| |q|]; try contradiction.
    exists q. apply in_map_iff. exists (Fin q). split; [|assumption].
    unfold keep. now rewrite sle_refl. }
  destruct (softmax_probabilities Hb Hq)
    as (m & ps & _ & Hps & Hpos & Hsm & Hnonneg & Hsum).
  assert (Hpne : ps <> []).
  { intros ->. simpl in Hsum. rlra. }
  destruct (@np_random_choice_support ps u Hpne Hnonneg Hsum Hu)
    as (i & Hi & Hlt & Hpi).
  assert (Hlen : length ps = length scores)
    by (rewrite Hps, !length_map; reflexivity).
  destruct (nth_error scores i) as [s|] eqn:Es.
  2:{ apply nth_error_None in Es. lia. }
  exists kth, i, s. split; [assumption|]. split; [|split; [exact Es|]].
  - unfold sample_token. rewrite Hf. simpl. rewrite Hsm. simpl. exact Hi.
  - rewrite Hps, map_map in Hpi.
    rewrite (nth_error_nth _ _ _ (map_nth_error _ _ _ Es)) in Hpi.
    unfold keep in Hpi at 1. destruct (sle kth s); [reflexivity|].
    simpl in Hpi. unfold Rdiv in Hpi. rewrite Rmult_0_l in Hpi. rlra.
Qed.

(** The two equal logits [[5, 5]] under [top_k = 1]: both survive the filter
    and each gets probability one half. *)
Lemma softmax_two_equal :
  softmax [Fin 5; Fin 5] = Ok (map XFin [(1 / 2)%R; (1 / 2)%R]).
Proof.
  destruct (@softmax_weights [Fin 5; Fin 5]) as (m & Hm & _ & Hs).
  - repeat constructor.
  - exists 5%Q. now left.
  - change (np_max [Fin 5; Fin 5]) with (Ok (Fin 5)) in Hm.
    injection Hm as <-.
    rewrite Hs. cbn [map weight Rsum].
    replace (exp (Q2R (5 - 5))) with 1%R.
    + do 3 f_equal; [|f_equal]; rlra.
    + replace (Q2R (5 - 5)) with 0%R by (rewrite Q2R_minus; rlra).
      symmetry. apply exp_0.
Qed.

Lemma sample_two_equal (u : R) :
  sample_token [Fin 5; Fin 5] 1 u =
    Ok (searchsorted_right (cumsum [(1 / 2)%R; (1 / 2)%R]) u).
Proof.
  unfold sample_token.
  change (get_top_k_logits [Fin 5; Fin 5] 1) with (Ok [Fin 5; Fin 5]).
  cbn [bind]. rewrite softmax_two_equal. cbn [bind].
  apply np_random_choice_valid.
  - discriminate.
  - repeat constructor; rlra.
  - simpl. rlra.
Qed.

(** C6, as stated, fails: with two equal top logits the filter for
    [top_k = 1] keeps both, and the drawn token follows the draw.  The
    arg-max is 0, the draw 1/4 gives token 0 and the draw 3/4 gives
    token 1. *)
Lemma top_k_1_sampling_follows_the_draw :
  process_logits 2 [Fin 5; Fin 5] 50256 0 = Ok [Fin 5; Fin 5] /\
  np_argmax [Fin 5; Fin 5] = Ok 0 /\
  sample_token [Fin 5; Fin 5] 1 (1 / 4)%R = Ok 0 /\
  sample_token [Fin 5; Fin 5] 1 (3 / 4)%R = Ok 1.
Proof.
  split; [reflexivity|]. split; [reflexivity|].
  rewrite !sample_two_equal. unfold cumsum.
  cbn [cumsum_from searchsorted_right].
  split.
  - destruct (Rlt_dec _ _); [reflexivity|rlra].
  - destruct (Rlt_dec _ _); [rlra|].
    destruct (Rlt_dec _ _); [reflexivity|rlra].
Qed.

(** C6, amended.  When the maximum of the (real-valued) logits is attained
    at exactly one index, sampling with [top_k = 1] returns that index for
    every draw, and it is the arg-max of the logits. *)
Theorem top_k_1_sampling_unique_max (scores : list score) (i0 : nat)
    (v : score) (u : R) :
  Forall is_real scores ->
  nth_error scores i0 = Some v ->
  (forall j w, j <> i0 -> nth_error scores j = Some w -> slt w v = true) ->
  (0 <= u < 1)%R ->
  sample_token scores 1 u = Ok i0 /\ np_argmax scores = Ok i0.
Proof.
  intros Hreal Hv Hmax Hu.
  assert (Hne : scores <> []) by (intros ->; destruct i0; discriminate).
  assert (Hn : Forall not_nan scores)
    by (eapply Forall_impl; [apply is_real_not_nan|exact Hreal]).
  assert (Hvn : not_nan v).
  { rewrite Forall_forall in Hn. eapply Hn, nth_error_In. eassumption. }
  split.
  - destruct (sample_token_support 1 Hne Hreal Hu)
      as (kth & i & s & Hkth & Hi & Hs & Hle).
    rewrite Hi. f_equal.
    destruct Hkth as (Hin & Hcnt & _).
    assert (Hk1 : Z.to_nat (Z.min (Z.max 1 1) (Z.of_nat (length scores))) = 1).
    { destruct scores; [congruence|]. simpl length. lia. }
    rewrite Hk1 in Hcnt.
    assert (Hnone : slt kth v = false).
    { destruct (slt kth v) eqn:E; [|reflexivity]. exfalso.
      unfold count in Hcnt.
      assert (Hf : In v (filter (slt kth) scores)).
      { apply filter_In. split; [|assumption].
        eapply nth_error_In; eassumption. }
      destruct (filter (slt kth) scores); [contradiction|simpl in Hcnt; lia]. }
    assert (Hkv : sle v kth = true).
    { apply slt_false_sle; try assumption.
      rewrite Forall_forall in Hn. auto. }
    destruct (Nat.eq_dec i i0) as [|Hneq]; [assumption|exfalso].
    pose proof (Hmax _ _ Hneq Hs) as Hsv.
    pose proof (sle_trans _ _ _ Hkv Hle) as Hvs.
    rewrite (sle_slt_false _ _ Hvs) in Hsv. discriminate.
  - destruct (np_argmax_spec Hne Hn) as (i & Hi & Harg).
    rewrite Hi. f_equal.
    apply (is_argmax_unique Harg).
    exists v. split; [assumption|]. split.
    + intros j w Hj. destruct (Nat.eq_dec j i0) as [->|Hneq].
      * rewrite Hv in Hj. injection Hj as <-. now apply sle_refl.
      * apply slt_sle. eauto.
    + intros j w Hlt Hj. apply (Hmax j); [lia|assumption].
Qed.

Lemma top_k_1_sampling_unique_max_witness :
  sample_token [Fin 1; Fin 5; Fin 2] 1 (3 / 4)%R = Ok 1 /\
  np_argmax [Fin 1; Fin 5; Fin 2] = Ok 1.
Proof.
  apply (@top_k_1_sampling_unique_max [Fin 1; Fin 5; Fin 2] 1 (Fin 5)).
  - repeat constructor.
  - reflexivity.
  - intros [|[|[|j]]] w Hj Hw; simpl in Hw; try congruence;
      try (destruct j; discriminate);
      injection Hw as <-; reflexivity.
  - rlra.
Defined.

(** ** The generation loop *)

Section GeneratorFacts.

Variable compiled_model : list Z -> list Z -> result (list (list score)).
Variable random_sample : nat -> R.
Variable max_sequence_length : Z.
Variable eos_token_id : Z.
Variable dynamic_shapes : bool.

Local Abbreviation head :=
  (started max_sequence_length eos_token_id dynamic_shapes).
Local Abbreviation body n ids mask :=
  (fst (loop_body compiled_model random_sample max_sequence_length
                  eos_token_id dynamic_shapes n ids mask)).
Local Abbreviation sampled n ids mask :=
  (fst (next_token compiled_model random_sample max_sequence_length
                   eos_token_id dynamic_shapes n ids mask)).
Local Abbreviation run :=
  (while_true compiled_model random_sample max_sequence_length
              eos_token_id dynamic_shapes).

(** The sampling part of the body calls the engine exactly once, whatever
    comes of it, on the model input of the loop state. *)
Lemma next_token_calls (n : nat) (ids mask : list Z) :
  snd (next_token compiled_model random_sample max_sequence_length
                  eos_token_id dynamic_shapes n ids mask)
  = [head ids mask].
Proof.
  unfold started, next_token, infer.
  destruct (model_input _ _ _ _ _) as [model_ids model_mask]. reflexivity.
Qed.

(** So does the whole body: the termination test calls nothing. *)
Lemma loop_body_calls (n : nat) (ids mask : list Z) :
  snd (loop_body compiled_model random_sample max_sequence_length
                 eos_token_id dynamic_shapes n ids mask)
  = [head ids mask].
Proof.
  unfold loop_body. rewrite <- (next_token_calls n ids mask).
  destruct (next_token _ _ _ _ _ _ _ _) as [r calls]. reflexivity.
Qed.

(** The loop body is the sampling of a token followed by the termination
    test. *)
Lemma loop_body_next_token (n : nat) (ids mask : list Z) :
  body n ids mask =
  (tok <- sampled n ids mask ;;
   if ((Z.of_nat (length ids) =? max_sequence_length)
       || (Z.of_nat tok =? eos_token_id))%Z
   then Ok Break
   else Ok (Continue (ids ++ [Z.of_nat tok]) (mask ++ [1%Z]))).
Proof.
  unfold loop_body.
  destruct (next_token _ _ _ _ _ _ _ _) as [r calls]. reflexivity.
Qed.

(** A step that goes on appended one sampled token, which is not the end
    marker, and one 1 to the mask; it was not at the length bound. *)
Lemma loop_body_continue (n : nat) (ids mask ids' mask' : list Z) :
  body n ids mask = Ok (Continue ids' mask') ->
  exists tok,
    sampled n ids mask = Ok tok /\
    ids' = ids ++ [Z.of_nat tok] /\
    mask' = mask ++ [1%Z] /\
    Z.of_nat tok <> eos_token_id /\
    Z.of_nat (length ids) <> max_sequence_length.
Proof.
  rewrite loop_body_next_token.
  destruct (sampled n ids mask) as [tok|e]; [|discriminate]. cbn [bind].
  destruct (Z.of_nat (length ids) =? max_sequence_length)%Z eqn:E1;
    [discriminate|].
  destruct (Z.of_nat tok =? eos_token_id)%Z eqn:E2; [discriminate|].
  cbn [orb]. intros [= <- <-].
  apply Z.eqb_neq in E1, E2. exists tok. auto.
Qed.

(** A step that stops either sampled the end marker or was at the length
    bound. *)
Lemma loop_body_break (n : nat) (ids mask : list Z) :
  body n ids mask = Ok Break ->
  exists tok,
    sampled n ids mask = Ok tok /\
    (Z.of_nat (length ids) = max_sequence_length \/
     Z.of_nat tok = eos_token_id).
Proof.
  rewrite loop_body_next_token.
  destruct (sampled n ids mask) as [tok|e]; [|discriminate]. cbn [bind].
  destruct (Z.of_nat (length ids) =? max_sequence_length)%Z eqn:E1.
  - apply Z.eqb_eq in E1. eauto.
  - destruct (Z.of_nat tok =? eos_token_id)%Z eqn:E2; [|discriminate].
    apply Z.eqb_eq in E2. eauto.
Qed.

Lemma run_unfold (fuel n : nat) (ids mask : list Z) :
  run (S fuel) n ids mask =
  match body n ids mask with
  | Raise e => (Raised e, [head ids mask])
  | Ok Break => (Returned ids, [head ids mask])
  | Ok (Continue ids' mask') =>
      let '(o, its) := run fuel (S n) ids' mask' in
      (o, head ids mask :: its)
  end.
Proof.
  cbn [while_true].
  pose proof (loop_body_calls n ids mask) as Hc.
  destruct (loop_body _ _ _ _ _ _ _ _) as [ctl calls].
  cbn [fst snd] in *. subst calls.
  destruct ctl as [[|ids' mask']|e]; reflexivity.
Qed.

Lemma head_state (ids mask : list Z) :
  at_input_ids (head ids mask) = ids /\
  at_attention_mask (head ids mask) = mask.
Proof.
  unfold started. destruct (model_input _ _ _ _ _). simpl. auto.
Qed.

(** The shape of every run, however it ends: the states at the head of
    the iterations are the initial state extended by the tokens appended
    so far and as many ones; each appended token is the one sampled at
    its step and is not the end marker. *)
Lemma run_trace (fuel : nat) :
  forall n ids mask o its,
    run fuel n ids mask = (o, its) ->
    exists toks,
      ~ In eos_token_id toks /\
      (forall i it, nth_error its i = Some it ->
         at_input_ids it = ids ++ firstn i toks /\
         at_attention_mask it = mask ++ repeat 1%Z i) /\
      (forall i tok, nth_error toks i = Some tok ->
         exists t,
           sampled (n + i) (ids ++ firstn i toks) (mask ++ repeat 1%Z i)
             = Ok t /\
           tok = Z.of_nat t) /\
      match o with
      | Returned r => r = ids ++ toks /\ length its = S (length toks)
      | Raised _ => length its = S (length toks)
      | OutOfFuel => length its = length toks
      end.
Proof.
  induction fuel as [|fuel IH]; intros n ids mask o its Hrun.
  - injection Hrun as <- <-. exists []. simpl.
    split; [tauto|]. split; [|split; [|reflexivity]].
    + intros [|i] ? H; discriminate.
    + intros [|i] ? H; discriminate.
  - rewrite run_unfold in Hrun.
    assert (Hstop : forall o0, (o0 = Returned ids \/ exists e, o0 = Raised e) ->
              (o0, [head ids mask]) = (o, its) ->
              exists toks : list Z,
                ~ In eos_token_id toks /\
                (forall i it, nth_error its i = Some it ->
                   at_input_ids it = ids ++ firstn i toks /\
                   at_attention_mask it = mask ++ repeat 1%Z i) /\
                (forall i tok, nth_error toks i = Some tok ->
                   exists t,
                     sampled (n + i) (ids ++ firstn i toks)
                             (mask ++ repeat 1%Z i) = Ok t /\
                     tok = Z.of_nat t) /\
                match o with
                | Returned r => r = ids ++ toks /\ length its = S (length toks)
                | Raised _ => length its = S (length toks)
                | OutOfFuel => length its = length toks
                end).
    { intros o0 Ho [= <- <-]. exists []. split; [tauto|]. split; [|split].
      - intros [|i] it H; simpl in H.
        + injection H as <-. simpl. rewrite !app_nil_r. apply head_state.
        + destruct i; discriminate.
      - intros [|i] ? H; discriminate.
      - destruct Ho as [->|[e ->]]; simpl; [|reflexivity].
        now rewrite app_nil_r. }
    destruct (body n ids mask) as [[|ids' mask']|e] eqn:Eb.
    + apply (Hstop (Returned ids)); auto.
    + destruct (loop_body_continue _ _ _ Eb)
        as (t & Ht & -> & -> & Hne & _).
      destruct (run fuel (S n) _ _) as [o' its'] eqn:Er.
      injection Hrun as <- <-.
      destruct (IH _ _ _ _ _ Er) as (toks & Hno & Hst & Hsm & Hend).
      exists (Z.of_nat t :: toks). split; [|split; [|split]].
      * intros [H|H]; [congruence|contradiction].
      * intros [|i] it H; simpl in H.
        -- injection H as <-. simpl. rewrite !app_nil_r. apply head_state.
        -- destruct (Hst _ _ H) as [H1 H2]. rewrite H1, H2.
           simpl. rewrite <- !app_assoc. auto.
      * intros [|i] tok H; simpl in H.
        -- injection H as <-. exists t. simpl.
           rewrite !app_nil_r, Nat.add_0_r. auto.
        -- destruct (Hsm _ _ H) as (t' & H1 & H2). exists t'.
           simpl. rewrite <- !app_assoc in H1. simpl in H1.
           replace (n + S i) with (S n + i) by lia. auto.
      * destruct o'; simpl.
        -- destruct Hend as [-> ->]. now rewrite <- app_assoc.
        -- now rewrite Hend.
        -- now rewrite Hend.
    + apply (Hstop (Raised e)); eauto.
Qed.

Lemma py_getitem_ok {A : Type} (l : list A) (i : Z) :
  (0 <= i < Z.of_nat (length l))%Z ->
  exists a, py_getitem l i = Ok a /\ In a l.
Proof.
  intros Hi. unfold py_getitem.
  destruct (i <? 0)%Z eqn:E; [apply Z.ltb_lt in E; lia|].
  rewrite E.
  destruct (Z.of_nat (length l) <=? i)%Z eqn:E'; [apply Z.leb_le in E'; lia|].
  simpl.
  destruct (nth_error l (Z.to_nat i)) as [a|] eqn:En.
  - exists a. split; [reflexivity|]. eapply nth_error_In; eassumption.
  - apply nth_error_None in En. lia.
Qed.

Lemma model_input_length (ids mask : list Z) :
  length ids <=
  length (fst (model_input max_sequence_length eos_token_id dynamic_shapes
                           ids mask)).
Proof.
  unfold model_input. destruct dynamic_shapes; simpl; [lia|].
  rewrite length_app. lia.
Qed.

(** With an engine that honours its contract and a draw in [[0, 1)], every
    iteration on a non-empty sequence samples a token, an index into a
    row of logits the engine returned. *)
Lemma next_token_in_vocab (n : nat) (ids mask : list Z) :
  engine_ok compiled_model ->
  (0 <= random_sample n < 1)%R ->
  ids <> [] ->
  exists tok outputs row,
    sampled n ids mask = Ok tok /\
    compiled_model
      (fst (model_input max_sequence_length eos_token_id dynamic_shapes
                        ids mask))
      (snd (model_input max_sequence_length eos_token_id dynamic_shapes
                        ids mask)) = Ok outputs /\
    In row outputs /\
    tok < length row.
Proof.
  intros He Hu Hne. unfold next_token, infer.
  pose proof (model_input_length ids mask) as Hlen.
  destruct (model_input _ _ _ _ _) as [model_ids model_mask].
  simpl in Hlen. simpl fst. simpl snd.
  destruct (He model_ids model_mask) as (outputs & Eo & Hout & Hrows).
  rewrite Eo. cbn [bind].
  assert (Hpos : 1 <= length ids)
    by (destruct ids; [congruence|simpl; lia]).
  destruct (@py_getitem_ok _ outputs (Z.of_nat (length ids) - 1)%Z)
    as (row & -> & Hin); [lia|].
  cbn [bind].
  rewrite Forall_forall in Hrows. destruct (Hrows _ Hin) as [Hrne Hreal].
  unfold process_logits.
  destruct (Z.of_nat (length ids) <? 0)%Z eqn:E;
    [apply Z.ltb_lt in E; lia|].
  cbn [bind].
  destruct (sample_token_support 20 Hrne Hreal Hu)
    as (_ & tok & s & _ & -> & Hs & _).
  exists tok, outputs, row. repeat split; try assumption.
  apply nth_error_Some. congruence.
Qed.

Lemma next_token_ok (n : nat) (ids mask : list Z) :
  engine_ok compiled_model ->
  (0 <= random_sample n < 1)%R ->
  ids <> [] ->
  exists tok, sampled n ids mask = Ok tok.
Proof.
  intros He Hu Hne.
  destruct (next_token_in_vocab mask He Hu Hne) as (tok & _ & _ & H & _).
  eauto.
Qed.

(** At the length bound the first iteration stops the loop: one engine
    call, nothing appended. *)
Lemma run_at_max_length (fuel n : nat) (ids mask : list Z) :
  engine_ok compiled_model ->
  (0 <= random_sample n < 1)%R ->
  ids <> [] ->
  Z.of_nat (length ids) = max_sequence_length ->
  run (S fuel) n ids mask = (Returned ids, [head ids mask]).
Proof.
  intros He Hu Hne Hmax.
  rewrite run_unfold, loop_body_next_token.
  destruct (next_token_ok mask He Hu Hne) as [tok ->]. cbn [bind].
  apply Z.eqb_eq in Hmax. now rewrite Hmax.
Qed.

(** A sampled end marker stops the loop without being appended. *)
Lemma run_at_eos (fuel n : nat) (ids mask : list Z) (tok : nat) :
  sampled n ids mask = Ok tok ->
  Z.of_nat tok = eos_token_id ->
  body n ids mask = Ok Break /\
  run (S fuel) n ids mask = (Returned ids, [head ids mask]).
Proof.
  intros Hs Heos.
  assert (Hb : body n ids mask = Ok Break).
  { rewrite loop_body_next_token, Hs. cbn [bind].
    apply Z.eqb_eq in Heos. rewrite Heos. now rewrite orb_true_r. }
  split; [assumption|]. now rewrite run_unfold, Hb.
Qed.

(** From a sequence [d] tokens short of the bound the loop returns within
    [d + 1] iterations, with at most [max_sequence_length] tokens. *)
Lemma run_terminates (d : nat) :
  engine_ok compiled_model ->
  draws_ok random_sample ->
  forall fuel n ids mask,
    ids <> [] ->
    (Z.of_nat (length ids) + Z.of_nat d = max_sequence_length)%Z ->
    d < fuel ->
    exists r its,
      run fuel n ids mask = (Returned r, its) /\
      length its <= S d /\
      (Z.of_nat (length r) <= max_sequence_length)%Z.
Proof.
  intros He Hd. induction d as [|d IH]; intros fuel n ids mask Hne Hlen Hf.
  - destruct fuel as [|fuel]; [lia|].
    exists ids, [head ids mask]. split; [|split; [simpl; lia|lia]].
    apply run_at_max_length; auto. lia.
  - destruct fuel as [|fuel]; [lia|].
    rewrite run_unfold, loop_body_next_token.
    destruct (next_token_ok mask He (Hd n) Hne) as [tok ->]. cbn [bind].
    destruct (Z.of_nat (length ids) =? max_sequence_length)%Z eqn:E1;
      [apply Z.eqb_eq in E1; lia|].
    destruct (Z.of_nat tok =? eos_token_id)%Z eqn:E2; cbn [orb].
    + exists ids, [head ids mask]. split; [reflexivity|].
      split; [simpl; lia|lia].
    + destruct (IH fuel (S n) (ids ++ [Z.of_nat tok]) (mask ++ [1%Z]))
        as (r & its & Hr & Hits & Hrl).
      * destruct ids; discriminate.
      * rewrite length_app. simpl. lia.
      * lia.
      * exists r, (head ids mask :: its). rewrite Hr.
        split; [reflexivity|]. split; [simpl; lia|assumption].
Qed.

End GeneratorFacts.

Lemma constant_model_ok (logits : list score) :
  logits <> [] -> Forall is_real logits -> engine_ok (constant_model logits).
Proof.
  intros Hne Hreal ids mask. exists (map (fun _ => logits) ids).
  split; [reflexivity|]. split; [apply length_map|].
  apply Forall_map, Forall_forall. auto.
Qed.

Lemma half_draws_ok : draws_ok half_draws.
Proof. intros n. unfold half_draws. rlra. Qed.

(** ** Properties of the generation loop *)

Lemma firstn_S_snoc {A : Type} (l : list A) (i : nat) (x : A) :
  nth_error l i = Some x -> firstn (S i) l = firstn i l ++ [x].
Proof.
  revert i. induction l as [|a t IH]; intros [|i] H; simpl in H;
    try discriminate.
  - injection H as <-. reflexivity.
  - simpl. f_equal. now apply IH.
Qed.

Lemma repeat_S_snoc {A : Type} (a : A) (n : nat) :
  repeat a (S n) = repeat a n ++ [a].
Proof. simpl. apply repeat_cons. Qed.

Lemma late_draws_ok : draws_ok late_draws.
Proof.
  intros n. unfold late_draws. destruct (n <? 2); rlra.
Qed.

(** Two equal logits under the filter of the loop ([top_k = 20]): both
    survive, each gets one half, and the draw decides. *)
Lemma sample_two_equal_20 (u : R) :
  (0 <= u < 1)%R ->
  sample_token [Fin 5; Fin 5] 20 u =
    Ok (if Rlt_dec u (1 / 2)%R then 0 else 1).
Proof.
  intros Hu. unfold sample_token.
  change (get_top_k_logits [Fin 5; Fin 5] 20) with (Ok [Fin 5; Fin 5]).
  cbn [bind]. rewrite softmax_two_equal. cbn [bind].
  rewrite np_random_choice_valid.
  - unfold cumsum. cbn [cumsum_from searchsorted_right]. f_equal.
    destruct (Rlt_dec u (0 + 1 / 2)) as [Hlt|Hge];
      destruct (Rlt_dec u (1 / 2)) as [Hlt'|Hge']; try rlra;
      [reflexivity|].
    destruct (Rlt_dec u (0 + 1 / 2 + 1 / 2)); [reflexivity|rlra].
  - discriminate.
  - repeat constructor; rlra.
  - simpl. rlra.
Qed.

(** On the engine that answers every position with two equal logits, an
    iteration samples token 0 when its draw is below one half and token 1
    otherwise. *)
Lemma two_equal_next_token (random_sample : nat -> R)
    (max_sequence_length eos_token_id : Z) (dynamic_shapes : bool)
    (n : nat) (ids mask : list Z) :
  ids <> [] ->
  (0 <= random_sample n < 1)%R ->
  fst (next_token (constant_model [Fin 5; Fin 5]) random_sample
                  max_sequence_length eos_token_id dynamic_shapes n ids mask)
  = Ok (if Rlt_dec (random_sample n) (1 / 2)%R then 0 else 1).
Proof.
  intros Hne Hu. unfold next_token, infer.
  pose proof (model_input_length max_sequence_length eos_token_id
                                 dynamic_shapes ids mask) as Hlen.
  destruct (model_input _ _ _ _ _) as [model_ids model_mask].
  cbn [fst] in *. unfold constant_model. cbn [bind].
  assert (Hpos : 1 <= length ids)
    by (destruct ids; [congruence|simpl; lia]).
  destruct (@py_getitem_ok _ (map (fun _ : Z => [Fin 5; Fin 5]) model_ids)
                           (Z.of_nat (length ids) - 1)%Z)
    as (row & -> & Hin); [rewrite length_map; lia|].
  apply in_map_iff in Hin. destruct Hin as (_ & <- & _).
  cbn [bind]. unfold process_logits.
  destruct (Z.of_nat (length ids) <? 0)%Z eqn:E;
    [apply Z.ltb_lt in E; lia|].
  cbn [bind]. now apply sample_two_equal_20.
Qed.

(** The body on these collaborators, with the end marker 1: the first two
    iterations sample token 0 and go on unless the sequence is at the
    bound; every later iteration samples the end marker and stops. *)
Lemma late_body (max_sequence_length : Z) (dynamic_shapes : bool)
    (n : nat) (ids mask : list Z) :
  ids <> [] ->
  fst (loop_body (constant_model [Fin 5; Fin 5]) late_draws
                 max_sequence_length 1 dynamic_shapes n ids mask)
  = if n <? 2
    then if (Z.of_nat (length ids) =? max_sequence_length)%Z
         then Ok Break
         else Ok (Continue (ids ++ [0%Z]) (mask ++ [1%Z]))
    else Ok Break.
Proof.
  intros Hne. rewrite loop_body_next_token.
  rewrite two_equal_next_token; [|assumption|apply late_draws_ok].
  unfold late_draws. destruct (n <? 2).
  - destruct (Rlt_dec _ _); [|rlra]. cbn [bind].
    change (Z.of_nat 0 =? 1)%Z with false. now rewrite orb_false_r.
  - destruct (Rlt_dec _ _); [rlra|]. cbn [bind].
    change (Z.of_nat 1 =? 1)%Z with true. now rewrite orb_true_r.
Qed.

Ltac late_step :=
  rewrite run_unfold, late_body by discriminate;
  cbn [Nat.ltb Nat.leb length Z.of_nat Z.eqb Pos.eqb Pos.of_succ_nat
       Pos.succ app].

(** A run of three iterations on these collaborators: from the prompt
    [[7]], with the end marker 1 and the bound 10, the first two iterations
    sample and append token 0 and the third samples the end marker, which
    stops the run at three tokens. *)
Lemma late_run :
  generate_sequence (constant_model [Fin 5; Fin 5]) late_draws 10 1 true
                    5 [7%Z] [1%Z]
  = (Returned [7%Z; 0%Z; 0%Z],
     [mk_iteration [7%Z] [1%Z] [7%Z] [1%Z];
      mk_iteration [7%Z; 0%Z] [1%Z; 1%Z] [7%Z; 0%Z] [1%Z; 1%Z];
      mk_iteration [7%Z; 0%Z; 0%Z] [1%Z; 1%Z; 1%Z]
                   [7%Z; 0%Z; 0%Z] [1%Z; 1%Z; 1%Z]]).
Proof.
  unfold generate_sequence. do 3 late_step. reflexivity.
Qed.

(** The same run under fixed shapes, with the bound 4: every call hands
    the engine four ids and four mask entries. *)
Lemma late_run_fixed :
  generate_sequence (constant_model [Fin 5; Fin 5]) late_draws 4 1 false
                    5 [7%Z] [1%Z]
  = (Returned [7%Z; 0%Z; 0%Z],
     [mk_iteration [7%Z] [1%Z] [7%Z; 1%Z; 1%Z; 1%Z] [1%Z; 0%Z; 0%Z; 0%Z];
      mk_iteration [7%Z; 0%Z] [1%Z; 1%Z]
                   [7%Z; 0%Z; 1%Z; 1%Z] [1%Z; 1%Z; 0%Z; 0%Z];
      mk_iteration [7%Z; 0%Z; 0%Z] [1%Z; 1%Z; 1%Z]
                   [7%Z; 0%Z; 0%Z; 1%Z] [1%Z; 1%Z; 1%Z; 0%Z]]).
Proof.
  unfold generate_sequence. do 3 late_step. reflexivity.
Qed.

(** C1.  When the freshly sampled token is the end marker the loop stops
    without appending it.  Whatever a run returns is the prompt followed by
    the tokens appended in the earlier, non-terminal steps: each is the
    token sampled at its step, none is the end marker, there is one
    iteration more than appended tokens, and the prompt is a prefix of the
    result. *)
Theorem eos_token_is_never_appended
    (compiled_model : list Z -> list Z -> result (list (list score)))
    (random_sample : nat -> R) (max_sequence_length eos_token_id : Z)
    (dynamic_shapes : bool) :
  (forall fuel n ids mask tok,
      fst (next_token compiled_model random_sample max_sequence_length
                      eos_token_id dynamic_shapes n ids mask) = Ok tok ->
      Z.of_nat tok = eos_token_id ->
      fst (loop_body compiled_model random_sample max_sequence_length
                     eos_token_id dynamic_shapes n ids mask) = Ok Break /\
      while_true compiled_model random_sample max_sequence_length
                 eos_token_id dynamic_shapes (S fuel) n ids mask
      = (Returned ids,
         [started max_sequence_length eos_token_id dynamic_shapes ids mask])) /\
  (forall fuel prompt mask returned its,
      generate_sequence compiled_model random_sample max_sequence_length
                        eos_token_id dynamic_shapes fuel prompt mask
      = (Returned returned, its) ->
      exists appended,
        returned = prompt ++ appended /\
        firstn (length prompt) returned = prompt /\
        ~ In eos_token_id appended /\
        length its = S (length appended) /\
        forall i tok,
          nth_error appended i = Some tok ->
          exists t,
            fst (next_token compiled_model random_sample max_sequence_length
                            eos_token_id dynamic_shapes i
                            (prompt ++ firstn i appended)
                            (mask ++ repeat 1%Z i))
            = Ok t /\
            tok = Z.of_nat t).
Proof.
  split.
  - intros fuel n ids mask tok Hs Heos. now apply run_at_eos with (tok := tok).
  - intros fuel prompt mask returned its Hrun.
    destruct (run_trace _ _ _ _ _ _ _ _ _ Hrun)
      as (toks & Hno & _ & Hsm & -> & Hlen).
    exists toks. split; [reflexivity|].
    split; [|split; [assumption|split; [assumption|]]].
    + rewrite firstn_app, Nat.sub_diag, firstn_all. simpl.
      now rewrite app_nil_r.
    + intros i tok H. destruct (Hsm _ _ H) as (t & H1 & H2).
      exists t. simpl in H1. auto.
Qed.

(** The run of three iterations that ends on the end marker: the third
    iteration samples the marker 1 and breaks, and the result is the prompt
    followed by the two tokens appended before, neither of them the
    marker. *)
Lemma eos_token_is_never_appended_witness :
  fst (next_token (constant_model [Fin 5; Fin 5]) late_draws 10 1 true
                  2 [7%Z; 0%Z; 0%Z] [1%Z; 1%Z; 1%Z]) = Ok 1 /\
  fst (loop_body (constant_model [Fin 5; Fin 5]) late_draws 10 1 true
                 2 [7%Z; 0%Z; 0%Z] [1%Z; 1%Z; 1%Z]) = Ok Break /\
  fst (generate_sequence (constant_model [Fin 5; Fin 5]) late_draws 10 1 true
                         5 [7%Z] [1%Z])
  = Returned ([7%Z] ++ [0%Z; 0%Z]) /\
  ~ In 1%Z [0%Z; 0%Z] /\
  (forall i tok,
      nth_error [0%Z; 0%Z] i = Some tok ->
      exists t,
        fst (next_token (constant_model [Fin 5; Fin 5]) late_draws 10 1 true
                        i ([7%Z] ++ firstn i [0%Z; 0%Z])
                        ([1%Z] ++ repeat 1%Z i)) = Ok t /\
        tok = Z.of_nat t).
Proof.
  assert (Hs : fst (next_token (constant_model [Fin 5; Fin 5]) late_draws
                               10 1 true 2 [7%Z; 0%Z; 0%Z]
                               [1%Z; 1%Z; 1%Z]) = Ok 1).
  { rewrite two_equal_next_token;
      [|discriminate|apply late_draws_ok].
    unfold late_draws. cbn [Nat.ltb Nat.leb].
    destruct (Rlt_dec _ _); [rlra|reflexivity]. }
  pose proof (eos_token_is_never_appended
                (constant_model [Fin 5; Fin 5]) late_draws 10 1 true)
    as [Hstop Hres].
  destruct (Hstop 0 2 [7%Z; 0%Z; 0%Z] [1%Z; 1%Z; 1%Z] 1 Hs eq_refl)
    as [Hbreak _].
  destruct (Hres 5 [7%Z] [1%Z] _ _ late_run)
    as (appended & Happ & _ & Hno & _ & Hsampled).
  injection Happ as <-.
  split; [exact Hs|]. split; [exact Hbreak|].
  split; [now rewrite late_run|]. split; [exact Hno|exact Hsampled].
Defined.



(** C9.  A step that goes on appends exactly one token to the sequence and
    exactly one 1 to the mask.  So in every run that starts from a mask
    parallel to the prompt, the mask is parallel to the token sequence at
    the head of every iteration, and each state is the previous one with
    one token and one 1 added at the end: nothing is removed or changed. *)
Theorem attention_mask_stays_parallel
    (compiled_model : list Z -> list Z -> result (list (list score)))
    (random_sample : nat -> R) (max_sequence_length eos_token_id : Z)
    (dynamic_shapes : bool) :
  (forall n ids mask ids' mask',
      fst (loop_body compiled_model random_sample max_sequence_length
                     eos_token_id dynamic_shapes n ids mask)
      = Ok (Continue ids' mask') ->
      exists tok, ids' = ids ++ [tok] /\ mask' = mask ++ [1%Z]) /\
  (forall fuel n ids0 mask0 o its,
      parallel ids0 mask0 ->
      while_true compiled_model random_sample max_sequence_length
                 eos_token_id dynamic_shapes fuel n ids0 mask0 = (o, its) ->
      Forall (fun it => parallel (at_input_ids it) (at_attention_mask it))
             its /\
      (forall it, nth_error its 0 = Some it ->
         at_input_ids it = ids0 /\ at_attention_mask it = mask0) /\
      (forall i it it',
         nth_error its i = Some it ->
         nth_error its (S i) = Some it' ->
         exists tok,
           at_input_ids it' = at_input_ids it ++ [tok] /\
           at_attention_mask it' = at_attention_mask it ++ [1%Z]) /\
      (forall r, o = Returned r ->
         exists it, nth_error its (length its - 1) = Some it /\
                    at_input_ids it = r)).
Proof.
  split.
  - intros n ids mask ids' mask' H.
    destruct (loop_body_continue _ _ _ _ _ _ _ _ H) as (t & _ & -> & -> & _).
    eauto.
  - intros fuel n ids0 mask0 o its [Hlen Hbits] Hrun.
    destruct (run_trace _ _ _ _ _ _ _ _ _ Hrun)
      as (toks & _ & Hst & _ & Hend).
    assert (Hits : length its <= S (length toks))
      by (destruct o; [destruct Hend|..]; lia).
    split; [|split; [|split]].
    + apply Forall_forall. intros it Hin.
      apply In_nth_error in Hin. destruct Hin as [i Hi].
      assert (Hi' : i < length its) by (apply nth_error_Some; congruence).
      destruct (Hst _ _ Hi) as [-> ->]. split.
      * rewrite !length_app, repeat_length, length_firstn. lia.
      * apply Forall_app. split; [assumption|].
        apply Forall_forall. intros b Hb. apply repeat_spec in Hb. auto.
    + intros it H0. destruct (Hst _ _ H0) as [-> ->].
      simpl. now rewrite !app_nil_r.
    + intros i it it' Hi Hi'.
      assert (HSi : S i < length its) by (apply nth_error_Some; congruence).
      destruct (Hst _ _ Hi) as [-> ->]. destruct (Hst _ _ Hi') as [-> ->].
      destruct (nth_error toks i) as [tok|] eqn:Et.
      2:{ apply nth_error_None in Et. lia. }
      exists tok. rewrite (firstn_S_snoc _ _ Et), repeat_S_snoc.
      now rewrite !app_assoc.
    + intros r ->. destruct Hend as [-> Hl].
      destruct (nth_error its (length its - 1)) as [it|] eqn:E.
      2:{ apply nth_error_None in E. lia. }
      exists it. split; [reflexivity|].
      destruct (Hst _ _ E) as [-> _].
      rewrite Hl. replace (S (length toks) - 1) with (length toks) by lia.
      now rewrite firstn_all.
Qed.

(** The run of three iterations: its first step goes on and appends one
    token and one 1, and the three loop states it passes through,
    [[7]], [[7, 0]] and [[7, 0, 0]] with masks of ones, keep the mask
    parallel to the tokens and grow by one entry each. *)
Lemma attention_mask_stays_parallel_witness :
  fst (loop_body (constant_model [Fin 5; Fin 5]) late_draws 10 1 true
                 0 [7%Z] [1%Z])
  = Ok (Continue ([7%Z] ++ [0%Z]) ([1%Z] ++ [1%Z])) /\
  exists its,
    generate_sequence (constant_model [Fin 5; Fin 5]) late_draws 10 1 true
                      5 [7%Z] [1%Z]
    = (Returned [7%Z; 0%Z; 0%Z], its) /\
    map at_input_ids its = [[7%Z]; [7%Z; 0%Z]; [7%Z; 0%Z; 0%Z]] /\
    map at_attention_mask its = [[1%Z]; [1%Z; 1%Z]; [1%Z; 1%Z; 1%Z]] /\
    Forall (fun it => parallel (at_input_ids it) (at_attention_mask it))
           its /\
    (forall i it it',
        nth_error its i = Some it ->
        nth_error its (S i) = Some it' ->
        exists tok,
          at_input_ids it' = at_input_ids it ++ [tok] /\
          at_attention_mask it' = at_attention_mask it ++ [1%Z]).
Proof.
  pose proof (attention_mask_stays_parallel
                (constant_model [Fin 5; Fin 5]) late_draws 10 1 true)
    as [Hstep Hrun].
  assert (Hb : fst (loop_body (constant_model [Fin 5; Fin 5]) late_draws
                              10 1 true 0 [7%Z] [1%Z])
               = Ok (Continue [7%Z; 0%Z] [1%Z; 1%Z])).
  { rewrite loop_body_next_token.
    rewrite two_equal_next_token; [|discriminate|apply late_draws_ok].
    unfold late_draws. cbn [Nat.ltb Nat.leb].
    destruct (Rlt_dec _ _); [reflexivity|rlra]. }
  destruct (Hstep _ _ _ _ _ Hb) as (tok & Hids & Hmask).
  split.
  - rewrite Hb. reflexivity.
  - eexists. split; [exact late_run|].
    split; [reflexivity|]. split; [reflexivity|].
    assert (Hp : parallel [7%Z] [1%Z]).
    { split; [reflexivity|]. constructor; [now right|constructor]. }
    destruct (Hrun 5 0 [7%Z] [1%Z] _ _ Hp late_run)
      as (Hall & _ & Hnext & _).
    split; [exact Hall|exact Hnext].
Defined.

(** Past the bound the concrete run never stops: the engine offers the
    tokens 0 and 1 only, so the end marker 50256 is never sampled, and the
    length never equals the bound again. *)
Lemma constant_run_past_bound (fuel : nat) :
  forall n ids mask,
    2 <= length ids ->
    fst (while_true (constant_model [Fin 0; Fin 1]) half_draws 1 50256 true
                    fuel n ids mask) = OutOfFuel.
Proof.
  induction fuel as [|fuel IH]; intros n ids mask Hlen; [reflexivity|].
  rewrite run_unfold, loop_body_next_token.
  destruct (@next_token_in_vocab (constant_model [Fin 0; Fin 1]) half_draws
              1 50256 true n ids mask)
    as (tok & outputs & row & -> & Ho & Hin & Htok).
  - apply constant_model_ok; [discriminate|repeat constructor].
  - apply half_draws_ok.
  - destruct ids; [simpl in Hlen; lia|discriminate].
  - cbn [bind].
    unfold constant_model in Ho. injection Ho as <-.
    apply in_map_iff in Hin. destruct Hin as (_ & <- & _). simpl in Htok.
    destruct (Z.of_nat (length ids) =? 1)%Z eqn:E1;
      [apply Z.eqb_eq in E1; lia|].
    destruct (Z.of_nat tok =? 50256)%Z eqn:E2;
      [apply Z.eqb_eq in E2; lia|].
    cbn [orb].
    specialize (IH (S n) (ids ++ [Z.of_nat tok]) (mask ++ [1%Z])).
    destruct (while_true _ _ _ _ _ fuel _ _ _) as [o its].
    simpl in *. apply IH. rewrite length_app. simpl. lia.
Qed.

(** C10.  From a (non-empty) prompt no longer than [max_sequence_length],
    with an engine that honours its contract, the run returns after at most
    [max_sequence_length - len(prompt) + 1] iterations a sequence of at
    most [max_sequence_length] tokens.  The length stop is an equality
    test: a step on a sequence longer than the bound stops only when it
    samples the end marker, and on the concrete engine that never offers
    the end marker a run from a longer prompt never returns. *)
Theorem generation_terminates_within_bound
    (compiled_model : list Z -> list Z -> result (list (list score)))
    (random_sample : nat -> R) (max_sequence_length eos_token_id : Z)
    (dynamic_shapes : bool) :
  (forall prompt mask fuel,
      engine_ok compiled_model ->
      draws_ok random_sample ->
      prompt <> [] ->
      (Z.of_nat (length prompt) <= max_sequence_length)%Z ->
      (max_sequence_length - Z.of_nat (length prompt) < Z.of_nat fuel)%Z ->
      exists returned its,
        generate_sequence compiled_model random_sample max_sequence_length
                          eos_token_id dynamic_shapes fuel prompt mask
        = (Returned returned, its) /\
        (Z.of_nat (length its)
         <= max_sequence_length - Z.of_nat (length prompt) + 1)%Z /\
        (Z.of_nat (length returned) <= max_sequence_length)%Z) /\
  (forall n ids mask,
      fst (loop_body compiled_model random_sample max_sequence_length
                     eos_token_id dynamic_shapes n ids mask) = Ok Break ->
      exists tok,
        fst (next_token compiled_model random_sample max_sequence_length
                        eos_token_id dynamic_shapes n ids mask) = Ok tok /\
        (Z.of_nat (length ids) = max_sequence_length \/
         Z.of_nat tok = eos_token_id)) /\
  (forall fuel,
      fst (generate_sequence (constant_model [Fin 0; Fin 1]) half_draws
                             1 50256 true fuel [10%Z; 11%Z] [1%Z; 1%Z])
      = OutOfFuel).
Proof.
  split; [|split].
  - intros prompt mask fuel He Hd Hne Hlen Hfuel.
    destruct (@run_terminates compiled_model random_sample
                max_sequence_length eos_token_id dynamic_shapes
                (Z.to_nat (max_sequence_length - Z.of_nat (length prompt)))
                He Hd fuel 0 prompt mask Hne)
      as (r & its & Hr & Hits & Hrl); [lia|lia|].
    exists r, its. split; [exact Hr|]. split; lia.
  - intros n ids mask H. now apply loop_body_break.
  - intros fuel. apply constant_run_past_bound. simpl. lia.
Qed.

Lemma generation_terminates_within_bound_witness :
  exists returned its,
    generate_sequence (constant_model [Fin 0; Fin 1]) half_draws 3 50256 true
                      3 [10%Z] [1%Z]
    = (Returned returned, its) /\
    (Z.of_nat (length its) <= 3)%Z /\
    (Z.of_nat (length returned) <= 3)%Z.
Proof.
  destruct (proj1 (generation_terminates_within_bound
                     (constant_model [Fin 0; Fin 1]) half_draws 3 50256 true)
                  [10%Z] [1%Z] 3)
    as (returned & its & H1 & H2 & H3).
  - apply constant_model_ok; [discriminate|repeat constructor].
  - apply half_draws_ok.
  - discriminate.
  - simpl. lia.
  - simpl. lia.
  - exists returned, its. simpl in H2. auto.
Defined.

(** ** CTC greedy decoding *)

Lemma groupby_run_keys (t : list nat) :
  forall key group, map fst (groupby_run key group t) = collapse (key :: t).
Proof.
  induction t as [|x t IH]; intros key group; [reflexivity|].
  cbn [groupby_run]. rewrite (Nat.eqb_sym x key).
  change (collapse (key :: x :: t))
    with (if key =? x then collapse (x :: t) else key :: collapse (x :: t)).
  destruct (key =? x) eqn:E.
  - apply Nat.eqb_eq in E. subst x. apply IH.
  - cbn [map fst]. f_equal. apply IH.
Qed.

(** The keys of [groupby] are the run-length collapse of the sequence. *)
Lemma groupby_keys (l : list nat) : map fst (groupby l) = collapse l.
Proof. destruct l as [|x t]; [reflexivity|]. apply groupby_run_keys. Qed.

Lemma groupby_run_nonempty (t : list nat) :
  forall key group, groupby_run key group t <> [].
Proof.
  induction t as [|x t IH]; intros key group; simpl; [discriminate|].
  destruct (x =? key); [apply IH|discriminate].
Qed.

Lemma groupby_nonempty (l : list nat) : l <> [] -> groupby l <> [].
Proof.
  destruct l as [|x t]; [congruence|]. intros _. apply groupby_run_nonempty.
Qed.

(** The boolean mask [!= 0] strips the blanks. *)
Lemma mask_strip_blank (l : list nat) :
  filter (fun i => negb (i =? 0)) l = strip_blank l.
Proof.
  induction l as [|[|i] t IH]; simpl; [reflexivity|assumption|].
  now rewrite IH.
Qed.

Lemma collapse_In (l : list nat) (i : nat) : In i (collapse l) -> In i l.
Proof.
  induction l as [|x t IH]; [auto|].
  destruct t as [|y t']; [auto|].
  change (collapse (x :: y :: t'))
    with (if x =? y then collapse (y :: t') else x :: collapse (y :: t')).
  destruct (x =? y); intros H.
  - right. now apply IH.
  - destruct H as [->|H]; [now left|right; now apply IH].
Qed.

Lemma strip_blank_In (l : list nat) (i : nat) :
  In i (strip_blank l) -> In i l /\ i <> 0.
Proof.
  induction l as [|[|x] t IH]; simpl; [tauto| |].
  - intros H. destruct (IH H). auto.
  - intros [<-|H]; [split; [now left|discriminate]|].
    destruct (IH H). auto.
Qed.

Lemma map_result_inv {A B : Type} (f : A -> result B) (l : list A)
    (ys : list B) :
  map_result f l = Ok ys -> Forall2 (fun x y => f x = Ok y) l ys.
Proof.
  revert ys. induction l as [|x t IH]; simpl; intros ys H.
  - injection H as <-. constructor.
  - destruct (f x) as [y|e] eqn:Ex; [|discriminate]. cbn [bind] in H.
    destruct (map_result f t) as [ys'|e]; [|discriminate]. cbn [bind] in H.
    injection H as <-. constructor; auto.
Qed.

(** [np.argmax(predictions, axis=1)] on well-formed rows: the lowest index
    of the maximum of every row. *)
Lemma argmax_rows (rows : list (list score)) :
  Forall (fun row => row <> [] /\ Forall not_nan row) rows ->
  exists idxs,
    map_result np_argmax rows = Ok idxs /\ Forall2 is_argmax rows idxs.
Proof.
  induction 1 as [|row t [Hne Hn] Ht (idxs & Hm & Hf)].
  - exists []. split; [reflexivity|constructor].
  - destruct (np_argmax_spec Hne Hn) as (i & Hi & Ha).
    exists (i :: idxs). simpl. rewrite Hi, Hm. split; [reflexivity|].
    now constructor.
Qed.

Lemma Forall2_is_argmax_unique (rows : list (list score)) (l l' : list nat) :
  Forall2 is_argmax rows l -> Forall2 is_argmax rows l' -> l = l'.
Proof.
  intros H. revert l'. induction H as [|row i t l Hi Ht IH]; intros l' H'.
  - now inversion H'.
  - inversion H' as [|? i' ? l'' Hi' Ht']; subst.
    f_equal; [eapply is_argmax_unique; eassumption|now apply IH].
Qed.

Lemma py_getitem_nat {A : Type} (l : list A) (i : nat) :
  py_getitem l (Z.of_nat i) =
  match nth_error l i with
  | Some a => Ok a
  | None => Raise IndexError
  end.
Proof.
  unfold py_getitem.
  destruct (Z.of_nat i <? 0)%Z eqn:E; [apply Z.ltb_lt in E; lia|].
  rewrite E, Nat2Z.id. simpl.
  destruct (Z.of_nat (length l) <=? Z.of_nat i)%Z eqn:E'; [|reflexivity].
  apply Z.leb_le in E'.
  destruct (nth_error l i) eqn:En; [|reflexivity].
  assert (i < length l) by (apply nth_error_Some; congruence). lia.
Qed.

Lemma Forall2_In_right {A B : Type} (R : A -> B -> Prop) (l : list A)
    (l' : list B) (y : B) :
  Forall2 R l l' -> In y l' -> exists x, In x l /\ R x y.
Proof.
  induction 1 as [|a b t t' Hab Ht IH]; intros Hy; [contradiction|].
  destruct Hy as [<-|Hy].
  - exists a. split; [now left|assumption].
  - destruct (IH Hy) as (x & Hx & Hr). exists x. split; [now right|assumption].
Qed.

Lemma squeeze_keeps_matrix (rows : list (list score)) (width : nat) :
  2 <= length rows ->
  2 <= width ->
  Forall (fun row => length row = width) rows ->
  np_squeeze rows = Rank2 rows.
Proof.
  intros Hl Hw Hrows. unfold np_squeeze.
  destruct rows as [|row t]; [simpl in Hl; lia|].
  inversion Hrows as [|? ? Hrow _]; subst.
  destruct (length (row :: t) =? 1) eqn:E1;
    [apply Nat.eqb_eq in E1; lia|].
  destruct (length row =? 1) eqn:E2; [apply Nat.eqb_eq in E2; lia|].
  reflexivity.
Qed.

Section DecoderFacts.

Variable char : Type.
Variable char_eq_dec : forall a b : char, {a = b} + {a <> b}.
Variable blank_char : char.

Let lookup (letters : list char) :=
  fun letter_index : nat => py_getitem letters (Z.of_nat letter_index).

(** Once the rows have their arg-max, the rest of the decoding is the
    collapse of the runs, the removal of the blanks and the lookup of the
    letters, in this order. *)
Lemma output_text_of_indexes (rows : list (list score))
    (letters : list char) (idxs : list nat) :
  np_squeeze rows = Rank2 rows ->
  map_result np_argmax rows = Ok idxs ->
  idxs <> [] ->
  output_text rows letters =
  map_result (lookup letters) (strip_blank (collapse idxs)).
Proof.
  intros Hsq Hm Hne. unfold output_text.
  rewrite Hsq. cbn [np_argmax_axis1]. rewrite Hm. cbn [bind].
  pose proof (groupby_nonempty Hne) as Hg.
  pose proof (groupby_keys idxs) as Hk.
  destruct (groupby idxs) as [|p ps]; [congruence|].
  cbn [np_transpose_pairs bind fst].
  now rewrite mask_strip_blank, Hk.
Qed.

Lemma lookup_symbols (charlist : list char) (idxs : list nat) :
  Forall (fun i => i <> 0 /\ i < S (length charlist)) idxs ->
  exists syms,
    map_result (lookup (letters_of blank_char charlist)) idxs = Ok syms /\
    map Some syms = map (symbol_of charlist) idxs.
Proof.
  induction 1 as [|i t [Hi0 Hi] Ht (syms & Hs & Hm)].
  - exists []. split; reflexivity.
  - destruct i as [|j]; [congruence|].
    destruct (nth_error charlist j) as [c|] eqn:Ec.
    2:{ apply nth_error_None in Ec. lia. }
    assert (Hh : lookup (letters_of blank_char charlist) (S j) = Ok c).
    { unfold lookup. rewrite py_getitem_nat.
      unfold letters_of. cbn [nth_error]. now rewrite Ec. }
    exists (c :: syms). split.
    + cbn [map_result]. now rewrite Hh, Hs.
    + simpl. now rewrite Ec, Hm.
Qed.

(** The decoder against the words of the specification. *)
Lemma decode_follows_spec (prob_matrix : list (list score))
    (charlist : list char) (idxs : list nat) :
  charlist <> [] ->
  2 <= length prob_matrix ->
  valid_matrix prob_matrix charlist ->
  Forall2 is_argmax prob_matrix idxs ->
  exists syms,
    decode blank_char prob_matrix charlist = Ok syms /\
    map Some syms = map (symbol_of charlist) (strip_blank (collapse idxs)).
Proof.
  intros Hc Hlen Hrows Hidx. unfold valid_matrix in Hrows.
  assert (Hcl : 1 <= length charlist)
    by (destruct charlist; [congruence|simpl; lia]).
  assert (Hsq : np_squeeze prob_matrix = Rank2 prob_matrix).
  { apply squeeze_keeps_matrix with (width := S (length charlist));
      [assumption|lia|].
    eapply Forall_impl; [|exact Hrows]. now intros row [H _]. }
  destruct (@argmax_rows prob_matrix) as (idxs' & Hm & Hidx').
  { eapply Forall_impl; [|exact Hrows]. intros row [Hl Hr]. split.
    - destruct row; [discriminate|congruence].
    - eapply Forall_impl; [apply is_real_not_nan|exact Hr]. }
  rewrite (Forall2_is_argmax_unique Hidx Hidx') in *.
  assert (Hne : idxs' <> []).
  { intros ->. inversion Hidx'; subst. simpl in Hlen. lia. }
  unfold decode. rewrite (output_text_of_indexes _ Hsq Hm Hne).
  apply lookup_symbols. apply Forall_forall. intros i Hi.
  apply strip_blank_In in Hi. destruct Hi as [Hi Hi0].
  split; [assumption|]. apply collapse_In in Hi.
  destruct (@Forall2_In_right _ _ _ _ _ _ Hidx' Hi) as (row & Hrow & Harg).
  rewrite Forall_forall in Hrows. destruct (Hrows _ Hrow) as [<- _].
  now apply is_argmax_lt.
Qed.

Lemma lookup_nonblank_in_charlist (charlist : list char) (idxs : list nat)
    (syms : list char) :
  Forall (fun i => i <> 0) idxs ->
  map_result (lookup (letters_of blank_char charlist)) idxs = Ok syms ->
  Forall (fun c => In c charlist) syms.
Proof.
  intros Hnz H. apply map_result_inv in H.
  induction H as [|i c t syms' Hi Ht IH]; [constructor|].
  inversion Hnz as [|? ? Hi0 Hnz']; subst.
  constructor; [|now apply IH].
  unfold lookup in Hi. rewrite py_getitem_nat in Hi.
  destruct i as [|j]; [congruence|].
  unfold letters_of in Hi. cbn [nth_error] in Hi.
  destruct (nth_error charlist j) as [c'|] eqn:E; [|discriminate].
  injection Hi as <-. eapply nth_error_In; eassumption.
Qed.

Lemma strip_blank_nonzero (l : list nat) :
  Forall (fun i => i <> 0) (strip_blank l).
Proof.
  apply Forall_forall. intros i Hi. now apply strip_blank_In in Hi.
Qed.

(** Every decoded symbol is a symbol of the charlist. *)
Lemma decode_symbols_in_charlist (prob_matrix : list (list score))
    (charlist syms : list char) :
  decode blank_char prob_matrix charlist = Ok syms ->
  Forall (fun c => In c charlist) syms.
Proof.
  unfold decode, output_text.
  destruct (np_argmax_axis1 _) as [idxs|e]; [|discriminate]. cbn [bind].
  destruct (np_transpose_pairs _) as [[keys groups]|e]; [|discriminate].
  cbn [bind fst]. rewrite mask_strip_blank.
  apply lookup_nonblank_in_charlist, strip_blank_nonzero.
Qed.

Lemma position_found (c : char) (l : list char) :
  In c l -> exists i, position char_eq_dec c l = Some i.
Proof.
  induction l as [|x t IH]; [contradiction|]. intros Hin. simpl.
  destruct (char_eq_dec c x) as [_|Hne]; [eauto|].
  destruct Hin as [->|Hin]; [congruence|].
  destruct (IH Hin) as [i ->]. eauto.
Qed.

Lemma position_nth (c : char) (l : list char) (i : nat) :
  position char_eq_dec c l = Some i -> nth_error l i = Some c.
Proof.
  revert i. induction l as [|x t IH]; intros i; simpl; [discriminate|].
  destruct (char_eq_dec c x) as [->|Hne].
  - intros [= <-]. reflexivity.
  - destruct (position char_eq_dec c t) as [j|]; [|discriminate].
    intros [= <-]. simpl. now apply IH.
Qed.

(** The label of a symbol of the charlist: positive, within the label
    set, and the letter it stands for is the symbol. *)
Lemma label_of_spec (charlist : list char) (c : char) :
  In c charlist ->
  exists j,
    label_of char_eq_dec charlist c = S j /\
    nth_error charlist j = Some c.
Proof.
  intros Hin. unfold label_of.
  destruct (@position_found c charlist Hin) as [i Hi]. rewrite Hi.
  exists i. split; [reflexivity|]. now apply position_nth.
Qed.

Lemma label_of_injective (charlist : list char) (c c' : char) :
  In c charlist -> In c' charlist ->
  label_of char_eq_dec charlist c = label_of char_eq_dec charlist c' ->
  c = c'.
Proof.
  intros Hc Hc' E.
  destruct (@label_of_spec charlist c Hc) as (j & Hj & Hn).
  destruct (@label_of_spec charlist c' Hc') as (j' & Hj' & Hn').
  rewrite Hj, Hj' in E. injection E as <-. congruence.
Qed.

Lemma nth_error_one_hot (width label j : nat) :
  nth_error (one_hot width label) j =
  if j <? width
  then Some (if j =? label then Fin 1 else Fin 0)
  else None.
Proof.
  unfold one_hot. rewrite nth_error_map.
  destruct (j <? width) eqn:E.
  - apply Nat.ltb_lt in E.
    rewrite (nth_error_nth' _ 0) by (rewrite length_seq; assumption).
    rewrite seq_nth by assumption. reflexivity.
  - apply Nat.ltb_ge in E.
    replace (nth_error (seq 0 width) j) with (@None nat); [reflexivity|].
    symmetry. apply nth_error_None. now rewrite length_seq.
Qed.

(** The frame of a label has its arg-max at the label. *)
Lemma argmax_one_hot (width label : nat) :
  label < width -> np_argmax (one_hot width label) = Ok label.
Proof.
  intros Hl.
  destruct (@np_argmax_spec (one_hot width label)) as (i & Hi & Ha).
  - unfold one_hot. destruct width; [lia|discriminate].
  - unfold one_hot. apply Forall_map, Forall_forall. intros j _.
    destruct (j =? label); exact I.
  - rewrite Hi. f_equal. apply (is_argmax_unique Ha).
    exists (Fin 1). split; [|split].
    + rewrite nth_error_one_hot.
      apply Nat.ltb_lt in Hl. now rewrite Hl, Nat.eqb_refl.
    + intros j w Hj. rewrite nth_error_one_hot in Hj.
      destruct (j <? width); [|discriminate].
      injection Hj as <-. destruct (j =? label); reflexivity.
    + intros j w Hjl Hj. rewrite nth_error_one_hot in Hj.
      destruct (j <? width); [|discriminate].
      injection Hj as <-.
      destruct (j =? label) eqn:E; [apply Nat.eqb_eq in E; lia|reflexivity].
Qed.

Lemma argmax_expand (charlist syms : list char) :
  Forall (fun c => In c charlist) syms ->
  map_result np_argmax (expand char_eq_dec charlist syms) =
  Ok (map (label_of char_eq_dec charlist) syms).
Proof.
  induction 1 as [|c t Hc Ht IH]; [reflexivity|].
  unfold expand in *. cbn [map map_result].
  destruct (@label_of_spec charlist c Hc) as (j & Hj & Hn).
  rewrite argmax_one_hot.
  - cbn [bind]. now rewrite IH.
  - rewrite Hj. assert (j < length charlist)
      by (apply nth_error_Some; congruence). lia.
Qed.

Lemma collapse_labels (charlist syms : list char) :
  Forall (fun c => In c charlist) syms ->
  no_adjacent_repeat syms ->
  collapse (map (label_of char_eq_dec charlist) syms) =
  map (label_of char_eq_dec charlist) syms.
Proof.
  induction 1 as [|c t Hc Ht IH]; [reflexivity|].
  destruct t as [|c' t']; [reflexivity|].
  intros [Hne Hrest].
  change (map (label_of char_eq_dec charlist) (c :: c' :: t'))
    with (label_of char_eq_dec charlist c
          :: map (label_of char_eq_dec charlist) (c' :: t')).
  cbn [collapse]. cbn [map] in *.
  destruct (label_of char_eq_dec charlist c
            =? label_of char_eq_dec charlist c') eqn:E.
  - apply Nat.eqb_eq in E. exfalso. apply Hne.
    apply (label_of_injective charlist); try assumption.
    now inversion Ht.
  - f_equal. now apply IH.
Qed.

Lemma strip_blank_labels (charlist syms : list char) :
  Forall (fun c => In c charlist) syms ->
  strip_blank (map (label_of char_eq_dec charlist) syms) =
  map (label_of char_eq_dec charlist) syms.
Proof.
  induction 1 as [|c t Hc Ht IH]; [reflexivity|].
  cbn [map]. destruct (@label_of_spec charlist c Hc) as (j & -> & _).
  cbn [strip_blank]. now rewrite IH.
Qed.

Lemma lookup_labels (charlist syms : list char) :
  Forall (fun c => In c charlist) syms ->
  map_result (lookup (letters_of blank_char charlist))
             (map (label_of char_eq_dec charlist) syms) = Ok syms.
Proof.
  induction 1 as [|c t Hc Ht IH]; [reflexivity|].
  cbn [map map_result].
  destruct (@label_of_spec charlist c Hc) as (j & -> & Hn).
  assert (Hh : lookup (letters_of blank_char charlist) (S j) = Ok c).
  { unfold lookup. rewrite py_getitem_nat.
    unfold letters_of. cbn [nth_error]. now rewrite Hn. }
  now rewrite Hh, IH.
Qed.

(** Decoding the frames of a symbol sequence gives the sequence back when
    it has at least two symbols, all of the charlist, and no two
    neighbours are equal. *)
Lemma decode_expand (charlist syms : list char) :
  Forall (fun c => In c charlist) syms ->
  2 <= length syms ->
  no_adjacent_repeat syms ->
  decode blank_char (expand char_eq_dec charlist syms) charlist = Ok syms.
Proof.
  intros Hin Hlen Hrep.
  assert (Hcl : 1 <= length charlist).
  { destruct syms as [|c t]; [simpl in Hlen; lia|].
    inversion Hin as [|? ? Hc _]; subst.
    destruct charlist; [contradiction|simpl; lia]. }
  unfold decode.
  rewrite (@output_text_of_indexes _ _
             (map (label_of char_eq_dec charlist) syms)).
  - rewrite collapse_labels, strip_blank_labels by assumption.
    now apply lookup_labels.
  - apply squeeze_keeps_matrix with (width := S (length charlist)).
    + unfold expand. now rewrite length_map.
    + lia.
    + unfold expand. apply Forall_map, Forall_forall. intros c _.
      unfold one_hot. now rewrite length_map, length_seq.
  - now apply argmax_expand.
  - destruct syms; [simpl in Hlen; lia|discriminate].
Qed.

End DecoderFacts.

(** ** Properties of the decoder *)

Lemma map_Some_injective {A : Type} (l l' : list A) :
  map Some l = map Some l' -> l = l'.
Proof.
  revert l'. induction l as [|x t IH]; intros [|y t'] H; simpl in H;
    try discriminate; [reflexivity|].
  injection H as -> H. f_equal. now apply IH.
Qed.

Lemma bcc_matrix_valid : valid_matrix bcc_matrix abc_charlist.
Proof.
  unfold valid_matrix, bcc_matrix. repeat (constructor; [split; [reflexivity|]|]);
    repeat constructor.
Qed.

Lemma bcc_matrix_argmax : Forall2 is_argmax bcc_matrix [0; 0; 2; 2; 3; 0; 3].
Proof.
  destruct (@argmax_rows bcc_matrix) as (idxs & Hm & Hf).
  - unfold bcc_matrix. repeat (constructor; [split; [discriminate|]|]);
      repeat constructor.
  - change (map_result np_argmax bcc_matrix)
      with (Ok [0; 0; 2; 2; 3; 0; 3]) in Hm.
    injection Hm as <-. exact Hf.
Qed.


(** X22.  On a valid probability matrix of at least two time steps and a
    non-empty charlist the decoder returns, in time order, the symbols
    [charlist[i-1]] of the labels [i] that remain when the per-row arg-max
    (ties to the lowest index) is taken first, consecutive equal labels are
    collapsed next, and the blanks (label 0) are removed last.  The arg-max
    labels exist; a blank between two equal labels leaves the symbol twice;
    and a matrix whose rows arg-max to [[0, 0, 2, 2, 3, 0, 3]] decodes with
    ["A", "B", "C"] to "BCC". *)
Theorem decode_is_argmax_collapse_strip_lookup :
  (forall (char : Type) (blank_char : char)
          (prob_matrix : list (list score)) (charlist : list char)
          (idxs : list nat),
      charlist <> [] ->
      2 <= length prob_matrix ->
      valid_matrix prob_matrix charlist ->
      Forall2 is_argmax prob_matrix idxs ->
      exists syms,
        decode blank_char prob_matrix charlist = Ok syms /\
        map Some syms =
          map (symbol_of charlist) (strip_blank (collapse idxs))) /\
  (forall (char : Type) (prob_matrix : list (list score))
          (charlist : list char),
      valid_matrix prob_matrix charlist ->
      exists idxs,
        map_result np_argmax prob_matrix = Ok idxs /\
        Forall2 is_argmax prob_matrix idxs) /\
  (forall (char : Type) (blank_char : char)
          (prob_matrix : list (list score)) (charlist : list char)
          (a : nat) (c : char),
      valid_matrix prob_matrix charlist ->
      Forall2 is_argmax prob_matrix [S a; 0; S a] ->
      nth_error charlist a = Some c ->
      decode blank_char prob_matrix charlist = Ok [c; c]) /\
  (forall (blank_char : ascii) (prob_matrix : list (list score)),
      valid_matrix prob_matrix abc_charlist ->
      Forall2 is_argmax prob_matrix [0; 0; 2; 2; 3; 0; 3] ->
      decode blank_char prob_matrix abc_charlist
      = Ok ["B"; "C"; "C"]%char).
Proof.
  split; [|split; [|split]].
  - intros. now apply decode_follows_spec.
  - intros char prob_matrix charlist Hrows.
    apply argmax_rows. eapply Forall_impl; [|exact Hrows].
    intros row [Hl Hr]. split.
    + destruct row; [discriminate|congruence].
    + eapply Forall_impl; [apply is_real_not_nan|exact Hr].
  - intros char blank_char prob_matrix charlist a c Hv Hidx Hc.
    assert (Hne : charlist <> []) by (intros ->; destruct a; discriminate).
    assert (Hlen : 2 <= length prob_matrix).
    { apply Forall2_length in Hidx. rewrite Hidx. simpl. lia. }
    destruct (decode_follows_spec blank_char Hne Hlen Hv Hidx)
      as (syms & -> & Hs).
    f_equal. apply map_Some_injective. rewrite Hs.
    cbn [collapse strip_blank map symbol_of Nat.eqb]. now rewrite Hc.
  - intros blank_char prob_matrix Hv Hidx.
    assert (Hlen : 2 <= length prob_matrix).
    { apply Forall2_length in Hidx. rewrite Hidx. simpl. lia. }
    destruct (@decode_follows_spec ascii blank_char prob_matrix abc_charlist
                [0; 0; 2; 2; 3; 0; 3]) as (syms & -> & Hs);
      [discriminate|assumption|assumption|assumption|].
    f_equal. apply map_Some_injective. rewrite Hs. reflexivity.
Qed.

Lemma decode_is_argmax_collapse_strip_lookup_witness :
  decode "~"%char bcc_matrix abc_charlist = Ok ["B"; "C"; "C"]%char.
Proof.
  apply (proj2 (proj2 (proj2 decode_is_argmax_collapse_strip_lookup))).
  - exact bcc_matrix_valid.
  - exact bcc_matrix_argmax.
Defined.

(** C5, as stated, fails: "BCC" holds the symbol "C" twice in a row, its two
    frames collapse into one, and decoding the re-expanded output gives
    "BC". *)
Lemma reexpansion_merges_repeated_symbols :
  valid_matrix bcc_matrix abc_charlist /\
  exists syms,
    decode "~"%char bcc_matrix abc_charlist = Ok syms /\
    syms = ["B"; "C"; "C"]%char /\
    decode "~"%char (expand ascii_dec abc_charlist syms) abc_charlist
    = Ok ["B"; "C"]%char /\
    decode "~"%char (expand ascii_dec abc_charlist syms) abc_charlist
    <> decode "~"%char bcc_matrix abc_charlist.
Proof.
  split; [exact bcc_matrix_valid|].
  exists ["B"; "C"; "C"]%char.
  split; [reflexivity|]. split; [reflexivity|]. split; [reflexivity|].
  discriminate.
Qed.

(** C5, amended.  When the decoded sequence has at least two symbols and no
    two neighbouring symbols are equal, decoding one frame per decoded
    symbol gives the decoded sequence again. *)
Theorem reexpansion_without_repeats (char : Type)
    (char_eq_dec : forall a b : char, {a = b} + {a <> b})
    (blank_char : char) (prob_matrix : list (list score))
    (charlist syms : list char) :
  decode blank_char prob_matrix charlist = Ok syms ->
  2 <= length syms ->
  no_adjacent_repeat syms ->
  decode blank_char (expand char_eq_dec charlist syms) charlist
  = decode blank_char prob_matrix charlist.
Proof.
  intros Hd Hlen Hrep. rewrite Hd.
  apply decode_expand; try assumption.
  eapply decode_symbols_in_charlist. eassumption.
Qed.

Lemma reexpansion_without_repeats_witness :
  decode "~"%char
         (expand ascii_dec abc_charlist ["A"; "B"; "C"]%char) abc_charlist
  = decode "~"%char abc_matrix abc_charlist.
Proof.
  apply (@reexpansion_without_repeats ascii ascii_dec "~"%char abc_matrix
           abc_charlist ["A"; "B"; "C"]%char).
  - reflexivity.
  - simpl. lia.
  - simpl. repeat split; discriminate.
Defined.

(* ================================================================== *)
(** * Further properties of the code *)

(** ** The top-k filter *)

Lemma count_map (f : score -> bool) (g : score -> score) (l : list score) :
  count f (map g l) = count (fun s => f (g s)) l.
Proof.
  unfold count. induction l as [|x t IH]; simpl; [reflexivity|].
  destruct (f (g x)); simpl; now rewrite IH.
Qed.

Lemma count_mono (f g : score -> bool) (l : list score) :
  (forall s, In s l -> f s = true -> g s = true) -> count f l <= count g l.
Proof.
  unfold count. induction l as [|x t IH]; simpl; intros H; [lia|].
  assert (IH' : length (filter f t) <= length (filter g t))
    by (apply IH; intros; apply H; auto).
  destruct (f x) eqn:E.
  - rewrite (H x (or_introl eq_refl) E). simpl. lia.
  - destruct (g x); simpl; lia.
Qed.

Lemma slt_then_sle (a b c : score) :
  slt a b = true -> sle b c = true -> slt a c = true.
Proof. destruct a, b, c; score_order. Qed.

Lemma keep_not_nan (kth s : score) :
  not_nan s -> not_nan (if sle kth s then s else NegInf).
Proof. intros H. destruct (sle kth s); [assumption|exact I]. Qed.

(** Two thresholds that keep at least [k1] and [k2] entries of the same
    row, with [k1 <= k2]: the second is not above the first. *)
Lemma kth_highest_antitone (l : list score) (k1 k2 : nat) (v1 v2 : score) :
  Forall not_nan l ->
  kth_highest l k1 v1 -> kth_highest l k2 v2 -> k1 <= k2 ->
  sle v2 v1 = true.
Proof.
  intros Hn (Hin1 & Hlt1 & _) (Hin2 & _ & Hle2) Hk.
  rewrite Forall_forall in Hn.
  destruct (slt v1 v2) eqn:E.
  - exfalso.
    assert (count (sle v2) l <= count (slt v1) l).
    { apply count_mono. intros s _ Hs. eapply slt_then_sle; eassumption. }
    lia.
  - apply slt_false_sle; auto.
Qed.

Lemma get_top_k_logits_nil (top_k : Z) :
  get_top_k_logits [] top_k = Raise ValueError.
Proof.
  rewrite get_top_k_logits_unfold.
  change (descending []) with (@nil score). now rewrite firstn_nil.
Qed.

(** X1.  On every non-empty row the filter returns a row of the same
    length (it raises only on the empty row, where [np.min] has nothing to
    reduce).  Without NaN, every entry comes back unchanged or as minus
    infinity, and the entry at the arg-max always comes back unchanged: the
    filter never empties the distribution. *)
Theorem top_k_keeps_shape_and_maximum :
  (forall top_k, get_top_k_logits [] top_k = Raise ValueError) /\
  (forall scores top_k,
      scores <> [] ->
      exists filtered,
        get_top_k_logits scores top_k = Ok filtered /\
        length filtered = length scores) /\
  (forall scores top_k filtered,
      Forall not_nan scores ->
      get_top_k_logits scores top_k = Ok filtered ->
      (forall i s, nth_error scores i = Some s ->
         nth_error filtered i = Some s \/
         nth_error filtered i = Some NegInf) /\
      (forall i, np_argmax scores = Ok i ->
         nth_error filtered i = nth_error scores i)).
Proof.
  split; [apply get_top_k_logits_nil|]. split.
  - intros scores top_k Hne. rewrite get_top_k_logits_unfold.
    destruct (@np_min_nonempty
                (firstn (Z.to_nat (Z.min (Z.max top_k 1)
                                         (Z.of_nat (length scores))))
                        (descending scores))) as [m Hm].
    { apply firstn_nonempty; [|now apply descending_nonempty].
      destruct scores; [congruence|simpl length; lia]. }
    rewrite Hm. cbn [bind]. eexists. split; [reflexivity|].
    apply length_map.
  - intros scores top_k filtered Hn Hf.
    assert (Hne : scores <> [])
    by (intros ->; rewrite get_top_k_logits_nil in *; discriminate).
    destruct (get_top_k_logits_threshold top_k Hne Hn) as (kth & Hkth & Heq).
    rewrite Heq in Hf. injection Hf as <-. split.
    + intros i s Hs.
      rewrite (map_nth_error _ _ _ Hs).
      destruct (sle kth s); auto.
    + intros i Hi.
      destruct (np_argmax_spec Hne Hn) as (i' & Hi' & (v & Hv & Hmax & _)).
      rewrite Hi in Hi'. injection Hi' as <-.
      rewrite (map_nth_error _ _ _ Hv), Hv.
      destruct Hkth as (Hin & _).
      apply In_nth_error in Hin. destruct Hin as [j Hj].
      now rewrite (Hmax _ _ Hj).
Qed.

Lemma top_k_keeps_shape_and_maximum_witness :
  exists filtered,
    get_top_k_logits [Fin 3; Fin 1; Fin 4; Fin 2] 2 = Ok filtered /\
    length filtered = 4 /\
    nth_error filtered 2 = Some (Fin 4).
Proof.
  destruct (proj1 (proj2 top_k_keeps_shape_and_maximum)
                  [Fin 3; Fin 1; Fin 4; Fin 2] 2%Z) as (f & Hf & Hl);
    [discriminate|].
  exists f. split; [exact Hf|]. split; [exact Hl|].
  apply (proj2 (proj2 (proj2 top_k_keeps_shape_and_maximum)
                      [Fin 3; Fin 1; Fin 4; Fin 2] 2%Z f
                      ltac:(repeat constructor) Hf) 2).
  reflexivity.
Defined.

(** X2.  Filtering twice with the same [top_k] changes nothing more: the
    filter is idempotent on rows without NaN. *)
Theorem top_k_is_idempotent (scores filtered : list score) (top_k : Z) :
  Forall not_nan scores ->
  get_top_k_logits scores top_k = Ok filtered ->
  get_top_k_logits filtered top_k = Ok filtered.
Proof.
  intros Hn Hf.
  assert (Hne : scores <> [])
    by (intros ->; rewrite get_top_k_logits_nil in *; discriminate).
  destruct (get_top_k_logits_threshold top_k Hne Hn) as (kth & Hkth & Heq).
  rewrite Heq in Hf. injection Hf as <-.
  set (keep := fun s => if sle kth s then s else NegInf).
  assert (Hn' : Forall not_nan (map keep scores)).
  { apply Forall_map. eapply Forall_impl; [|exact Hn].
    intros s. apply keep_not_nan. }
  assert (Hne' : map keep scores <> []) by (destruct scores; [congruence|discriminate]).
  destruct (get_top_k_logits_threshold top_k Hne' Hn') as (kth' & Hkth' & Heq').
  rewrite Heq'. f_equal. rewrite length_map in Hkth'.
  set (k := Z.to_nat (Z.min (Z.max top_k 1) (Z.of_nat (length scores)))) in *.
  destruct Hkth as (Hin & Hlt & Hle). destruct Hkth' as (Hin' & Hlt' & Hle').
  rewrite count_map in Hlt', Hle'.
  rewrite Forall_forall in Hn, Hn'.
  assert (Hk : not_nan kth) by auto.
  assert (Hk' : not_nan kth') by auto.
  assert (H1 : sle kth kth' = true).
  { apply slt_false_sle; auto.
    destruct (slt kth' kth) eqn:E; [exfalso|reflexivity].
    assert (count (sle kth) scores
            <= count (fun s => slt kth' (keep s)) scores).
    { apply count_mono. intros s _ Hs. unfold keep. rewrite Hs.
      eapply slt_then_sle; eassumption. }
    lia. }
  assert (H2 : sle kth' kth = true).
  { apply slt_false_sle; auto.
    destruct (slt kth kth') eqn:E; [exfalso|reflexivity].
    assert (count (fun s => sle kth' (keep s)) scores
            <= count (slt kth) scores).
    { apply count_mono. intros s _ Hs. unfold keep in Hs.
      destruct (sle kth s) eqn:Es.
      - eapply slt_then_sle; eassumption.
      - destruct kth'; try discriminate. destruct kth; discriminate. }
    lia. }
  rewrite map_map. apply map_ext. intros s. unfold keep.
  destruct (sle kth s) eqn:Es.
  - now rewrite (sle_trans _ _ _ H2 Es).
  - destruct (sle kth' NegInf); reflexivity.
Qed.

Lemma top_k_is_idempotent_witness :
  get_top_k_logits [Fin 3; NegInf; Fin 4; NegInf] 2
  = Ok [Fin 3; NegInf; Fin 4; NegInf].
Proof.
  apply (@top_k_is_idempotent [Fin 3; Fin 1; Fin 4; Fin 2]).
  - repeat constructor.
  - reflexivity.
Defined.

(** X3.  A larger [top_k] keeps everything a smaller one keeps: an entry
    that comes back unchanged under [k1] comes back unchanged under every
    [k2 >= k1]. *)
Theorem top_k_is_monotone_in_k (scores f1 f2 : list score) (k1 k2 : Z) :
  Forall not_nan scores ->
  (k1 <= k2)%Z ->
  get_top_k_logits scores k1 = Ok f1 ->
  get_top_k_logits scores k2 = Ok f2 ->
  forall i s,
    nth_error scores i = Some s ->
    nth_error f1 i = Some s ->
    nth_error f2 i = Some s.
Proof.
  intros Hn Hk H1 H2 i s Hs Hf1.
  assert (Hne : scores <> [])
    by (intros ->; rewrite get_top_k_logits_nil in *; discriminate).
  destruct (get_top_k_logits_threshold k1 Hne Hn) as (v1 & Hv1 & E1).
  destruct (get_top_k_logits_threshold k2 Hne Hn) as (v2 & Hv2 & E2).
  rewrite E1 in H1. injection H1 as <-.
  rewrite E2 in H2. injection H2 as <-.
  rewrite (map_nth_error _ _ _ Hs) in Hf1.
  rewrite (map_nth_error _ _ _ Hs).
  assert (Hle : sle v2 v1 = true).
  { eapply kth_highest_antitone; try eassumption. lia. }
  destruct (sle v1 s) eqn:Es.
  - now rewrite (sle_trans _ _ _ Hle Es).
  - injection Hf1 as <-.
    destruct (sle v2 NegInf); reflexivity.
Qed.

Lemma top_k_is_monotone_in_k_witness :
  nth_error [Fin 3; Fin 1; Fin 4; Fin 2] 0 = Some (Fin 3) /\
  nth_error [Fin 3; NegInf; Fin 4; Fin 2] 0 = Some (Fin 3).
Proof.
  split; [reflexivity|].
  apply (@top_k_is_monotone_in_k [Fin 3; Fin 1; Fin 4; Fin 2]
           [Fin 3; NegInf; Fin 4; NegInf] [Fin 3; NegInf; Fin 4; Fin 2]
           2 3 ltac:(repeat constructor) ltac:(lia)
           eq_refl eq_refl 0 (Fin 3) eq_refl eq_refl).
Defined.

(** ** Sampling *)

Lemma below_inf_not_nan (s : score) : below_inf s -> not_nan s.
Proof. destruct s; simpl; tauto. Qed.

(** A sampling step on a row of real scores and minus infinities with at
    least one real score: a token comes back, its score is real and at or
    above the k-th highest. *)
Lemma sample_token_finite (scores : list score) (top_k : Z) (u : R) :
  Forall below_inf scores ->
  (exists q, In (Fin q) scores) ->
  (0 <= u < 1)%R ->
  exists kth i q,
    kth_highest scores
      (Z.to_nat (Z.min (Z.max top_k 1) (Z.of_nat (length scores)))) kth /\
    sample_token scores top_k u = Ok i /\
    nth_error scores i = Some (Fin q) /\
    sle kth (Fin q) = true.
Proof.
  intros Hb [q0 Hq0] Hu.
  assert (Hne : scores <> []) by (intros ->; contradiction).
  assert (Hn : Forall not_nan scores)
    by (eapply Forall_impl; [apply below_inf_not_nan|exact Hb]).
  destruct (get_top_k_logits_threshold top_k Hne Hn) as (kth & Hkth & Hf).
  set (keep := fun s => if sle kth s then s else NegInf) in *.
  assert (Hb' : Forall below_inf (map keep scores)).
  { apply Forall_map. eapply Forall_impl; [|exact Hb].
    intros s Hs. unfold keep. destruct (sle kth s); [assumption|exact I]. }
  assert (Hq : exists q, In (Fin q) (map keep scores)).
  { destruct Hkth as (Hin & _).
    assert (Hk : below_inf kth) by (rewrite Forall_forall in Hb; auto).
    destruct kth as [| |q|]; try contradiction.
    - exists q0. apply in_map_iff. exists (Fin q0). split; [reflexivity|assumption].
    - exists q. apply in_map_iff. exists (Fin q). split; [|assumption].
      unfold keep. now rewrite sle_refl. }
  destruct (softmax_probabilities Hb' Hq)
    as (m & ps & _ & Hps & Hpos & Hsm & Hnonneg & Hsum).
  assert (Hpne : ps <> []) by (intros ->; simpl in Hsum; rlra).
  destruct (@np_random_choice_support ps u Hpne Hnonneg Hsum Hu)
    as (i & Hi & Hlt & Hpi).
  assert (Hlen : length ps = length scores)
    by (rewrite Hps, !length_map; reflexivity).
  destruct (nth_error scores i) as [s|] eqn:Es.
  2:{ apply nth_error_None in Es. lia. }
  rewrite Hps, map_map in Hpi.
  rewrite (nth_error_nth _ _ _ (map_nth_error _ _ _ Es)) in Hpi.
  assert (Hs : below_inf s)
    by (rewrite Forall_forall in Hb; eapply Hb, nth_error_In; eauto).
  assert (Hzero : forall c : R, ~ (0 < 0 / c)%R)
    by (intros c H; unfold Rdiv in H; rewrite Rmult_0_l in H; rlra).
  assert (Hkeep : exists q, s = Fin q /\ sle kth s = true).
  { unfold keep in Hpi at 1.
    destruct s as [| |q|]; try contradiction.
    - exfalso. destruct (sle kth NegInf); exact (Hzero _ Hpi).
    - destruct (sle kth (Fin q)) eqn:E; [eauto|].
      exfalso. exact (Hzero _ Hpi). }
  destruct Hkeep as (q & -> & Hle).
  exists kth, i, q. split; [assumption|].
  split; [|split; [exact Es|exact Hle]].
  unfold sample_token. rewrite Hf. simpl. rewrite Hsm. simpl. exact Hi.
Qed.

(** X4.  The sampled token is one of the [k] highest, [k] being [top_k]
    clamped to the vocabulary: its score is a real number (never a masked
    minus infinity) and fewer than [k] entries score strictly higher. *)
Theorem sampled_token_is_among_top_k (scores : list score) (top_k : Z)
    (u : R) :
  Forall below_inf scores ->
  (exists q, In (Fin q) scores) ->
  (0 <= u < 1)%R ->
  exists i q,
    sample_token scores top_k u = Ok i /\
    nth_error scores i = Some (Fin q) /\
    count (slt (Fin q)) scores
    < Z.to_nat (Z.min (Z.max top_k 1) (Z.of_nat (length scores))).
Proof.
  intros Hb Hq Hu.
  destruct (sample_token_finite top_k Hb Hq Hu)
    as (kth & i & q & (_ & Hlt & _) & Hs & Hi & Hle).
  exists i, q. split; [assumption|]. split; [assumption|].
  eapply Nat.le_lt_trans; [|exact Hlt].
  apply count_mono. intros s _ H.
  eapply sle_slt_trans; eassumption.
Qed.

Lemma sampled_token_is_among_top_k_witness :
  exists i q,
    sample_token [Fin 3; NegInf; Fin 4; Fin 2] 2 (1 / 2)%R = Ok i /\
    nth_error [Fin 3; NegInf; Fin 4; Fin 2] i = Some (Fin q) /\
    count (slt (Fin q)) [Fin 3; NegInf; Fin 4; Fin 2] < 2.
Proof.
  apply (@sampled_token_is_among_top_k [Fin 3; NegInf; Fin 4; Fin 2] 2).
  - repeat constructor.
  - exists 3%Q. now left.
  - rlra.
Defined.

Lemma nth_error_list_set {A : Type} (l : list A) (i j : nat) (v : A) :
  i < length l ->
  nth_error (list_set l i v) j =
  if j =? i then Some v else nth_error l j.
Proof.
  revert i j. induction l as [|x t IH]; intros i j Hi; [simpl in Hi; lia|].
  destruct i as [|i], j as [|j]; simpl; try reflexivity.
  apply IH. simpl in Hi. lia.
Qed.

Lemma length_list_set {A : Type} (l : list A) (i : nat) (v : A) :
  length (list_set l i v) = length l.
Proof.
  revert i. induction l as [|x t IH]; intros [|i]; simpl; auto.
Qed.

(** X5.  [process_logits] leaves the scores alone once the minimum length
    is reached.  Below it, an [eos_token_id] inside the row has its entry
    (counted from the end when negative) overwritten with minus infinity
    and nothing else changes; an [eos_token_id] outside the row raises
    IndexError. *)
Theorem process_logits_masks_only_eos (cur_length min_length eos_token_id : Z)
    (scores : list score) :
  ((min_length <= cur_length)%Z ->
   process_logits cur_length scores eos_token_id min_length = Ok scores) /\
  ((cur_length < min_length)%Z ->
   (- Z.of_nat (length scores) <= eos_token_id < Z.of_nat (length scores))%Z ->
   exists masked,
     process_logits cur_length scores eos_token_id min_length = Ok masked /\
     length masked = length scores /\
     forall j,
       nth_error masked j =
       if (Z.of_nat j =? eos_token_id mod Z.of_nat (length scores))%Z
       then Some NegInf
       else nth_error scores j) /\
  ((cur_length < min_length)%Z ->
   (eos_token_id < - Z.of_nat (length scores) \/
    Z.of_nat (length scores) <= eos_token_id)%Z ->
   process_logits cur_length scores eos_token_id min_length
   = Raise IndexError).
Proof.
  unfold process_logits, py_setitem.
  split; [|split].
  - intros H. apply Z.ltb_ge in H. now rewrite H.
  - intros H Hr. apply Z.ltb_lt in H. rewrite H.
    set (n := Z.of_nat (length scores)) in *.
    set (j0 := (if (eos_token_id <? 0)%Z then (eos_token_id + n)%Z
                else eos_token_id)).
    assert (Hj0 : (0 <= j0 < n)%Z /\ j0 = (eos_token_id mod n)%Z).
    { unfold j0. destruct (eos_token_id <? 0)%Z eqn:E.
      - apply Z.ltb_lt in E. split; [lia|].
        apply Z.mod_unique with (q := (-1)%Z); lia.
      - apply Z.ltb_ge in E. split; [lia|].
        symmetry. apply Z.mod_small. lia. }
    destruct Hj0 as [Hj0 Hmod].
    destruct (j0 <? 0)%Z eqn:E1; [apply Z.ltb_lt in E1; lia|].
    destruct (n <=? j0)%Z eqn:E2; [apply Z.leb_le in E2; lia|].
    cbn [orb]. eexists. split; [reflexivity|].
    split; [apply length_list_set|].
    intros j. rewrite nth_error_list_set by (unfold n in *; lia).
    rewrite <- Hmod.
    destruct (j =? Z.to_nat j0) eqn:Ej.
    + apply Nat.eqb_eq in Ej. subst j.
      rewrite Z2Nat.id by lia. now rewrite Z.eqb_refl.
    + apply Nat.eqb_neq in Ej.
      destruct (Z.of_nat j =? j0)%Z eqn:Ez; [|reflexivity].
      apply Z.eqb_eq in Ez. lia.
  - intros H Hr. apply Z.ltb_lt in H. rewrite H.
    set (n := Z.of_nat (length scores)) in *.
    destruct (eos_token_id <? 0)%Z eqn:E.
    + apply Z.ltb_lt in E.
      destruct (eos_token_id + n <? 0)%Z eqn:E1; [reflexivity|].
      apply Z.ltb_ge in E1. unfold n in *. lia.
    + apply Z.ltb_ge in E.
      destruct (eos_token_id <? 0)%Z eqn:E1; [apply Z.ltb_lt in E1; lia|].
      destruct (n <=? eos_token_id)%Z eqn:E2; [reflexivity|].
      apply Z.leb_gt in E2. unfold n in *. lia.
Qed.

Lemma process_logits_masks_only_eos_witness :
  exists masked,
    process_logits 3 [Fin 3; Fin 1; Fin 4] (-1) 5 = Ok masked /\
    length masked = 3.
Proof.
  destruct (proj1 (proj2 (process_logits_masks_only_eos
                            3 5 (-1) [Fin 3; Fin 1; Fin 4])))
    as (masked & H1 & H2 & _).
  - lia.
  - simpl. lia.
  - exists masked. auto.
Defined.

(** X6.  Below the minimum length the end marker cannot be sampled: after
    [process_logits] has masked it, the sampling step on a row of real
    scores with at least one other entry returns a token other than
    [eos_token_id]. *)
Theorem min_length_keeps_eos_from_being_sampled
    (cur_length min_length eos_token_id top_k : Z) (scores : list score)
    (u : R) :
  Forall is_real scores ->
  2 <= length scores ->
  (0 <= eos_token_id < Z.of_nat (length scores))%Z ->
  (cur_length < min_length)%Z ->
  (0 <= u < 1)%R ->
  exists masked tok,
    process_logits cur_length scores eos_token_id min_length = Ok masked /\
    sample_token masked top_k u = Ok tok /\
    Z.of_nat tok <> eos_token_id.
Proof.
  intros Hreal Hlen Heos Hcur Hu.
  unfold process_logits, py_setitem.
  apply Z.ltb_lt in Hcur. rewrite Hcur.
  destruct (eos_token_id <? 0)%Z eqn:E; [apply Z.ltb_lt in E; lia|].
  rewrite E.
  destruct (Z.of_nat (length scores) <=? eos_token_id)%Z eqn:E2;
    [apply Z.leb_le in E2; lia|].
  cbn [orb].
  set (e := Z.to_nat eos_token_id).
  assert (He : e < length scores) by (unfold e; lia).
  set (masked := list_set scores e (sneg PosInf)).
  assert (Hnth : forall j, nth_error masked j =
                           if j =? e then Some NegInf else nth_error scores j)
    by (intros j; apply nth_error_list_set; assumption).
  assert (Hb : Forall below_inf masked).
  { apply Forall_forall. intros s Hs.
    apply In_nth_error in Hs. destruct Hs as [j Hj]. rewrite Hnth in Hj.
    destruct (j =? e).
    - injection Hj as <-. exact I.
    - apply is_real_below_inf. rewrite Forall_forall in Hreal.
      eapply Hreal, nth_error_In. eassumption. }
  assert (Hq : exists q, In (Fin q) masked).
  { destruct (nth_error scores (if e =? 0 then 1 else 0)) as [s|] eqn:Es.
    2:{ apply nth_error_None in Es. destruct (e =? 0); lia. }
    assert (Hs : is_real s).
    { rewrite Forall_forall in Hreal. eapply Hreal, nth_error_In. eauto. }
    destruct s as [| |q|]; try contradiction.
    exists q. apply (@nth_error_In _ _ (if e =? 0 then 1 else 0)).
    rewrite Hnth, Es.
    destruct (e =? 0) eqn:E0.
    - apply Nat.eqb_eq in E0. rewrite E0. reflexivity.
    - apply Nat.eqb_neq in E0.
      destruct (0 =? e) eqn:E1; [apply Nat.eqb_eq in E1; lia|reflexivity]. }
  destruct (sample_token_finite top_k Hb Hq Hu)
    as (_ & tok & q & _ & Hs & Htok & _).
  exists masked, tok. split; [reflexivity|]. split; [assumption|].
  intros Heq. rewrite Hnth in Htok.
  replace (tok =? e) with true in Htok; [discriminate|].
  symmetry. apply Nat.eqb_eq. unfold e. lia.
Qed.

Lemma min_length_keeps_eos_from_being_sampled_witness :
  exists masked tok,
    process_logits 3 [Fin 3; Fin 9; Fin 4] 1 5 = Ok masked /\
    sample_token masked 20 (1 / 2)%R = Ok tok /\
    Z.of_nat tok <> 1%Z.
Proof.
  apply (@min_length_keeps_eos_from_being_sampled 3 5 1 20
           [Fin 3; Fin 9; Fin 4] (1 / 2)%R).
  - repeat constructor.
  - simpl. lia.
  - simpl. lia.
  - lia.
  - rlra.
Defined.

(** ** Softmax *)

Lemma weight_exp_score (m : Q) (s : score) :
  weight m s = (exp_score s * exp (- Q2R m))%R.
Proof.
  destruct s; simpl; try (now rewrite Rmult_0_l).
  rewrite Q2R_minus. unfold Rminus. apply exp_plus.
Qed.

Lemma Rsum_scale_r (c : R) (l : list R) :
  Rsum (map (fun w => w * c)%R l) = (Rsum l * c)%R.
Proof.
  induction l as [|r t IH]; simpl; [now rewrite Rmult_0_l|].
  rewrite IH. now rewrite Rmult_plus_distr_r.
Qed.

(** The probabilities of softmax in textbook form. *)
Lemma softmax_textbook (x : list score) :
  Forall below_inf x ->
  (exists q, In (Fin q) x) ->
  (0 < Rsum (map exp_score x))%R /\
  softmax x =
    Ok (map XFin (map (fun s => exp_score s / Rsum (map exp_score x))%R x)).
Proof.
  intros Hb Hq.
  destruct (softmax_probabilities Hb Hq) as (m & ps & _ & -> & Hpos & Hs & _).
  pose proof (exp_pos (- Q2R m)) as Hc.
  assert (Hsum : Rsum (map (weight m) x)
                 = (Rsum (map exp_score x) * exp (- Q2R m))%R).
  { rewrite (map_ext _ (fun s => (exp_score s * exp (- Q2R m))%R))
      by (intros; apply weight_exp_score).
    rewrite <- (map_map exp_score (fun w => (w * exp (- Q2R m))%R)).
    apply Rsum_scale_r. }
  assert (Hpos' : (0 < Rsum (map exp_score x))%R).
  { rewrite Hsum in Hpos.
    destruct (Rle_or_lt (Rsum (map exp_score x)) 0) as [Hle|]; [|assumption].
    exfalso.
    assert (Rsum (map exp_score x) * exp (- Q2R m) <= 0)%R; [|rlra].
    rewrite <- (Rmult_0_l (exp (- Q2R m))).
    apply Rmult_le_compat_r; rlra. }
  split; [assumption|].
  rewrite Hs. do 2 f_equal. apply map_ext. intros s.
  rewrite Hsum, weight_exp_score. field. split; rlra.
Qed.

(** X7.  Subtracting the row maximum does not change what softmax returns:
    in exact arithmetic the entry of a score [s] is [exp(s)] over the sum
    of all [exp], with [exp(-inf) = 0]. *)
Theorem softmax_is_textbook_softmax (x : list score) :
  Forall below_inf x ->
  (exists q, In (Fin q) x) ->
  softmax x =
    Ok (map XFin (map (fun s => exp_score s / Rsum (map exp_score x))%R x)).
Proof. intros Hb Hq. apply softmax_textbook; assumption. Qed.

Lemma softmax_is_textbook_softmax_witness :
  softmax [Fin 1; NegInf; Fin 2] =
    Ok (map XFin
          (map (fun s => exp_score s
                         / Rsum (map exp_score [Fin 1; NegInf; Fin 2]))%R
               [Fin 1; NegInf; Fin 2])).
Proof.
  apply softmax_is_textbook_softmax.
  - repeat constructor.
  - exists 1%Q. now left.
Defined.

Lemma exp_score_monotone (s s' : score) :
  below_inf s -> below_inf s' -> sle s s' = true ->
  (exp_score s <= exp_score s')%R.
Proof.
  destruct s as [| |q|], s' as [| |q'|]; simpl; try tauto; try discriminate;
    intros _ _ H.
  - rlra.
  - left. apply exp_pos.
  - apply Qle_bool_iff, Qle_Rle in H.
    destruct H as [H|H]; [left; now apply exp_increasing|right; now rewrite H].
Qed.

(** X8.  In exact arithmetic softmax keeps the order of the scores: an
    entry at minus infinity gets probability exactly zero, a score that is
    not above another does not get a higher probability, and the entry at
    the arg-max gets the highest probability of the row, which is
    positive. *)
Theorem softmax_preserves_order (x : list score) :
  Forall below_inf x ->
  (exists q, In (Fin q) x) ->
  exists ps,
    softmax x = Ok (map XFin ps) /\
    length ps = length x /\
    (forall i p, nth_error x i = Some NegInf -> nth_error ps i = Some p ->
       p = 0%R) /\
    (forall i j s s' p p',
       nth_error x i = Some s -> nth_error x j = Some s' ->
       nth_error ps i = Some p -> nth_error ps j = Some p' ->
       sle s s' = true -> (p <= p')%R) /\
    (forall i p, np_argmax x = Ok i -> nth_error ps i = Some p ->
       (0 < p)%R /\
       forall j p', nth_error ps j = Some p' -> (p' <= p)%R).
Proof.
  intros Hb Hq.
  destruct (softmax_textbook Hb Hq) as [Hpos Hs].
  set (T := Rsum (map exp_score x)) in *.
  exists (map (fun s => exp_score s / T)%R x).
  split; [assumption|]. split; [apply length_map|].
  assert (Hbn : Forall not_nan x)
    by (eapply Forall_impl; [apply below_inf_not_nan|exact Hb]).
  rewrite Forall_forall in Hb.
  assert (HT : (0 < / T)%R) by now apply Rinv_0_lt_compat.
  assert (Hord : forall i j s s' p p',
            nth_error x i = Some s -> nth_error x j = Some s' ->
            nth_error (map (fun s => exp_score s / T)%R x) i = Some p ->
            nth_error (map (fun s => exp_score s / T)%R x) j = Some p' ->
            sle s s' = true -> (p <= p')%R).
  { intros i j s s' p p' Hi Hj Hp Hp' Hle.
    rewrite (map_nth_error _ _ _ Hi) in Hp. injection Hp as <-.
    rewrite (map_nth_error _ _ _ Hj) in Hp'. injection Hp' as <-.
    unfold Rdiv. apply Rmult_le_compat_r; [rlra|].
    apply exp_score_monotone; try assumption;
      eapply Hb, nth_error_In; eauto. }
  split; [|split; [exact Hord|]].
  - intros i p Hi Hp. rewrite (map_nth_error _ _ _ Hi) in Hp.
    injection Hp as <-. simpl. unfold Rdiv. now rewrite Rmult_0_l.
  - intros i p Hi Hp.
    assert (Hne : x <> []) by (destruct Hq as [q Hq]; now destruct x).
    destruct (np_argmax_spec Hne Hbn) as (i' & Hi' & v & Hv & Hle & _).
    rewrite Hi in Hi'. injection Hi' as <-.
    split.
    + destruct Hq as [q Hq]. apply In_nth_error in Hq.
      destruct Hq as [k Hk]. pose proof (Hle _ _ Hk) as Hqv.
      assert (Hvb : below_inf v) by (eapply Hb, nth_error_In; eauto).
      rewrite (map_nth_error _ _ _ Hv) in Hp. injection Hp as <-.
      destruct v as [| |qv|]; try contradiction; try discriminate.
      simpl. unfold Rdiv. apply Rmult_lt_0_compat; [apply exp_pos|exact HT].
    + intros j p' Hp'.
      destruct (nth_error x j) as [w|] eqn:Hw.
      * apply (Hord j i w v p' p); auto. exact (Hle _ _ Hw).
      * apply nth_error_None in Hw.
        assert (nth_error (map (fun s => exp_score s / T)%R x) j = None)
          by (apply nth_error_None; rewrite length_map; lia).
        congruence.
Qed.

(** A row with a masked entry: the masked entry gets zero, the lower score
    gets no more than the higher one, and the highest gets a positive
    probability. *)
Lemma softmax_preserves_order_witness :
  exists p0 p1 p2 : R,
    softmax [Fin 1; NegInf; Fin 2] = Ok [XFin p0; XFin p1; XFin p2] /\
    p1 = 0%R /\ (p1 <= p0 <= p2)%R /\ (0 < p2)%R.
Proof.
  destruct (@softmax_preserves_order [Fin 1; NegInf; Fin 2])
    as (ps & Hs & Hlen & Hzero & Hord & Hmax).
  - repeat constructor.
  - exists 1%Q. now left.
  - destruct ps as [|p0 [|p1 [|p2 [|p3 ps]]]]; try discriminate.
    exists p0, p1, p2. split; [exact Hs|].
    split; [exact (Hzero 1 p1 eq_refl eq_refl)|].
    split; [split|].
    + exact (Hord 1 0 NegInf (Fin 1) p1 p0 eq_refl eq_refl eq_refl eq_refl
                  eq_refl).
    + exact (Hord 0 2 (Fin 1) (Fin 2) p0 p2 eq_refl eq_refl eq_refl eq_refl
                  eq_refl).
    + exact (proj1 (Hmax 2 p2 eq_refl eq_refl)).
Defined.

Lemma fold_smax_neg_inf (n : nat) :
  fold_left smax (repeat NegInf n) NegInf = NegInf.
Proof. induction n as [|n IH]; simpl; [reflexivity|exact IH]. Qed.

(** X9.  Softmax raises only on the empty row.  On a row that holds nothing
    but minus infinity every entry comes out NaN, and a sampling step on
    such a row raises ValueError instead of returning a token. *)
Theorem softmax_of_masked_row_is_nan :
  softmax [] = Raise ValueError /\
  (forall x, x <> [] ->
     exists r, softmax x = Ok r /\ length r = length x) /\
  (forall n, 0 < n ->
     softmax (repeat NegInf n) = Ok (repeat XNaN n)) /\
  (forall n top_k u, 0 < n ->
     sample_token (repeat NegInf n) top_k u = Raise ValueError).
Proof.
  assert (Hsoft : forall n, 0 < n ->
            softmax (repeat NegInf n) = Ok (repeat XNaN n)).
  { intros [|n] Hn; [lia|]. unfold softmax.
    cbn [repeat np_max]. rewrite fold_smax_neg_inf. cbn [bind].
    f_equal.
    change (NegInf :: repeat NegInf n) with (repeat NegInf (S n)).
    now rewrite !map_repeat. }
  split; [reflexivity|]. split; [|split; [exact Hsoft|]].
  - intros x Hne. unfold softmax.
    destruct x as [|s t]; [congruence|]. cbn [np_max bind].
    eexists. split; [reflexivity|]. now rewrite !length_map.
  - intros n top_k u Hn. unfold sample_token.
    assert (Hf : get_top_k_logits (repeat NegInf n) top_k
                 = Ok (repeat NegInf n)).
    { destruct (@get_top_k_logits_threshold (repeat NegInf n) top_k)
        as (kth & (Hin & _) & Heq).
      - destruct n; [lia|discriminate].
      - apply Forall_forall. intros s Hs. apply repeat_spec in Hs.
        now subst s.
      - apply repeat_spec in Hin. subst kth. rewrite Heq. f_equal.
        rewrite <- (map_id (repeat NegInf n)) at 2.
        apply map_ext_in. intros s Hs. apply repeat_spec in Hs.
        now subst s. }
    rewrite Hf. cbn [bind]. rewrite (Hsoft n Hn). cbn [bind].
    unfold np_random_choice. rewrite repeat_length.
    destruct (n =? 0) eqn:E; [reflexivity|]. rewrite Nat.eqb_refl. cbn [negb].
    destruct n; [lia|]. reflexivity.
Qed.

Lemma softmax_of_masked_row_is_nan_witness :
  sample_token (repeat NegInf 3) 20 (1 / 2)%R = Raise ValueError.
Proof.
  apply (proj2 (proj2 (proj2 softmax_of_masked_row_is_nan))). lia.
Defined.

(** ** The generation loop *)

(** X10.  Every token a run appends is an index into the vocabulary: with
    an engine that honours its contract and returns rows of [vocab_size]
    logits, the returned sequence is the prompt followed by tokens in
    [[0, vocab_size)]. *)
Theorem generated_tokens_are_vocabulary_indices
    (compiled_model : list Z -> list Z -> result (list (list score)))
    (random_sample : nat -> R) (max_sequence_length eos_token_id : Z)
    (dynamic_shapes : bool) (vocab_size fuel : nat)
    (prompt mask returned : list Z) (its : list iteration) :
  engine_ok compiled_model ->
  (forall ids m outputs row,
      compiled_model ids m = Ok outputs -> In row outputs ->
      length row = vocab_size) ->
  draws_ok random_sample ->
  prompt <> [] ->
  generate_sequence compiled_model random_sample max_sequence_length
                    eos_token_id dynamic_shapes fuel prompt mask
  = (Returned returned, its) ->
  exists appended,
    returned = prompt ++ appended /\
    Forall (fun t => (0 <= t < Z.of_nat vocab_size)%Z) appended.
Proof.
  intros He Hv Hd Hne Hrun.
  destruct (run_trace _ _ _ _ _ _ _ _ _ Hrun)
    as (toks & _ & _ & Hsm & -> & _).
  exists toks. split; [reflexivity|].
  apply Forall_forall. intros tok Hin.
  apply In_nth_error in Hin. destruct Hin as [i Hi].
  destruct (Hsm _ _ Hi) as (t & Ht & ->). simpl in Ht.
  destruct (@next_token_in_vocab compiled_model random_sample
              max_sequence_length eos_token_id dynamic_shapes i
              (prompt ++ firstn i toks) (mask ++ repeat 1%Z i) He (Hd i))
    as (t' & outputs & row & Ht' & Ho & Hrow & Hlt).
  { destruct prompt; [congruence|discriminate]. }
  rewrite Ht in Ht'. injection Ht' as <-.
  rewrite (Hv _ _ _ _ Ho Hrow) in Hlt. lia.
Qed.

(** The run of three iterations: the two tokens it appends are indices
    into the vocabulary of two. *)
Lemma generated_tokens_are_vocabulary_indices_witness :
  fst (generate_sequence (constant_model [Fin 5; Fin 5]) late_draws 10 1 true
                         5 [7%Z] [1%Z])
  = Returned ([7%Z] ++ [0%Z; 0%Z]) /\
  Forall (fun t => (0 <= t < 2)%Z) [0%Z; 0%Z].
Proof.
  destruct (@generated_tokens_are_vocabulary_indices
              (constant_model [Fin 5; Fin 5]) late_draws 10 1 true 2 5
              [7%Z] [1%Z] [7%Z; 0%Z; 0%Z]
              (snd (generate_sequence (constant_model [Fin 5; Fin 5])
                                      late_draws 10 1 true 5 [7%Z] [1%Z])))
    as (appended & Happ & Hall).
  - apply constant_model_ok; [discriminate|repeat constructor].
  - intros ids m outputs row Ho Hin. unfold constant_model in Ho.
    injection Ho as <-. apply in_map_iff in Hin.
    destruct Hin as (_ & <- & _). reflexivity.
  - apply late_draws_ok.
  - discriminate.
  - now rewrite late_run.
  - injection Happ as <-. split; [now rewrite late_run|exact Hall].
Defined.

(** The last iteration of a run that returns is the one whose body
    breaks, at the returned sequence. *)
Lemma run_returned_at_break
    (compiled_model : list Z -> list Z -> result (list (list score)))
    (random_sample : nat -> R) (max_sequence_length eos_token_id : Z)
    (dynamic_shapes : bool) (fuel : nat) :
  forall n ids mask returned its,
    while_true compiled_model random_sample max_sequence_length
               eos_token_id dynamic_shapes fuel n ids mask
    = (Returned returned, its) ->
    1 <= length its /\
    fst (loop_body compiled_model random_sample max_sequence_length
                   eos_token_id dynamic_shapes (n + (length its - 1))
                   returned (mask ++ repeat 1%Z (length its - 1)))
    = Ok Break.
Proof.
  induction fuel as [|fuel IH]; intros n ids mask returned its Hrun;
    [discriminate|].
  rewrite run_unfold in Hrun.
  destruct (fst (loop_body _ _ _ _ _ n ids mask))
    as [[|ids' mask']|e] eqn:Eb; [| |discriminate].
  - injection Hrun as <- <-. simpl.
    rewrite Nat.add_0_r, app_nil_r. split; [lia|exact Eb].
  - destruct (while_true _ _ _ _ _ fuel (S n) ids' mask') as [o its'] eqn:Er.
    injection Hrun as -> <-.
    destruct (IH _ _ _ _ _ Er) as [Hlen Hb].
    apply loop_body_continue in Eb as (t & _ & _ & -> & _).
    split; [simpl; lia|].
    simpl length. replace (S (length its') - 1) with (S (length its' - 1))
      by lia.
    rewrite repeat_S_snoc, Nat.add_succ_r.
    rewrite <- app_assoc in Hb.
    replace (repeat 1%Z (length its' - 1) ++ [1%Z])
      with ([1%Z] ++ repeat 1%Z (length its' - 1));
      [exact Hb|].
    simpl. apply repeat_cons.
Qed.

(** X11.  A run stops early only on the end marker: when the returned
    sequence is not exactly [max_sequence_length] long, the token sampled
    in the last iteration was [eos_token_id].  In any case the last
    iteration did sample a token, which the result leaves out. *)
Theorem early_return_means_eos_was_sampled
    (compiled_model : list Z -> list Z -> result (list (list score)))
    (random_sample : nat -> R) (max_sequence_length eos_token_id : Z)
    (dynamic_shapes : bool) (fuel : nat)
    (prompt mask returned : list Z) (its : list iteration) :
  generate_sequence compiled_model random_sample max_sequence_length
                    eos_token_id dynamic_shapes fuel prompt mask
  = (Returned returned, its) ->
  exists tok,
    fst (next_token compiled_model random_sample max_sequence_length
                    eos_token_id dynamic_shapes (length its - 1) returned
                    (mask ++ repeat 1%Z (length its - 1))) = Ok tok /\
    (Z.of_nat (length returned) <> max_sequence_length ->
     Z.of_nat tok = eos_token_id).
Proof.
  intros Hrun.
  apply run_returned_at_break in Hrun as [_ Hb].
  apply loop_body_break in Hb as (tok & Ht & Hor).
  exists tok. split; [exact Ht|]. intros Hne. tauto.
Qed.

(** The run of three iterations returns three tokens under the bound 10:
    an early return, and the token its third iteration sampled is the end
    marker 1. *)
Lemma early_return_means_eos_was_sampled_witness :
  fst (generate_sequence (constant_model [Fin 5; Fin 5]) late_draws 10 1 true
                         5 [7%Z] [1%Z])
  = Returned [7%Z; 0%Z; 0%Z] /\
  Z.of_nat (length [7%Z; 0%Z; 0%Z]) <> 10%Z /\
  exists tok,
    fst (next_token (constant_model [Fin 5; Fin 5]) late_draws 10 1 true
                    2 [7%Z; 0%Z; 0%Z] [1%Z; 1%Z; 1%Z]) = Ok tok /\
    Z.of_nat tok = 1%Z.
Proof.
  assert (Hearly : Z.of_nat (length [7%Z; 0%Z; 0%Z]) <> 10%Z)
    by discriminate.
  destruct (@early_return_means_eos_was_sampled
              (constant_model [Fin 5; Fin 5]) late_draws 10 1 true 5
              [7%Z] [1%Z] _ _ late_run) as (tok & Htok & Heos).
  split; [now rewrite late_run|]. split; [exact Hearly|].
  exists tok. split; [exact Htok|exact (Heos Hearly)].
Defined.

Lemma started_padded (max_sequence_length eos_token_id : Z)
    (ids mask : list Z) :
  started max_sequence_length eos_token_id false ids mask =
  mk_iteration ids mask
    (ids ++ repeat eos_token_id
              (Z.to_nat (max_sequence_length - Z.of_nat (length ids))))
    (mask ++ repeat 0%Z
               (Z.to_nat (max_sequence_length - Z.of_nat (length ids)))).
Proof. reflexivity. Qed.

(** X12.  Without dynamic shapes, a run from a prompt no longer than
    [max_sequence_length] hands the engine a fixed shape: every call the
    bodies make passes the current sequence padded with [eos_token_id] to
    exactly [max_sequence_length] entries, and the current mask padded with
    as many zeros.  The body uses the engine at that padded input and
    nowhere else: two engines that answer alike there give the same step.
    A sequence longer than the bound is handed over unpadded, at its own
    length. *)
Theorem fixed_shape_inputs_are_padded_to_max
    (compiled_model : list Z -> list Z -> result (list (list score)))
    (random_sample : nat -> R) (max_sequence_length eos_token_id : Z) :
  (forall fuel n ids mask o its,
      (Z.of_nat (length ids) <= max_sequence_length)%Z ->
      while_true compiled_model random_sample max_sequence_length
                 eos_token_id false fuel n ids mask = (o, its) ->
      Forall (fun it =>
                Z.of_nat (length (model_input_ids it)) = max_sequence_length /\
                exists pad,
                  model_input_ids it
                  = at_input_ids it ++ repeat eos_token_id pad /\
                  model_input_attention_mask it
                  = at_attention_mask it ++ repeat 0%Z pad)
             its) /\
  (forall other_model n ids mask pad,
      (Z.of_nat (length ids) + Z.of_nat pad = max_sequence_length)%Z ->
      other_model (ids ++ repeat eos_token_id pad) (mask ++ repeat 0%Z pad)
      = compiled_model (ids ++ repeat eos_token_id pad)
                       (mask ++ repeat 0%Z pad) ->
      loop_body other_model random_sample max_sequence_length
                eos_token_id false n ids mask
      = loop_body compiled_model random_sample max_sequence_length
                  eos_token_id false n ids mask) /\
  (forall ids mask,
      (max_sequence_length < Z.of_nat (length ids))%Z ->
      model_input max_sequence_length eos_token_id false ids mask
      = (ids, mask)).
Proof.
  split; [|split].
  - induction fuel as [|fuel IH]; intros n ids mask o its Hlen Hrun.
    + injection Hrun as <- <-. constructor.
    + rewrite run_unfold in Hrun.
      assert (Hhead : Z.of_nat (length (model_input_ids
                        (started max_sequence_length eos_token_id false
                                 ids mask))) = max_sequence_length /\
                      exists pad,
                        model_input_ids
                          (started max_sequence_length eos_token_id false
                                   ids mask)
                        = at_input_ids
                            (started max_sequence_length eos_token_id false
                                     ids mask)
                          ++ repeat eos_token_id pad /\
                        model_input_attention_mask
                          (started max_sequence_length eos_token_id false
                                   ids mask)
                        = at_attention_mask
                            (started max_sequence_length eos_token_id false
                                     ids mask)
                          ++ repeat 0%Z pad).
      { rewrite started_padded. cbn [model_input_ids at_input_ids
          model_input_attention_mask at_attention_mask].
        split; [rewrite length_app, repeat_length; lia|eauto]. }
      destruct (fst (loop_body _ _ _ _ _ n ids mask))
        as [[|ids' mask']|e] eqn:Eb.
      * injection Hrun as <- <-. constructor; [exact Hhead|constructor].
      * destruct (while_true _ _ _ _ _ fuel (S n) ids' mask')
          as [o' its'] eqn:Er.
        injection Hrun as <- <-.
        apply loop_body_continue in Eb as (t & _ & -> & -> & _ & Hne).
        constructor; [exact Hhead|].
        apply (IH _ _ _ _ _) with (2 := Er).
        rewrite length_app. cbn [length]. lia.
      * injection Hrun as <- <-. constructor; [exact Hhead|constructor].
  - intros other_model n ids mask pad Hpad Hsame.
    unfold loop_body, next_token, infer, model_input, py_repeat.
    cbn [negb].
    replace (Z.to_nat (max_sequence_length - Z.of_nat (length ids)))
      with pad by lia.
    now rewrite Hsame.
  - intros ids mask Hlen. unfold model_input, py_repeat. cbn [negb].
    replace (Z.to_nat (max_sequence_length - Z.of_nat (length ids)))
      with 0 by lia.
    simpl. now rewrite !app_nil_r.
Qed.

(** The run of three iterations under fixed shapes and the bound 4: each
    of its three calls passes four ids, the sequence followed by end
    markers, and four mask entries, the mask followed by zeros. *)
Lemma fixed_shape_inputs_are_padded_to_max_witness :
  map (fun it => (model_input_ids it, model_input_attention_mask it))
      (snd (generate_sequence (constant_model [Fin 5; Fin 5]) late_draws
                              4 1 false 5 [7%Z] [1%Z]))
  = [([7%Z; 1%Z; 1%Z; 1%Z], [1%Z; 0%Z; 0%Z; 0%Z]);
     ([7%Z; 0%Z; 1%Z; 1%Z], [1%Z; 1%Z; 0%Z; 0%Z]);
     ([7%Z; 0%Z; 0%Z; 1%Z], [1%Z; 1%Z; 1%Z; 0%Z])] /\
  Forall (fun it => Z.of_nat (length (model_input_ids it)) = 4%Z /\
                    exists pad,
                      model_input_ids it
                      = at_input_ids it ++ repeat 1%Z pad /\
                      model_input_attention_mask it
                      = at_attention_mask it ++ repeat 0%Z pad)
         (snd (generate_sequence (constant_model [Fin 5; Fin 5]) late_draws
                                 4 1 false 5 [7%Z] [1%Z])).
Proof.
  split; [now rewrite late_run_fixed|].
  apply (proj1 (fixed_shape_inputs_are_padded_to_max
                  (constant_model [Fin 5; Fin 5]) late_draws 4 1)
               5 0 [7%Z] [1%Z]
               (fst (generate_sequence (constant_model [Fin 5; Fin 5])
                                       late_draws 4 1 false 5 [7%Z] [1%Z]))).
  - simpl. lia.
  - apply surjective_pairing.
Defined.

(** ** The decoder: errors, invariance and the empty output *)

Lemma np_squeeze_cases (rows : list (list score)) :
  np_squeeze rows = Rank2 rows \/ np_squeeze rows = RankBelow2.
Proof. unfold np_squeeze. destruct (_ || _); auto. Qed.

Lemma map_result_length {A B : Type} (f : A -> result B) (l : list A)
    (ys : list B) :
  map_result f l = Ok ys -> length ys = length l.
Proof.
  intros H. apply map_result_inv in H.
  induction H; simpl; congruence.
Qed.

Lemma map_result_app {A B : Type} (f : A -> result B) (l1 l2 : list A)
    (y1 y2 : list B) :
  map_result f l1 = Ok y1 -> map_result f l2 = Ok y2 ->
  map_result f (l1 ++ l2) = Ok (y1 ++ y2).
Proof.
  revert y1. induction l1 as [|x t IH]; simpl; intros y1 H1 H2.
  - injection H1 as <-. exact H2.
  - destruct (f x) as [y|e]; [|discriminate]. cbn [bind] in *.
    destruct (map_result f t) as [ys|e]; [|discriminate]. cbn [bind] in *.
    injection H1 as <-. now rewrite (IH ys eq_refl H2).
Qed.

Lemma map_result_app_inv {A B : Type} (f : A -> result B) (l1 l2 : list A)
    (ys : list B) :
  map_result f (l1 ++ l2) = Ok ys ->
  exists y1 y2,
    map_result f l1 = Ok y1 /\ map_result f l2 = Ok y2 /\ ys = y1 ++ y2.
Proof.
  revert ys. induction l1 as [|x t IH]; simpl; intros ys H.
  - exists [], ys. auto.
  - destruct (f x) as [y|e]; [|discriminate]. cbn [bind] in *.
    destruct (map_result f (t ++ l2)) as [ys'|e] eqn:E; [|discriminate].
    cbn [bind] in H. injection H as <-.
    destruct (IH ys' eq_refl) as (y1 & y2 & -> & H2 & ->).
    exists (y :: y1), y2. auto.
Qed.

Lemma collapse_cons2 (x y : nat) (t : list nat) :
  collapse (x :: y :: t) =
  if x =? y then collapse (y :: t) else x :: collapse (y :: t).
Proof. reflexivity. Qed.

(** A frame repeated next to itself collapses away. *)
Lemma collapse_repeated (pre post : list nat) (a : nat) :
  collapse (pre ++ a :: a :: post) = collapse (pre ++ a :: post).
Proof.
  induction pre as [|x pre IH].
  - simpl app. rewrite collapse_cons2. now rewrite Nat.eqb_refl.
  - destruct pre as [|y pre'].
    + simpl app in *. rewrite !(collapse_cons2 x a). now rewrite IH.
    + simpl app in *. rewrite !(collapse_cons2 x y). now rewrite IH.
Qed.

Lemma collapse_keeps (l : list nat) (i : nat) : In i l -> In i (collapse l).
Proof.
  induction l as [|x t IH]; [auto|]. intros Hin.
  destruct t as [|y t']; [exact Hin|].
  rewrite collapse_cons2.
  destruct (x =? y) eqn:E.
  - apply Nat.eqb_eq in E. subst y. apply IH.
    destruct Hin as [<-|Hin]; [now left|assumption].
  - destruct Hin as [<-|Hin]; [now left|right; now apply IH].
Qed.

Lemma strip_blank_keeps (l : list nat) (i : nat) :
  In i l -> i <> 0 -> In i (strip_blank l).
Proof.
  induction l as [|[|x] t IH]; simpl; [tauto| |]; intros Hin Hi.
  - destruct Hin as [<-|Hin]; [congruence|auto].
  - destruct Hin as [<-|Hin]; [now left|right; auto].
Qed.

Lemma collapse_length (l : list nat) : length (collapse l) <= length l.
Proof.
  induction l as [|x t IH]; [simpl; lia|].
  destruct t as [|y t']; [simpl; lia|].
  rewrite collapse_cons2. destruct (x =? y); simpl in *; lia.
Qed.

Lemma strip_blank_length (l : list nat) : length (strip_blank l) <= length l.
Proof. induction l as [|[|x] t IH]; simpl; lia. Qed.

Lemma strip_collapse_nil (l : list nat) :
  strip_blank (collapse l) = [] <-> Forall (fun i => i = 0) l.
Proof.
  split.
  - intros H. apply Forall_forall. intros i Hi.
    destruct i as [|i]; [reflexivity|exfalso].
    assert (Hin : In (S i) (strip_blank (collapse l)))
      by (apply strip_blank_keeps; [now apply collapse_keeps|discriminate]).
    rewrite H in Hin. contradiction.
  - intros H.
    destruct (strip_blank (collapse l)) as [|i r] eqn:E; [reflexivity|].
    exfalso.
    assert (Hin : In i (strip_blank (collapse l))) by (rewrite E; now left).
    apply strip_blank_In in Hin. destruct Hin as [Hin Hi].
    apply collapse_In in Hin. rewrite Forall_forall in H. auto.
Qed.

Lemma argmax_from_lt (l : list score) (best_i i : nat) (best : score) :
  best_i < i -> argmax_from best_i best i l < i + length l.
Proof.
  revert best_i i best. induction l as [|x t IH]; intros best_i i best H;
    simpl; [lia|].
  destruct (better x best).
  - specialize (IH i (S i) x). lia.
  - specialize (IH best_i (S i) best). lia.
Qed.

(** The arg-max is an index of the row (also in the presence of NaN). *)
Lemma np_argmax_lt (row : list score) (i : nat) :
  np_argmax row = Ok i -> i < length row.
Proof.
  destruct row as [|x t]; [discriminate|]. simpl. intros [= <-].
  pose proof (@argmax_from_lt t 0 1 x). lia.
Qed.

Section DecoderEdges.

Variable char : Type.
Variable blank_char : char.

Let lookup (letters : list char) :=
  fun letter_index : nat => py_getitem letters (Z.of_nat letter_index).

(** What a successful decoding went through. *)
Lemma decode_inv (prob_matrix : list (list score)) (charlist syms : list char) :
  decode blank_char prob_matrix charlist = Ok syms ->
  exists idxs,
    np_squeeze prob_matrix = Rank2 prob_matrix /\
    map_result np_argmax prob_matrix = Ok idxs /\
    idxs <> [] /\
    map_result (lookup (letters_of blank_char charlist))
               (strip_blank (collapse idxs)) = Ok syms.
Proof.
  unfold decode, output_text.
  destruct (np_squeeze_cases prob_matrix) as [E|E]; rewrite E;
    cbn [np_argmax_axis1]; [|discriminate].
  destruct (map_result np_argmax prob_matrix) as [idxs|e] eqn:Em;
    [|discriminate].
  cbn [bind]. pose proof (groupby_keys idxs) as Hk.
  destruct (groupby idxs) as [|p ps] eqn:Eg; [discriminate|].
  cbn [np_transpose_pairs bind fst]. rewrite mask_strip_blank, Hk.
  intros H. exists idxs. repeat split; try assumption.
  intros ->. discriminate.
Qed.

Lemma lookup_raises_only_index_error (letters : list char) (i : nat) :
  (exists c, lookup letters i = Ok c /\ i < length letters) \/
  (lookup letters i = Raise IndexError /\ length letters <= i).
Proof.
  unfold lookup. rewrite py_getitem_nat.
  destruct (nth_error letters i) as [c|] eqn:E.
  - left. exists c. split; [reflexivity|].
    apply nth_error_Some. congruence.
  - right. split; [reflexivity|]. now apply nth_error_None.
Qed.

Lemma lookup_all (letters : list char) (idxs : list nat) :
  (Forall (fun i => i < length letters) idxs ->
   exists syms, map_result (lookup letters) idxs = Ok syms) /\
  (Exists (fun i => length letters <= i) idxs ->
   map_result (lookup letters) idxs = Raise IndexError).
Proof.
  induction idxs as [|i t [IH1 IH2]]; split.
  - intros _. exists []. reflexivity.
  - intros H. inversion H.
  - intros H. inversion H as [|? ? Hi Ht]; subst.
    destruct (lookup_raises_only_index_error letters i)
      as [(c & Hc & _)|[_ Hbad]]; [|lia].
    destruct (IH1 Ht) as [syms Hs].
    exists (c :: syms). cbn [map_result]. now rewrite Hc, Hs.
  - intros H. cbn [map_result].
    destruct (lookup_raises_only_index_error letters i)
      as [(c & Hc & Hlt)|[Hc _]]; rewrite Hc; cbn [bind]; [|reflexivity].
    inversion H as [? ? Hi|? ? Ht]; subst; [lia|].
    now rewrite (IH2 Ht).
Qed.

End DecoderEdges.

(** A matrix that decodes has at least two rows of at least two scores. *)
Lemma decode_ok_shape (char : Type) (blank_char : char)
    (prob_matrix : list (list score)) (charlist syms : list char) :
  decode blank_char prob_matrix charlist = Ok syms ->
  2 <= length prob_matrix /\ 2 <= shape1 prob_matrix.
Proof.
  intros H.
  apply decode_inv in H as (idxs & Hsq & Hm & Hne & _).
  unfold np_squeeze in Hsq.
  destruct prob_matrix as [|row t].
  { simpl in Hm. injection Hm as <-. congruence. }
  cbn [shape1].
  destruct ((length (row :: t) =? 1) || (length row =? 1)) eqn:E;
    [discriminate|].
  apply orb_false_iff in E. destruct E as [E1 E2].
  apply Nat.eqb_neq in E1, E2.
  split; [simpl in *; lia|].
  destruct row as [|s [|s' r]]; simpl in *; try lia; discriminate.
Qed.

(** X13.  The decoder needs at least two frames and two labels.  One frame
    alone raises AxisError ([np.squeeze] also drops the time axis), no
    frame raises ValueError, and whenever the decoding succeeds the matrix
    had at least two rows of at least two scores. *)
Theorem decode_needs_two_frames (char : Type) (blank_char : char)
    (charlist : list char) :
  (forall row, decode blank_char [row] charlist = Raise AxisError) /\
  decode blank_char [] charlist = Raise ValueError /\
  (forall prob_matrix syms,
      decode blank_char prob_matrix charlist = Ok syms ->
      2 <= length prob_matrix /\ 2 <= shape1 prob_matrix).
Proof.
  split; [reflexivity|]. split; [reflexivity|].
  intros prob_matrix syms H. eapply decode_ok_shape. eassumption.
Qed.

Lemma decode_needs_two_frames_witness :
  2 <= length bcc_matrix /\ 2 <= shape1 bcc_matrix.
Proof.
  apply (proj2 (proj2 (decode_needs_two_frames "~"%char abc_charlist))
               bcc_matrix ["B"; "C"; "C"]%char).
  reflexivity.
Defined.

(** X14.  What the decoder returns is never longer than the number of
    frames, and every symbol of it is a symbol of the charlist: the blank
    marker at index 0 of the letters is never returned. *)
Theorem decoded_symbols_come_from_charlist (char : Type) (blank_char : char)
    (prob_matrix : list (list score)) (charlist syms : list char) :
  decode blank_char prob_matrix charlist = Ok syms ->
  length syms <= length prob_matrix /\
  Forall (fun c => In c charlist) syms.
Proof.
  intros H. split.
  - apply decode_inv in H as (idxs & _ & Hm & _ & Hl).
    apply map_result_length in Hm, Hl.
    pose proof (collapse_length idxs).
    pose proof (strip_blank_length (collapse idxs)). lia.
  - eapply decode_symbols_in_charlist. eassumption.
Qed.

Lemma decoded_symbols_come_from_charlist_witness :
  length ["B"; "C"; "C"]%char <= length bcc_matrix /\
  Forall (fun c => In c abc_charlist) ["B"; "C"; "C"]%char.
Proof.
  apply (@decoded_symbols_come_from_charlist ascii "~"%char bcc_matrix).
  reflexivity.
Defined.

(** X15.  Showing a frame twice in a row does not change the decoding:
    if a matrix decodes, the matrix with one of its rows repeated right
    after itself decodes to the same symbols. *)
Theorem decode_ignores_a_repeated_frame (char : Type) (blank_char : char)
    (pre post : list (list score)) (row : list score)
    (charlist syms : list char) :
  decode blank_char (pre ++ row :: post) charlist = Ok syms ->
  decode blank_char (pre ++ row :: row :: post) charlist = Ok syms.
Proof.
  intros H.
  destruct (decode_ok_shape _ _ _ H) as [Hlen Hw].
  apply decode_inv in H as (idxs & Hsq & Hm & Hne & Hl).
  apply map_result_app_inv in Hm as (ipre & irest & Hpre & Hrest & ->).
  simpl in Hrest.
  destruct (np_argmax row) as [a|e] eqn:Ea; [|discriminate].
  cbn [bind] in Hrest.
  destruct (map_result np_argmax post) as [ipost|e] eqn:Ep; [|discriminate].
  cbn [bind] in Hrest. injection Hrest as <-.
  unfold decode.
  rewrite (@output_text_of_indexes char (pre ++ row :: row :: post) _
             (ipre ++ a :: a :: ipost)).
  - rewrite collapse_repeated. exact Hl.
  - unfold np_squeeze.
    replace (length (pre ++ row :: row :: post) =? 1) with false.
    2:{ symmetry. apply Nat.eqb_neq. rewrite length_app. simpl. lia. }
    replace (match pre ++ row :: row :: post with
             | [] => 0 | r :: _ => length r end)
      with (shape1 (pre ++ row :: post))
      by (destruct pre; reflexivity).
    replace (shape1 (pre ++ row :: post) =? 1) with false; [reflexivity|].
    symmetry. apply Nat.eqb_neq. lia.
  - apply map_result_app; [assumption|].
    simpl. now rewrite Ea, Ep.
  - destruct ipre; discriminate.
Qed.

Lemma decode_ignores_a_repeated_frame_witness :
  decode "~"%char
         ([[Fin (5 # 10); Fin (1 # 10); Fin (3 # 10); Fin (1 # 10)]]
          ++ [Fin (4 # 10); Fin (4 # 10); Fin (1 # 10); Fin (1 # 10)]
          :: [Fin (4 # 10); Fin (4 # 10); Fin (1 # 10); Fin (1 # 10)]
          :: skipn 2 bcc_matrix)
         abc_charlist
  = Ok ["B"; "C"; "C"]%char.
Proof.
  apply (@decode_ignores_a_repeated_frame ascii "~"%char
           [[Fin (5 # 10); Fin (1 # 10); Fin (3 # 10); Fin (1 # 10)]]
           (skipn 2 bcc_matrix)
           [Fin (4 # 10); Fin (4 # 10); Fin (1 # 10); Fin (1 # 10)]).
  reflexivity.
Defined.

(** X16.  The decoding is empty exactly when every frame has its arg-max
    at the blank label. *)
Theorem decode_is_empty_iff_all_blank (char : Type) (blank_char : char)
    (prob_matrix : list (list score)) (charlist syms : list char) :
  decode blank_char prob_matrix charlist = Ok syms ->
  (syms = [] <-> Forall (fun row => np_argmax row = Ok 0) prob_matrix).
Proof.
  intros H.
  apply decode_inv in H as (idxs & _ & Hm & _ & Hl).
  assert (Hsyms : syms = [] <-> strip_blank (collapse idxs) = []).
  { apply map_result_length in Hl. split; intros E.
    - rewrite E in Hl. destruct (strip_blank _); [reflexivity|discriminate].
    - rewrite E in Hl. destruct syms; [reflexivity|discriminate]. }
  rewrite Hsyms, strip_collapse_nil.
  apply map_result_inv in Hm. clear -Hm.
  induction Hm as [|row i t l Hi Ht IH].
  - split; constructor.
  - split; intros H; inversion H; subst; constructor; try tauto; congruence.
Qed.

Lemma decode_is_empty_iff_all_blank_witness :
  [] = @nil ascii <->
  Forall (fun row => np_argmax row = Ok 0)
         [[Fin 1; Fin 0; Fin 0]; [Fin 1; Fin 0; Fin 0]].
Proof.
  apply (@decode_is_empty_iff_all_blank ascii "~"%char
           [[Fin 1; Fin 0; Fin 0]; [Fin 1; Fin 0; Fin 0]]
           ["A"; "B"]%char []).
  reflexivity.
Defined.

(** X17.  On a matrix of at least two rows of one width of at least two,
    the decoding succeeds when the charlist holds a symbol for every label
    but the blank, and raises IndexError as soon as one frame has its
    arg-max at a label beyond the charlist. *)
Theorem decode_raises_when_charlist_is_short (char : Type)
    (blank_char : char) (prob_matrix : list (list score)) (width : nat)
    (charlist : list char) :
  2 <= length prob_matrix ->
  2 <= width ->
  Forall (fun row => length row = width) prob_matrix ->
  (width <= S (length charlist) ->
   exists syms, decode blank_char prob_matrix charlist = Ok syms) /\
  ((exists row i, In row prob_matrix /\ np_argmax row = Ok i /\
                  length charlist < i) ->
   decode blank_char prob_matrix charlist = Raise IndexError).
Proof.
  intros Hlen Hw Hrows.
  pose proof (squeeze_keeps_matrix Hlen Hw Hrows) as Hsq.
  assert (Hm : exists idxs,
             map_result np_argmax prob_matrix = Ok idxs /\
             Forall2 (fun row i => np_argmax row = Ok i) prob_matrix idxs).
  { clear Hlen Hsq. induction Hrows as [|row t Hr Ht IH].
    - exists []. split; [reflexivity|constructor].
    - destruct IH as (idxs & Hi & Hf).
      destruct row as [|s r]; [simpl in Hr; lia|].
      exists (argmax_from 0 s 1 r :: idxs). split.
      + cbn [map_result np_argmax bind]. now rewrite Hi.
      + constructor; [reflexivity|assumption]. }
  destruct Hm as (idxs & Hm & Hf).
  assert (Hne : idxs <> []).
  { intros ->. inversion Hf; subst. simpl in Hlen. lia. }
  unfold decode. rewrite (output_text_of_indexes _ Hsq Hm Hne).
  split.
  - intros Hfit. apply lookup_all.
    apply Forall_forall. intros i Hi.
    apply strip_blank_In in Hi. destruct Hi as [Hi _].
    apply collapse_In in Hi.
    destruct (@Forall2_In_right _ _ _ _ _ _ Hf Hi) as (row & Hrow & Ha).
    apply np_argmax_lt in Ha.
    rewrite Forall_forall in Hrows. rewrite (Hrows _ Hrow) in Ha.
    unfold letters_of. simpl. lia.
  - intros (row & i & Hrow & Ha & Hbig). apply lookup_all.
    apply Exists_exists. exists i. split; [|unfold letters_of; simpl; lia].
    apply strip_blank_keeps; [|lia]. apply collapse_keeps.
    clear -Hf Hrow Ha. induction Hf as [|r j t l Hj Ht IH]; [contradiction|].
    destruct Hrow as [->|Hrow]; [left; congruence|right; auto].
Qed.

Lemma decode_raises_when_charlist_is_short_witness :
  decode "~"%char [[Fin 0; Fin 0; Fin 1]; [Fin 1; Fin 0; Fin 0]] ["A"%char]
  = Raise IndexError.
Proof.
  apply (proj2 (@decode_raises_when_charlist_is_short ascii "~"%char
                  [[Fin 0; Fin 0; Fin 1]; [Fin 1; Fin 0; Fin 0]] 3
                  ["A"%char] ltac:(simpl; lia) ltac:(lia)
                  ltac:(repeat constructor))).
  exists [Fin 0; Fin 0; Fin 1], 2. split; [now left|].
  split; [reflexivity|simpl; lia].
Defined.

(** ** Padding the image *)

Lemma pad_row_edge_ok {A : Type} (row : list A) (after : nat) :
  row <> [] ->
  exists edge,
    nth_error row (length row - 1) = Some edge /\
    pad_row_edge row after = Ok (row ++ repeat edge after).
Proof.
  intros Hne. unfold pad_row_edge.
  destruct (rev row) as [|edge r] eqn:E.
  - exfalso. apply Hne. apply (f_equal (@rev A)) in E.
    now rewrite rev_involutive in E.
  - exists edge. split; [|reflexivity].
    apply (f_equal (@rev A)) in E. rewrite rev_involutive in E.
    rewrite E. simpl. rewrite length_app. simpl.
    rewrite nth_error_app2 by lia.
    replace (length (rev r) + 1 - 1 - length (rev r)) with 0 by lia.
    reflexivity.
Qed.

(** X18.  Padding an image of width [w] (at least one row, at least one
    column) to the input width [W >= w] keeps the rows and their pixels
    and appends to each row [W - w] copies of its last pixel, so every row
    ends up [W] wide.  An image wider than [W] is not cropped: the padding
    raises ValueError. *)
Theorem padding_fills_rows_with_their_edge {A : Type}
    (resized_image : list (list A)) (w : nat) (W : Z) :
  resized_image <> [] ->
  Forall (fun row => length row = w) resized_image ->
  (1 <= w -> (Z.of_nat w <= W)%Z ->
   exists padded,
     pad_to_input_width resized_image W = Ok padded /\
     Forall (fun row => Z.of_nat (length row) = W) padded /\
     Forall2 (fun row prow =>
                exists edge,
                  nth_error row (w - 1) = Some edge /\
                  prow = row ++ repeat edge (Z.to_nat W - w))
             resized_image padded) /\
  ((W < Z.of_nat w)%Z ->
   pad_to_input_width resized_image W = Raise ValueError).
Proof.
  intros Hne Hrows.
  assert (Hs : shape1 resized_image = w).
  { destruct resized_image as [|row t]; [congruence|].
    now inversion Hrows. }
  unfold pad_to_input_width, np_pad_edge_right. rewrite Hs.
  split.
  - intros Hw HW.
    destruct (W - Z.of_nat w <? 0)%Z eqn:E; [apply Z.ltb_lt in E; lia|].
    replace (Z.to_nat (W - Z.of_nat w)) with (Z.to_nat W - w) by lia.
    clear Hne Hs E.
    induction Hrows as [|row t Hr Ht IH].
    + exists []. repeat split; constructor.
    + destruct IH as (padded & Hp & Hall & Hf).
      destruct (@pad_row_edge_ok _ row (Z.to_nat W - w)) as (edge & He & Hpad).
      { intros ->. simpl in Hr. lia. }
      exists ((row ++ repeat edge (Z.to_nat W - w)) :: padded).
      cbn [map_result]. rewrite Hpad, Hp. cbn [bind].
      split; [reflexivity|]. split.
      * constructor; [|assumption].
        rewrite length_app, repeat_length. lia.
      * constructor; [|assumption].
        exists edge. rewrite Hr in He. auto.
  - intros HW.
    destruct (W - Z.of_nat w <? 0)%Z eqn:E; [reflexivity|].
    apply Z.ltb_ge in E. lia.
Qed.

Lemma padding_fills_rows_with_their_edge_witness :
  exists padded,
    pad_to_input_width [[1%Z; 2%Z]; [3%Z; 4%Z]] 4 = Ok padded /\
    Forall (fun row => Z.of_nat (length row) = 4%Z) padded.
Proof.
  destruct (proj1 (@padding_fills_rows_with_their_edge Z
                     [[1%Z; 2%Z]; [3%Z; 4%Z]] 2 4
                     ltac:(discriminate) ltac:(repeat constructor)))
    as (padded & H1 & H2 & _).
  - lia.
  - simpl. lia.
  - exists padded. auto.
Defined.

(** ** Reading the charlist *)

Section CharlistFacts.

Variable char : Type.
Variable is_space : char -> bool.

Lemma lstrip_all_space (line : list char) :
  lstrip is_space line = [] <-> forallb is_space line = true.
Proof.
  induction line as [|c t IH]; simpl; [tauto|].
  destruct (is_space c); simpl; [exact IH|].
  split; discriminate.
Qed.

Lemma forallb_rev (l : list char) :
  forallb is_space (rev l) = forallb is_space l.
Proof.
  induction l as [|c t IH]; [reflexivity|].
  simpl. rewrite forallb_app, IH. simpl.
  rewrite andb_true_r. apply andb_comm.
Qed.

Lemma lstrip_spaces_then (ws rest : list char) :
  forallb is_space ws = true ->
  lstrip is_space (ws ++ rest) = lstrip is_space rest.
Proof.
  induction ws as [|c t IH]; simpl; [reflexivity|].
  intros H. apply andb_true_iff in H. destruct H as [Hc Ht].
  rewrite Hc. now apply IH.
Qed.

(** A line strips to nothing exactly when it holds white space only. *)
Lemma py_strip_nil (line : list char) :
  py_strip is_space line = [] <-> forallb is_space line = true.
Proof.
  unfold py_strip. split.
  - intros H. apply (f_equal (@rev char)) in H.
    rewrite rev_involutive in H. simpl in H.
    apply lstrip_all_space in H. rewrite forallb_rev in H.
    destruct (lstrip is_space line) as [|c t] eqn:E.
    + now apply lstrip_all_space.
    + exfalso. clear -E H.
      induction line as [|x r IH]; simpl in E; [discriminate|].
      destruct (is_space x) eqn:Ex; [auto|].
      injection E as <- <-. simpl in H. rewrite Ex in H. discriminate.
  - intros H. apply lstrip_all_space in H. now rewrite H.
Qed.

(** One symbol between white space strips to the symbol. *)
Lemma py_strip_symbol (before after : list char) (c : char) :
  forallb is_space before = true ->
  forallb is_space after = true ->
  is_space c = false ->
  py_strip is_space (before ++ c :: after) = [c].
Proof.
  intros Hb Ha Hc. unfold py_strip.
  rewrite lstrip_spaces_then by assumption.
  simpl. rewrite Hc.
  change (c :: after) with ([c] ++ after).
  rewrite rev_app_distr.
  rewrite lstrip_spaces_then by (now rewrite forallb_rev).
  simpl. now rewrite Hc.
Qed.

End CharlistFacts.

(** X19.  The letters are the blank followed by the stripped lines joined
    together.  When every line of the charlist strips to one symbol (as a
    symbol between white space does), label [i + 1] stands for the symbol
    of line [i].  A line of white space only strips to nothing and is
    skipped without an error, so every later symbol moves one label
    down. *)
Theorem letters_follow_the_charlist_lines (char : Type)
    (is_space : char -> bool) (blank_char : char) :
  (forall lines symbols,
      Forall2 (fun line c => py_strip is_space line = [c]) lines symbols ->
      letters_from_lines is_space blank_char lines
      = letters_of blank_char symbols /\
      forall i line,
        nth_error lines i = Some line ->
        exists c,
          py_strip is_space line = [c] /\
          nth_error (letters_from_lines is_space blank_char lines) (S i)
          = Some c) /\
  (forall before after line,
      forallb is_space line = true ->
      letters_from_lines is_space blank_char (before ++ line :: after)
      = letters_from_lines is_space blank_char (before ++ after)) /\
  (forall lines,
      nth_error (letters_from_lines is_space blank_char lines) 0
      = Some blank_char) /\
  (forall before after c,
      forallb is_space before = true ->
      forallb is_space after = true ->
      is_space c = false ->
      py_strip is_space (before ++ c :: after) = [c]).
Proof.
  split; [|split; [|split; [|apply py_strip_symbol]]].
  - intros lines symbols Hf.
    assert (Hc : concat (map (py_strip is_space) lines) = symbols).
    { induction Hf as [|line c t s Hl Ht IH]; [reflexivity|].
      simpl. now rewrite Hl, IH. }
    unfold letters_from_lines, letters_of. rewrite Hc.
    split; [reflexivity|].
    intros i line Hi. cbn [nth_error].
    clear Hc. revert i Hi.
    induction Hf as [|l c t s Hl Ht IH]; intros [|i] Hi; simpl in Hi;
      try discriminate.
    + injection Hi as <-. exists c. auto.
    + destruct (IH _ Hi) as (c' & H1 & H2). exists c'. auto.
  - intros before after line Hl.
    unfold letters_from_lines. f_equal.
    rewrite !map_app, !concat_app. simpl.
    apply py_strip_nil in Hl. now rewrite Hl.
  - reflexivity.
Qed.

(** White space of the demonstration: the blank and the line feed. *)
Lemma letters_follow_the_charlist_lines_witness :
  letters_from_lines
    (fun c => orb (Ascii.eqb c " ") (Ascii.eqb c "010")) "~"%char
    (["A"; "010"] :: [[" "; "010"; " "]; ["B"; "010"]])%char
  = letters_from_lines
      (fun c => orb (Ascii.eqb c " ") (Ascii.eqb c "010")) "~"%char
      ([["A"; "010"]] ++ [["B"; "010"]])%char.
Proof.
  apply (proj1 (proj2 (letters_follow_the_charlist_lines
                         (fun c => orb (Ascii.eqb c " ") (Ascii.eqb c "010"))
                         "~"%char))
               [["A"; "010"]]%char [["B"; "010"]]%char
               [" "; "010"; " "]%char).
  reflexivity.
Defined.

(** ** Normalising the image *)

Lemma normalize_pixel_rgb (r g b : Z) :
  normalize_pixel [r; g; b]
  = Ok [normalized 0 r; normalized 1 g; normalized 2 b].
Proof. reflexivity. Qed.

Lemma normalize_pixel_other (pixel : list Z) :
  length pixel <> 3 -> normalize_pixel pixel = Raise ValueError.
Proof.
  intros H. unfold normalize_pixel, broadcast_channels.
  rewrite !length_map. simpl length.
  destruct (length pixel =? 3) eqn:E; [apply Nat.eqb_eq in E; lia|].
  reflexivity.
Qed.

(** Divisions by rational constants as multiplications, for linear
    arithmetic. *)
Ltac qdiv_consts :=
  unfold Qdiv;
  repeat match goal with
  | |- context [Qinv (Qmake ?n ?d)] =>
      let v := eval compute in (Qinv (Qmake n d)) in
      change (Qinv (Qmake n d)) with v
  end.

Lemma normalized_increasing (c : nat) (v v' : Z) :
  c < 3 -> (v < v')%Z -> (normalized c v < normalized c v')%Q.
Proof.
  intros Hc Hv. rewrite Zlt_Qlt in Hv. unfold normalized.
  destruct c as [|[|[|c]]]; [| | |lia]; cbn [nth mean std];
    qdiv_consts; qlra.
Qed.

Lemma normalized_range (c : nat) (v : Z) :
  c < 3 -> (0 <= v <= 255)%Z ->
  ((0 - nth c mean 0) / nth c std 1 <= normalized c v)%Q /\
  (normalized c v <= (1 - nth c mean 0) / nth c std 1)%Q.
Proof.
  intros Hc [H0 H255].
  assert (Hlo : (inject_Z 0 <= inject_Z v)%Q) by (now rewrite <- Zle_Qle).
  assert (Hhi : (inject_Z v <= inject_Z 255)%Q) by (now rewrite <- Zle_Qle).
  change (inject_Z 0) with 0%Q in Hlo.
  change (inject_Z 255) with 255%Q in Hhi.
  unfold normalized.
  destruct c as [|[|[|c]]]; [| | |lia]; cbn [nth mean std];
    split; qdiv_consts; qlra.
Qed.

(** X20.  In exact arithmetic [normalize] maps every pixel of three byte
    channels to [(v / 255 - mean) / std] channel by channel and keeps the
    shape of the image; each channel is strictly increasing in the byte
    value and sends the bytes 0..255 into
    [[(0 - mean) / std, (1 - mean) / std]].  A pixel with another number of
    channels raises ValueError, the tuples not broadcasting against it. *)
Theorem normalize_is_affine_per_channel :
  (forall image,
      Forall (Forall (fun pixel => length pixel = 3)) image ->
      exists out,
        normalize image = Ok out /\
        Forall2 (Forall2 (fun pixel o =>
                   exists r g b,
                     pixel = [r; g; b] /\
                     o = [normalized 0 r; normalized 1 g; normalized 2 b]))
                image out) /\
  (forall c v v', c < 3 -> (v < v')%Z ->
                  (normalized c v < normalized c v')%Q) /\
  (forall c v, c < 3 -> (0 <= v <= 255)%Z ->
     ((0 - nth c mean 0) / nth c std 1 <= normalized c v)%Q /\
     (normalized c v <= (1 - nth c mean 0) / nth c std 1)%Q) /\
  (forall pixel, length pixel <> 3 ->
                 normalize_pixel pixel = Raise ValueError).
Proof.
  split; [|split; [exact normalized_increasing|split;
                   [exact normalized_range|exact normalize_pixel_other]]].
  - intros image Himg. unfold normalize.
    induction Himg as [|row t Hrow Ht (out & Ho & Hf)].
    + exists []. split; [reflexivity|constructor].
    + assert (Hr : exists orow,
                 map_result normalize_pixel row = Ok orow /\
                 Forall2 (fun pixel o =>
                            exists r g b,
                              pixel = [r; g; b] /\
                              o = [normalized 0 r; normalized 1 g;
                                   normalized 2 b]) row orow).
      { clear -Hrow. induction Hrow as [|px r Hpx Hr (orow & Ho & Hf)].
        - exists []. split; [reflexivity|constructor].
        - destruct px as [|x [|y [|z [|]]]]; try discriminate.
          exists ([normalized 0 x; normalized 1 y; normalized 2 z] :: orow).
          split.
          + cbn [map_result]. rewrite normalize_pixel_rgb, Ho. reflexivity.
          + constructor; [|assumption]. exists x, y, z. auto. }
      destruct Hr as (orow & Hor & Hfr).
      exists (orow :: out). cbn [map_result]. rewrite Hor, Ho.
      split; [reflexivity|]. now constructor.
Qed.

Lemma normalize_is_affine_per_channel_witness :
  (normalized 0 10 < normalized 0 200)%Q /\
  ((0 - nth 1 mean 0) / nth 1 std 1 <= normalized 1 128)%Q.
Proof.
  split.
  - apply (proj1 (proj2 normalize_is_affine_per_channel)); lia.
  - apply (proj1 (proj2 (proj2 normalize_is_affine_per_channel))); lia.
Defined.

(** ** The segmentation mask *)

Lemma map_result_pointwise {A B : Type} (f : A -> result B)
    (P : A -> B -> Prop) (l : list A) :
  (forall x, In x l -> exists y, f x = Ok y /\ P x y) ->
  exists ys, map_result f l = Ok ys /\ Forall2 P l ys.
Proof.
  induction l as [|x t IH]; intros H.
  - exists []. split; [reflexivity|constructor].
  - destruct (H x (or_introl eq_refl)) as (y & Hy & Hp).
    destruct IH as (ys & Hys & Hf); [intros; apply H; now right|].
    exists (y :: ys). cbn [map_result]. rewrite Hy, Hys.
    split; [reflexivity|now constructor].
Qed.

Lemma Forall2_seq_nth {B : Type} (P : nat -> B -> Prop) (n : nat)
    (ys : list B) :
  Forall2 P (seq 0 n) ys ->
  length ys = n /\
  forall i, i < n -> exists y, nth_error ys i = Some y /\ P i y.
Proof.
  intros H.
  assert (Hg : forall s, Forall2 P (seq s n) ys ->
                length ys = n /\
                forall i, i < n ->
                  exists y, nth_error ys i = Some y /\ P (s + i) y).
  { clear H. revert ys. induction n as [|n IH]; intros ys s H.
    - inversion H; subst. split; [reflexivity|]. intros i Hi. lia.
    - simpl in H. inversion H as [|? y ? t Hy Ht]; subst.
      destruct (IH _ _ Ht) as [Hl Hn]. split; [simpl; lia|].
      intros [|i] Hi.
      + exists y. rewrite Nat.add_0_r. auto.
      + destruct (Hn i) as (y' & H1 & H2); [lia|].
        exists y'. rewrite Nat.add_succ_r. auto. }
  exact (Hg 0 H).
Qed.

(** X21.  For a result of [C] classes (between 1 and 256) over an image of
    at least two rows and two columns, without NaN, the mask has the shape
    of the image and each entry is the class whose score is highest at its
    pixel, ties going to the lowest class; the cast to [uint8] leaves
    these indices as they are.  Without a class the arg-max raises. *)
Theorem mask_entries_are_best_classes
    (planes : list (list (list score))) (C H W : nat) :
  length planes = C ->
  1 <= C <= 256 ->
  2 <= H -> 2 <= W ->
  Forall (fun plane =>
            length plane = H /\
            Forall (fun row => length row = W /\ Forall not_nan row) plane)
         planes ->
  result_mask [] = Raise ValueError /\
  exists rows,
    result_mask planes = Ok (Mask2 rows) /\
    length rows = H /\
    forall h, h < H ->
      exists row,
        nth_error rows h = Some row /\
        length row = W /\
        forall w, w < W ->
          exists c,
            nth_error row w = Some (Z.of_nat c) /\
            c < C /\
            is_argmax (class_scores planes h w) c.
Proof.
  intros HC HCr HH HW Hplanes. split; [reflexivity|].
  unfold result_mask, argmax_classes.
  destruct planes as [|plane rest] eqn:Ep; [simpl in HC; lia|].
  rewrite <- Ep in *.
  assert (Hp0 : length plane = H /\ length (hd [] plane) = W).
  { rewrite Ep in Hplanes. inversion Hplanes as [|? ? [Hl Hrows] _]; subst.
    split; [reflexivity|].
    destruct plane as [|row t]; [simpl in HH; lia|].
    now inversion Hrows as [|? ? [Hw _] _]. }
  destruct Hp0 as [HpH HpW]. rewrite HpH, HpW.
  set (entry := fun h w c =>
         c < length planes /\ is_argmax (class_scores planes h w) c).
  assert (Hpix : forall h w, h < H -> w < W ->
            exists c, np_argmax (class_scores planes h w) = Ok c /\
                      entry h w c).
  { intros h w Hh Hw.
    destruct (@np_argmax_spec (class_scores planes h w)) as (c & Hc & Ha).
    - unfold class_scores. rewrite Ep. discriminate.
    - unfold class_scores. apply Forall_map.
      eapply Forall_impl; [|exact Hplanes].
      intros p [Hl Hrows].
      assert (Hrow : In (nth h p []) p) by (apply nth_In; lia).
      rewrite Forall_forall in Hrows. destruct (Hrows _ Hrow) as [Hlw Hn].
      rewrite Forall_forall in Hn. apply Hn, nth_In. lia.
    - exists c. split; [assumption|]. split; [|assumption].
      apply is_argmax_lt in Ha. unfold class_scores in Ha.
      now rewrite length_map in Ha. }
  destruct (@map_result_pointwise nat (list nat)
              (fun h => map_result
                          (fun w => np_argmax (class_scores planes h w))
                          (seq 0 W))
              (fun h row => Forall2 (entry h)
                                    (seq 0 W) row)
              (seq 0 H))
    as (classes & Hcl & Hf).
  { intros h Hh. apply in_seq in Hh.
    apply map_result_pointwise. intros w Hw. apply in_seq in Hw.
    apply Hpix; lia. }
  rewrite Hcl. cbn [bind].
  apply Forall2_seq_nth in Hf. destruct Hf as [Hlen Hrows].
  assert (Hwidth : forall row, In row classes ->
                               length row = W).
  { intros row Hin. apply In_nth_error in Hin. destruct Hin as [h Hh].
    assert (h < H)
      by (rewrite <- Hlen; apply nth_error_Some; congruence).
    destruct (Hrows h) as (row' & Hr & Hf'); [assumption|].
    rewrite Hh in Hr. injection Hr as <-.
    now apply Forall2_seq_nth in Hf'. }
  assert (Hsq : squeeze_mask classes = Mask2 classes).
  { unfold squeeze_mask.
    destruct classes as [|r0 [|r1 t]]; simpl in Hlen; try lia.
    cbn [hd]. rewrite (Hwidth r0) by now left.
    destruct (W =? 1) eqn:E; [|reflexivity].
    apply Nat.eqb_eq in E. lia. }
  rewrite Hsq. cbn [mask_astype_uint8].
  eexists. split; [reflexivity|]. split; [now rewrite length_map|].
  intros h Hh. destruct (Hrows h Hh) as (row & Hr & Hf').
  exists (map astype_uint8 row).
  split; [now rewrite (map_nth_error _ _ _ Hr)|].
  apply Forall2_seq_nth in Hf'. destruct Hf' as [Hl Hent].
  split; [now rewrite length_map|].
  intros w Hw. destruct (Hent w Hw) as (c & Hc & Hlt & Ha).
  exists c. split; [|split; [lia|assumption]].
  rewrite (map_nth_error _ _ _ Hc). unfold astype_uint8.
  rewrite Z.mod_small by lia. reflexivity.
Qed.

Lemma mask_entries_are_best_classes_witness :
  exists rows,
    result_mask [[[Fin 1; Fin 0]; [Fin 0; Fin 3]];
                 [[Fin 0; Fin 2]; [Fin 0; Fin 3]]] = Ok (Mask2 rows) /\
    length rows = 2.
Proof.
  destruct (@mask_entries_are_best_classes
              [[[Fin 1; Fin 0]; [Fin 0; Fin 3]];
               [[Fin 0; Fin 2]; [Fin 0; Fin 3]]] 2 2 2)
    as (_ & rows & H1 & H2 & _).
  - reflexivity.
  - lia.
  - lia.
  - lia.
  - repeat (constructor; [split; [reflexivity|]|]); repeat constructor.
  - exists rows. auto.
Defined.
